(** * gfile: chunked upload and download against gigafile.nu

    A shallow embedding of [gfile/gfile.py] and the properties of its
    size codec, chunk source, upload coordinator and download path.

    Python integers are [Z], [bytes] objects are lists of [Byte.byte],
    [str] objects are Rocq strings holding the UTF-8 encoding of the
    text, one [ascii] per byte (module [Text] groups the bytes into
    characters where the code counts or classifies characters),
    dictionaries are [gmap]s.  An exception is a value of [Py.exn] carried
    by [Py.result].  Floats are binary64 values with their rounding
    written out; the logarithm of the C library, which IEEE 754 does not
    fix, is a function that the properties take with an accuracy bound.
    The threads of an upload are a labelled transition system over the
    shared attributes of the [GFile] object; the network and the machine
    enter as values: the bytes of the source file, the responses of the
    server, the landing page as what each extraction yields, the download
    as the chunks delivered and the exception that ends it, the files as a
    [gmap] from names to contents with the operations that the operating
    system refuses. *)

From Stdlib Require Import ZArith Lia Ascii String DecimalString DecimalN.
From stdpp Require Import base numbers list strings gmap.

Open Scope Z_scope.

(** ** Python runtime *)

Module Py.

Inductive exn :=
| AssertionError
| Exception
| HTTPError
| IndexError
| KeyError
| OSError
| OverflowError
| RequestException
| TypeError
| UnboundLocalError
| ValueError
| ZeroDivisionError.

Inductive result (A : Type) :=
| Ok (a : A)
| Raise (e : exn).

Arguments Ok {A} a.
Arguments Raise {A} e.

Definition bind {A B : Type} (r : result A) (k : A -> result B) : result B :=
  match r with
  | Ok a => k a
  | Raise e => Raise e
  end.

Definition raises {A : Type} (r : result A) : Prop :=
  exists e, r = Raise e.

(** [len(x)] as a Python integer. *)
Definition len {A : Type} (l : list A) : Z := Z.of_nat (length l).

End Py.

Abbreviation bytes := (list Byte.byte).

(** ** Text

    A [str] is kept as its UTF-8 encoding.  [len], slices, [\d] and the
    character classes of [re] work on characters; [chars] cuts the bytes
    into them.  A [str] that has no UTF-8 encoding (one with a lone
    surrogate) is outside the model. *)

Module Text.

(** A continuation byte, 10xxxxxx. *)
Definition is_continuation (c : ascii) : bool :=
  (128 <=? N_of_ascii c)%N && (N_of_ascii c <? 192)%N.

Definition starts_continuation (s : string) : bool :=
  match s with
  | String c _ => is_continuation c
  | EmptyString => false
  end.

(** The characters of [s]: every byte that is no continuation byte, with
    the continuation bytes that follow it. *)
Fixpoint chars (s : string) : list string :=
  match s with
  | EmptyString => []
  | String c s' =>
      if starts_continuation s' then
        match chars s' with
        | g :: gs => String c g :: gs
        | [] => [String c EmptyString]
        end
      else String c EmptyString :: chars s'
  end.

(** Continuation bytes only. *)
Fixpoint all_continuation (s : string) : bool :=
  match s with
  | EmptyString => true
  | String c s' => is_continuation c && all_continuation s'
  end.

(** One byte and the continuation bytes of its character. *)
Definition one_char (g : string) : bool :=
  match g with
  | String _ r => all_continuation r
  | EmptyString => false
  end.

(** [''.join(l)]. *)
Fixpoint glue (l : list string) : string :=
  match l with
  | [] => EmptyString
  | g :: l' => g +:+ glue l'
  end.

(** [len(s)] on a [str]: the number of characters. *)
Definition str_len (s : string) : Z := Z.of_nat (length (chars s)).

(** [s[i:j]] on a [str], for [0 <= i <= j]. *)
Definition str_slice (s : string) (i j : Z) : string :=
  glue (take (Z.to_nat (j - i)) (drop (Z.to_nat i) (chars s))).

(** The code point that the bytes of one character encode; [None] when
    they are no well-formed UTF-8 sequence. *)
Definition code_point (g : string) : option N :=
  match g with
  | String a EmptyString =>
      if (N_of_ascii a <? 128)%N then Some (N_of_ascii a) else None
  | String a (String b EmptyString) =>
      if (194 <=? N_of_ascii a)%N && (N_of_ascii a <? 224)%N && is_continuation b
      then Some ((N_of_ascii a - 192) * 64 + (N_of_ascii b - 128))%N
      else None
  | String a (String b (String c EmptyString)) =>
      if (224 <=? N_of_ascii a)%N && (N_of_ascii a <? 240)%N
         && is_continuation b && is_continuation c
      then
        let v := ((N_of_ascii a - 224) * 4096 + (N_of_ascii b - 128) * 64
                  + (N_of_ascii c - 128))%N in
        if (2048 <=? v)%N && negb ((55296 <=? v)%N && (v <? 57344)%N)
        then Some v else None
      else None
  | String a (String b (String c (String d EmptyString))) =>
      if (240 <=? N_of_ascii a)%N && (N_of_ascii a <? 245)%N
         && is_continuation b && is_continuation c && is_continuation d
      then
        let v := ((N_of_ascii a - 240) * 262144 + (N_of_ascii b - 128) * 4096
                  + (N_of_ascii c - 128) * 64 + (N_of_ascii d - 128))%N in
        if (65536 <=? v)%N && (v <? 1114112)%N then Some v else None
      else None
  | _ => None
  end.

(** The decimal digits of Unicode 14 (category Nd, the characters that
    [\d] matches and [int] reads) come in 66 runs of ten, 0 to 9; these are
    the code points of the zeros. *)
Definition decimal_zeros : list N :=
  [48; 1632; 1776; 1984; 2406; 2534; 2662; 2790; 2918; 3046; 3174; 3302;
   3430; 3558; 3664; 3792; 3872; 4160; 4240; 6112; 6160; 6470; 6608;
   6784; 6800; 6992; 7088; 7232; 7248; 42528; 43216; 43264; 43472; 43504;
   43600; 44016; 65296; 66720; 68912; 69734; 69872; 69942; 70096; 70384;
   70736; 70864; 71248; 71360; 71472; 71904; 72016; 72784; 73040; 73120;
   92768; 92864; 93008; 120782; 120792; 120802; 120812; 120822; 123200;
   123632; 125264; 130032]%N.

(** The value of a decimal digit, given as a character. *)
Definition decimal_value (g : string) : option Z :=
  match code_point g with
  | Some cp =>
      match find (fun z => (z <=? cp)%N && (cp <? z + 10)%N) decimal_zeros with
      | Some z => Some (Z.of_N (cp - z))
      | None => None
      end
  | None => None
  end.

(** [\d] on one character. *)
Definition is_decimal (g : string) : bool :=
  match decimal_value g with
  | Some _ => true
  | None => false
  end.

(** The longest run of decimal digits at the start, and the characters
    after it. *)
Fixpoint span_decimal (cs : list string) : list string * list string :=
  match cs with
  | g :: cs' =>
      if is_decimal g then let (ds, r) := span_decimal cs' in (g :: ds, r)
      else ([], cs)
  | [] => ([], [])
  end.

(** Every character of [s] is a decimal digit. *)
Definition decimal_only (s : string) : bool := forallb is_decimal (chars s).

(** [s] without the prefix [p], when it starts with it. *)
Fixpoint strip_prefix (p s : string) : option string :=
  match p, s with
  | EmptyString, _ => Some s
  | String a p', String b s' => if Ascii.eqb a b then strip_prefix p' s' else None
  | String _ _, EmptyString => None
  end.

End Text.

(** ** ChunkSource: [split_file] *)

Module ChunkSource.
Import Py.

(** A file opened with [open(input_file, 'rb')]: what it holds and where
    the next read starts. *)
Record file := { content : bytes; pos : Z }.

(** [f.seek(start)]: any offset from 0 on is accepted, also past the end. *)
Definition seek (f : file) (start : Z) : result file :=
  if start <? 0 then Raise OSError
  else Ok {| content := content f; pos := start |}.

(** [f.read(n)] on a buffered binary file: at most [n] bytes, fewer only at
    end of file; [-1] reads the rest; below [-1] is a [ValueError]. *)
Definition read (f : file) (n : Z) : result (bytes * file) :=
  if n <? -1 then Raise ValueError
  else
    let rest := drop (Z.to_nat (pos f)) (content f) in
    let chunk := if n =? -1 then rest else take (Z.to_nat n) rest in
    Ok (chunk, {| content := content f; pos := pos f + len chunk |}).

(** The [while True] loop of [split_file].  [out] is the destination
    writer, held as the sequence of [out.write(chunk)] calls made so far.
    The result pairs the writer with how the loop ended; [None] means the
    fuel was too small. *)
Fixpoint copy_loop (fuel : nat) (f : file) (out : list bytes)
  (size output_size chunk_copy_size : Z) : option (list bytes * result unit) :=
  match fuel with
  | O => None
  | S fuel' =>
      if size =? output_size then Some (out, Ok tt)
      else if output_size <? size then Some (out, Raise Exception)
      else
        let current_chunk_size := Z.min chunk_copy_size (output_size - size) in
        match read f current_chunk_size with
        | Raise e => Some (out, Raise e)
        | Ok ([], _) => Some (out, Ok tt)
        | Ok (chunk, f') =>
            copy_loop fuel' f' (out ++ [chunk]) (size + len chunk)
              output_size chunk_copy_size
        end
  end.

(** [split_file(input_file, out, target_size, start, chunk_copy_size)];
    [input_file] is the content of the (existing) source file. *)
Definition split_file (input_file : bytes) (out : list bytes)
  (target_size : option Z) (start chunk_copy_size : Z)
  : option (list bytes * result unit) :=
  let size := 0 in
  let input_size := len input_file in
  let output_size :=
    match target_size with
    | None => input_size - start
    | Some t => Z.min t (input_size - start)
    end in
  match seek {| content := input_file; pos := 0 |} start with
  | Raise e => Some (out, Raise e)
  | Ok f => copy_loop (S (length input_file)) f out size output_size chunk_copy_size
  end.

End ChunkSource.

(** ** Python floats

    Only finite doubles and the infinities occur.  Every finite double
    (IEEE 754 binary64) is a whole number of units of 2^-1074, the smallest
    subnormal, and is kept as that number; its significand has at most 53
    bits.  [nearest] rounds a rational to the closest double, ties to the
    even significand. *)

Module PyFloat.
Import Py.

Inductive float :=
| Fin (u : Z)              (* u * 2^-1074 *)
| Inf (negative : bool).

(** 1.0 in units. *)
Definition one : Z := 2 ^ 1074.

(** The first value past the largest double, 2^1024, in units. *)
Definition huge : Z := 2 ^ 2098.

(** The nearest integer to [n / d], ties to even, for [0 <= n], [0 < d]. *)
Definition round_half_even (n d : Z) : Z :=
  let q := n / d in
  let r := n mod d in
  match 2 * r ?= d with
  | Lt => q
  | Gt => q + 1
  | Eq => if Z.even q then q else q + 1
  end.

(** floor(log2 (n / d)) for [0 < d <= n]; negative when [n < d]. *)
Definition log2_ratio (n d : Z) : Z :=
  let k := Z.log2 n - Z.log2 d in
  if d * 2 ^ k <=? n then k else k - 1.

(** The double nearest to [n / d] units ([0 <= n], [0 < d]), before the
    range check: the bits below the 53 leading ones are rounded off. *)
Definition nearest (n d : Z) : Z :=
  let s := Z.max 0 (log2_ratio n d - 52) in
  round_half_even n (d * 2 ^ s) * 2 ^ s.

(** The double nearest to [sign * n / d] units; an infinity when that is
    out of range. *)
Definition round_ratio (sign n d : Z) : float :=
  let u := nearest n d in
  if u <? huge then Fin (sign * u) else Inf (sign <? 0).

(** [a / b] on two [int]s: the correctly rounded quotient. *)
Definition int_truediv (a b : Z) : result float :=
  if b =? 0 then Raise ZeroDivisionError
  else
    match round_ratio (Z.sgn a * Z.sgn b) (Z.abs a * one) (Z.abs b) with
    | Inf _ => Raise OverflowError
    | x => Ok x
    end.

(** [float(n)], also the conversion of the [int] operand of a mixed
    [float]/[int] operation. *)
Definition float_of_int (n : Z) : result float :=
  match round_ratio (Z.sgn n) (Z.abs n * one) 1 with
  | Inf _ => Raise OverflowError
  | x => Ok x
  end.

(** [x * y] on floats: an overflow is an infinity, not an exception.  The
    operands met here are finite; zero times an infinity, which would be
    not-a-number, does not arise and is not told apart. *)
Definition mul (x y : float) : float :=
  match x, y with
  | Fin u, Fin v => round_ratio (Z.sgn (u * v)) (Z.abs (u * v)) one
  | Fin u, Inf s | Inf s, Fin u => Inf (xorb s (u <? 0))
  | Inf s, Inf s' => Inf (xorb s s')
  end.

(** [x / y] on floats; the operands met here are finite (an infinity
    over an infinity does not arise and is not told apart). *)
Definition div (x y : float) : result float :=
  match x, y with
  | _, Fin 0 => Raise ZeroDivisionError
  | Fin u, Fin v => Ok (round_ratio (Z.sgn u * Z.sgn v) (Z.abs u * one) (Z.abs v))
  | Inf s, Fin v => Ok (Inf (xorb s (v <? 0)))
  | Fin _, Inf _ => Ok (Fin 0)
  | Inf s, Inf _ => Ok (Inf s)
  end.

(** [math.ceil(x)]. *)
Definition ceil (x : float) : result Z :=
  match x with
  | Fin u => Ok (- ((- u) / one))
  | Inf _ => Raise OverflowError
  end.

(** [int(x)]: towards zero. *)
Definition int_of_float (x : float) : result Z :=
  match x with
  | Fin u => Ok (u ÷ one)
  | Inf _ => Raise OverflowError
  end.

(** [math.pow(1024, i)] for an [int] i: the power of two 2^(10 i), zero
    once that is under half a unit, a range error from 2^1024 on. *)
Definition pow_1024 (i : Z) : result float :=
  if 1024 <=? 10 * i then Raise OverflowError
  else Ok (Fin (2 ^ (10 * i + 1074))).

(** [int(math.floor(math.log(x, 1024)))] for an [int] x.  CPython divides
    the C library's logarithm of x, taken as a double, by that of 1024.
    The library's logarithm is accurate to the last places but not
    correctly rounded, so the quotient is not fixed by IEEE 754: it is
    [math_log x], a function of the platform.  [math.floor] refuses an
    infinity. *)
Definition floor_log_1024 (math_log : Z -> float) (x : Z) : result Z :=
  if x <=? 0 then Raise ValueError
  else
    match math_log x with
    | Fin u => Ok (u / one)
    | Inf _ => Raise OverflowError
    end.

(** What is taken for granted about the platform's [math.log(x, 1024)],
    for 0 < x: it is finite, its floor [i] is not negative, and 1024^i and
    1024^(i+1) enclose the double nearest to x up to a relative error of
    2^-40, a margin that covers the rounding of the libraries in use (some
    2^-50 on each logarithm and on the quotient, which is 102.4 at most
    here, and 10 ln 2 times the relative distance of x).  Just below
    a power of 1024 the floor may so be the exponent of that power (as in
    CPython, where [math.log(2**50 - 1, 1024)] is 5.0).  From 2^1024 on,
    where x is no double, only 102 <= i is assumed. *)
Definition log_accurate (math_log : Z -> float) : Prop :=
  forall x, 0 < x ->
    exists u,
      math_log x = Fin u
      /\ 0 <= u / one
      /\ (x < 2 ^ 1024 ->
          2 ^ (10 * (u / one)) * (2 ^ 40 - 1) <= nearest (x * one) 1 / one * 2 ^ 40
          /\ nearest (x * one) 1 / one * (2 ^ 40 - 1)
             < 2 ^ (10 * (u / one + 1)) * 2 ^ 40)
      /\ (2 ^ 1024 <= x -> 102 <= u / one).

(** A logarithm without error, cut to a whole number: the floor of the
    logarithm of the double nearest to x.  It is one of the functions that
    meet [log_accurate]. *)
Definition ideal_log (x : Z) : float :=
  Fin (Z.log2 (nearest (x * one) 1 / one) / 10 * one).

(** A logarithm that is one last place above the exact one at 2^50 - 1,
    where it gives 5.0 as CPython on Linux does, and [ideal_log]
    elsewhere. *)
Definition rounded_log (x : Z) : float :=
  if x =? 2 ^ 50 - 1 then Fin (5 * one) else ideal_log x.

(** Values with at most 53 significant bits. *)
Definition representable (a : Z) : Prop :=
  exists c j, 0 <= c < 2 ^ 53 /\ 0 <= j /\ a = c * 2 ^ j.

End PyFloat.

(** ** SizeUnit codec: [bytes_to_size_str], [size_str_to_bytes] *)

Module SizeCodec.
Import Py PyFloat Text.

(** *** Characters and digit strings *)

Fixpoint mem_ascii (c : ascii) (s : string) : bool :=
  match s with
  | EmptyString => false
  | String d s' => Ascii.eqb c d || mem_ascii c s'
  end.

Definition ascii_upper (c : ascii) : ascii :=
  if mem_ascii c "abcdefghijklmnopqrstuvwxyz"
  then ascii_of_N (N_of_ascii c - 32) else c.

(** [s.upper()], on the strings it is applied to here: one ASCII letter,
    or the Kelvin sign, which is its own upper case. *)
Fixpoint upper (s : string) : string :=
  match s with
  | EmptyString => EmptyString
  | String c s' => String (ascii_upper c) (upper s')
  end.

(** The number that the digits [cs] continue from [acc]; [None] when a
    character is no decimal digit. *)
Fixpoint digits_value (acc : Z) (cs : list string) : option Z :=
  match cs with
  | [] => Some acc
  | g :: cs' =>
      match decimal_value g with
      | Some v => digits_value (10 * acc + v) cs'
      | None => None
      end
  end.

(** The number that a string of decimal digits denotes. *)
Definition int_of_digits (s : string) : Z :=
  match digits_value 0 (chars s) with
  | Some n => n
  | None => 0
  end.

(** The most digits [int] converts ([sys.get_int_max_str_digits()], as
    CPython 3.11 sets it). *)
Definition max_str_digits : Z := 4300.

(** [int(s)] for a [str] of decimal digits, the only ones line 37 applies
    it to: the number, or [ValueError] for more digits than the limit
    (leading zeros count).  Signs, blanks and underscores, which [int]
    also reads, do not reach it here and are refused. *)
Definition int_of_str (s : string) : result Z :=
  if max_str_digits <? len (chars s) then Raise ValueError
  else
    match chars s, digits_value 0 (chars s) with
    | _ :: _, Some n => Ok n
    | _, _ => Raise ValueError
    end.

(** [str(n)] for [0 <= n]. *)
Definition str_of_int (n : Z) : string := NilZero.string_of_uint (N.to_uint (Z.to_N n)).

(** *** Formatting *)

(** [f"{x:.02f}"]: the decimal closest to the exact value of the double,
    ties to even, with two digits after the point. *)
Definition format_02f (x : float) : string :=
  match x with
  | Fin u =>
      let h := round_half_even (100 * Z.abs u) one in
      let frac := h mod 100 in
      let sign := if u <? 0 then "-"%string else ""%string in
      sign +:+ str_of_int (h / 100) +:+ "." +:+ str_of_int (frac / 10)
        +:+ str_of_int (frac mod 10)
  | Inf false => "inf"
  | Inf true => "-inf"
  end.

(** [t[i]] on a tuple, with Python's negative indices. *)
Definition tuple_get {A : Type} (t : list A) (i : Z) : result A :=
  let j := if i <? 0 then i + len t else i in
  if j <? 0 then Raise IndexError
  else match t !! Z.to_nat j with
       | Some a => Ok a
       | None => Raise IndexError
       end.

(** Lines 24 to 27 of [bytes_to_size_str], once [i] is known. *)
Definition render (bytes i : Z) : result string :=
  let units := ["B"; "KB"; "MB"; "GB"; "TB"; "PB"; "EB"; "ZB"; "YB"]%string in
  bind (pow_1024 i) (fun p =>
  bind (float_of_int bytes) (fun b =>
  bind (div b p) (fun q =>
  bind (tuple_get units i) (fun u =>
  Ok (format_02f q +:+ " " +:+ u))))).

(** [math_log] is the platform's [math.log(x, 1024)]. *)
Definition bytes_to_size_str (math_log : Z -> float) (bytes : Z) : result string :=
  if bytes =? 0 then Ok "0B"
  else bind (floor_log_1024 math_log bytes) (render bytes).

(** *** Parsing *)

(** [ ?]: one optional space. *)
Definition skip_space (s : string) : string :=
  match s with
  | String " " s' => s'
  | _ => s
  end.

(** U+212A, the Kelvin sign: with [re.IGNORECASE] the class [[KMGTPEZY]]
    takes it beside the sixteen letters. *)
Definition kelvin_sign : string :=
  String "226" (String "132" (String "170" EmptyString)).

(** U+0130, the dotted capital I, and U+0131, the dotless small i: with
    [re.IGNORECASE] the letter i of the pattern takes them beside i and
    I. *)
Definition dotted_capital_i : string := String "196" (String "176" EmptyString).
Definition dotless_small_i : string := String "196" (String "177" EmptyString).

(** [(?P<unit>[KMGTPEZY]?)] under [re.IGNORECASE]. *)
Definition take_unit (s : string) : string * string :=
  match s with
  | String c s' =>
      if mem_ascii (ascii_upper c) "KMGTPEZY" then (String c EmptyString, s')
      else
        match strip_prefix kelvin_sign s with
        | Some r => (kelvin_sign, r)
        | None => (EmptyString, s)
        end
  | EmptyString => (EmptyString, EmptyString)
  end.

(** The letter i of the pattern under [re.IGNORECASE]: what follows it. *)
Definition take_i (s : string) : option string :=
  match s with
  | String c s' =>
      if Ascii.eqb (ascii_upper c) "I" then Some s'
      else
        match strip_prefix dotted_capital_i s with
        | Some r => Some r
        | None => strip_prefix dotless_small_i s
        end
  | EmptyString => None
  end.

(** The letter B of the pattern under [re.IGNORECASE]. *)
Definition take_b (s : string) : option string :=
  match s with
  | String c s' => if Ascii.eqb (ascii_upper c) "B" then Some s' else None
  | EmptyString => None
  end.

(** [(iB|B)?] under [re.IGNORECASE]. *)
Definition skip_suffix (s : string) : string :=
  match take_i s with
  | Some r =>
      match take_b r with
      | Some r' => r'
      | None => s
      end
  | None =>
      match take_b s with
      | Some r => r
      | None => s
      end
  end.

(** [$] without [re.MULTILINE]: the end, or just before a final newline. *)
Definition at_end (s : string) : bool :=
  match s with
  | EmptyString => true
  | String "010" EmptyString => true
  | _ => false
  end.

(** [re.search(r'^(?P<num>\d+) ?((?P<unit>[KMGTPEZY]?)(iB|B)?)$', s,
    re.IGNORECASE)]: the groups [num] and [unit] of the match.  [\d] is any
    decimal digit of Unicode.  Every part of the pattern has one way to
    match at most, so the first choice of each is the regex engine's. *)
Definition re_search (s : string) : option (string * string) :=
  let (ds, rest) := span_decimal (chars s) in
  match ds with
  | [] => None
  | _ =>
      let (unit, r3) := take_unit (skip_space (glue rest)) in
      if at_end (skip_suffix r3) then Some (glue ds, unit) else None
  end.

(** [units.index(unit)]. *)
Fixpoint tuple_index (units : list string) (unit : string) : result Z :=
  match units with
  | [] => Raise ValueError
  | u :: units' =>
      if String.eqb u unit then Ok 0
      else bind (tuple_index units' unit) (fun i => Ok (i + 1))
  end.

Inductive size_arg :=
| Int (n : Z)
| Str (s : string).

Definition size_str_to_bytes (size_str : size_arg) : result Z :=
  match size_str with
  | Int n => Ok n
  | Str s =>
      match re_search s with
      | None => Raise AssertionError
      | Some (num, unit) =>
          let units := ["B"; "K"; "M"; "G"; "T"; "P"; "E"; "Z"; "Y"]%string in
          let unit := upper (match unit with EmptyString => "B" | _ => unit end) in
          bind (tuple_index units unit) (fun i =>
          bind (pow_1024 i) (fun p =>
          bind (int_of_str num) (fun n =>
          bind (float_of_int n) (fun x =>
          int_of_float (mul p x)))))
      end
  end.

(** The pattern as the specification words it, [<digits><optional unit
    letter><optional "iB"/"B" suffix>], case-insensitive. *)
Definition spec_size_pattern (s : string) : bool :=
  let (ds, rest) := span_decimal (chars s) in
  match ds with
  | [] => false
  | _ =>
      match skip_suffix (snd (take_unit (glue rest))) with
      | EmptyString => true
      | _ => false
      end
  end.

(** *** The pattern of [size_str_to_bytes], in words

    A string matches when it is a number, an optional space, an optional
    unit letter, an optional suffix and an optional final newline, in this
    order; [size_pattern s num unit] names the number and the unit.  The
    number is made of decimal digits of any script; the unit is one of
    the letters K, M, G, T, P, E, Z, Y in either case or the Kelvin sign;
    the suffix is a letter B in either case, after a letter i, if any, in
    either case, dotted or dotless. *)

Definition is_unit_letter (c : ascii) : bool :=
  mem_ascii (ascii_upper c) "KMGTPEZY".

Definition letters_i : list string :=
  ["i"; "I"; dotted_capital_i; dotless_small_i]%string.

Definition letters_b : list string := ["B"; "b"]%string.

Inductive size_pattern : string -> string -> string -> Prop :=
| size_pattern_intro (num sp unit suf nl : string) :
    num <> EmptyString ->
    decimal_only num = true ->
    sp = EmptyString \/ sp = " "%string ->
    unit = EmptyString
      \/ unit = kelvin_sign
      \/ (exists c, unit = String c EmptyString /\ is_unit_letter c = true) ->
    suf = EmptyString
      \/ In suf letters_b
      \/ (exists i b, In i letters_i /\ In b letters_b /\ suf = i +:+ b) ->
    nl = EmptyString \/ nl = String "010" EmptyString ->
    size_pattern (num +:+ sp +:+ unit +:+ suf +:+ nl) num unit.

(** The power of 1024 a unit letter stands for; none means bytes. *)
Definition unit_exponent (unit : string) : Z :=
  match upper unit with
  | "K" => 1
  | "M" => 2
  | "G" => 3
  | "T" => 4
  | "P" => 5
  | "E" => 6
  | "Z" => 7
  | "Y" => 8
  | _ => 0
  end%string.

End SizeCodec.

(** ** UploadCoordinator: [GFile.upload], [GFile.upload_chunk] *)

Module Upload.
Import Py PyFloat ChunkSource.

(** *** Chunk partitioning *)

(** Line 170: [chunks = math.ceil(size / self.chunk_size)], a float
    division. *)
Definition chunk_count (size chunk_size : Z) : result Z :=
  bind (int_truediv size chunk_size) ceil.

(** Lines 102 to 104 of [upload_chunk]: the bytes copied into the fresh
    [io.BytesIO], as the writes made to it. *)
Definition read_chunk (uri : bytes) (chunk_size chunk_copy_size chunk_no : Z)
  : option (list bytes * result unit) :=
  split_file uri [] (Some chunk_size) (chunk_no * chunk_size) chunk_copy_size.

(** The payload of chunk [chunk_no]: what the [io.BytesIO] holds after
    line 103, when [split_file] returns. *)
Definition chunk_payload (uri : bytes) (chunk_size chunk_copy_size chunk_no : Z)
  : option bytes :=
  match read_chunk uri chunk_size chunk_copy_size chunk_no with
  | Some (out, Ok _) => Some (concat out)
  | _ => None
  end.

(** The chunk numbers [upload] passes to [upload_chunk]: 0 at line 181 and
    [range(1, chunks)] at line 185. *)
Definition chunk_numbers (chunks : Z) : list Z :=
  0 :: map Z.of_nat (seq 1 (Z.to_nat chunks - 1)).

(** *** Responses *)

(** The values found in a response object. *)
Inductive json :=
| JNull
| JBool (b : bool)
| JNum (n : Z)
| JStr (s : string).

(** Python truth of a JSON value. *)
Definition truthy (v : json) : bool :=
  match v with
  | JNull => false
  | JBool b => b
  | JNum n => negb (n =? 0)
  | JStr s => negb (String.eqb s "")
  end.

(** [resp.json()], a dictionary. *)
Abbreviation response := (gmap string json).

(** Line 157: ['url' in resp_data]. *)
Definition has_url (r : response) : bool :=
  match r !! "url"%string with
  | Some _ => true
  | None => false
  end.

(** Line 159: ['status' not in resp_data or resp_data['status']]. *)
Definition reports_failure (r : response) : bool :=
  match r !! "status"%string with
  | None => true
  | Some v => truthy v
  end.

(** *** The session as a transition system

    [upload] runs chunk 0 itself and hands the others to a thread pool, so
    a session is a set of [upload_chunk] calls that interleave with each
    other and with the loop of [upload].  The shared attributes of [self]
    are [current_chunk], [data] and [failed]. *)

Record shared := {
  current_chunk : Z;
  data : option response;
  failed : bool
}.

(** Where one [upload_chunk] call stands. *)
Inductive phase :=
| Queued                          (* not started: pending future *)
| Cancelled                       (* [future.cancel()] took effect *)
| Sending (offset : Z)            (* in [gen()], next slice at [offset] *)
| Posting                         (* [gen()] ended, waiting for the response *)
| Responded (r : response)        (* line 154 done *)
| Loaded (r : response) (tmp : Z) (* line 155, [current_chunk] read *)
| Stored (r : response)           (* line 155, [current_chunk] written *)
| Recorded (r : response)         (* lines 157-158 done *)
| Finished (r : response)         (* lines 159-161 done, call returned *)
| Crashed.                        (* [resp.json()] raised, call ended *)

Inductive reason := Failure | Interrupt.

(** Where [upload] stands. *)
Inductive coord :=
| First                               (* line 181 *)
| Aborted (e : exn)                   (* exception out of lines 181-185 *)
| Pool (seen : list nat)              (* line 187, futures seen so far *)
| Cancelling (why : reason) (next : nat)  (* lines 190-191, 195-196 *)
| ReturnedNone (why : reason)         (* lines 192, 197 *)
| ReturnedSelf                        (* line 210 *)
| RaisedTypeError.                    (* line 208 on [self.data = None] *)

Record session := {
  vars : shared;
  futures : list phase;   (* index 0: the call of line 181 *)
  coordinator : coord
}.

(** What happens in a step, and to which call or future. *)
Inductive event :=
| Start (chunk_no : nat)    (* [upload_chunk] is entered *)
| Run (chunk_no : nat)      (* [upload_chunk] moves on *)
| FirstDone                 (* line 181 returns, lines 184-185 *)
| FirstRaised               (* line 181 raises *)
| Observe (j : nat)         (* line 187 yields future [j], line 188 *)
| KeyboardInterrupt         (* line 193 *)
| Cancel (j : nat)          (* [future.cancel()] on future [j] *)
| Leave                     (* lines 192, 197, end of the [with] block *)
| Finish.                   (* [as_completed] is exhausted, lines 204-210 *)

Definition update_tick : Z := 1024 * 128.

(** The call has incremented [current_chunk]. *)
Definition advanced (ph : phase) : bool :=
  match ph with
  | Stored _ | Recorded _ | Finished _ => true
  | _ => false
  end.

(** The call is past the gate of [gen()] and before its increment. *)
Definition in_gate (ph : phase) : bool :=
  match ph with
  | Posting | Responded _ | Loaded _ _ => true
  | _ => false
  end.

(** The call occupies a pool thread. *)
Definition running (ph : phase) : bool :=
  match ph with
  | Queued | Cancelled | Finished _ | Crashed => false
  | _ => true
  end.

(** The future is done, as [as_completed] sees it. *)
Definition completed (ph : phase) : bool :=
  match ph with
  | Finished _ | Crashed => true
  | _ => false
  end.

Definition settled (ph : phase) : bool :=
  match ph with
  | Cancelled | Finished _ | Crashed => true
  | _ => false
  end.

Definition busy (fs : list phase) : Z :=
  len (filter (fun ph => running ph = true) (drop 1 fs)).

(** The pool exists and takes work. *)
Definition pool_open (c : coord) : Prop :=
  match c with
  | Pool _ | Cancelling _ _ => True
  | _ => False
  end.

(** Lines 208 to 210. *)
Definition final_check (d : option response) : coord :=
  match d with
  | None => RaisedTypeError
  | Some _ => ReturnedSelf
  end.

Definition set_coord (c : coord) (s : session) : session :=
  {| vars := vars s; futures := futures s; coordinator := c |}.

Definition set_future (k : nat) (ph : phase) (s : session) : session :=
  {| vars := vars s; futures := <[k := ph]> (futures s);
     coordinator := coordinator s |}.

(** The call holds the response that [self.data] is. *)
Definition holds (d : response) (ph : phase) : Prop :=
  ph = Recorded d \/ ph = Finished d.

(** The part of the invariant that speaks of the calls and the shared
    attributes only. *)
Record calls_ok (sh : shared) (fs : list phase) : Prop := {
  ok_advanced : forall k ph, fs !! k = Some ph ->
    (advanced ph = true <-> Z.of_nat k < current_chunk sh);
  ok_gate : forall k ph, fs !! k = Some ph -> in_gate ph = true ->
    current_chunk sh = Z.of_nat k;
  ok_loaded : forall k r tmp, fs !! k = Some (Loaded r tmp) ->
    tmp = current_chunk sh;
  ok_failed : forall k r, fs !! k = Some (Finished r) ->
    reports_failure r = true -> failed sh = true;
  ok_data : forall d, data sh = Some d ->
    has_url d = true /\ exists k ph, fs !! k = Some ph /\ holds d ph;
  ok_offset : forall k offset, fs !! k = Some (Sending offset) ->
    exists n, 0 <= n /\ offset = n * update_tick
}.

(** The invariant of a session. *)
Record session_ok (s : session) : Prop := {
  s_calls : calls_ok (vars s) (futures s);
  s_first : forall k ph, (1 <= k)%nat -> futures s !! k = Some ph -> ph <> Queued ->
    exists r, futures s !! 0%nat = Some (Finished r);
  s_open : pool_open (coordinator s) ->
    exists r, futures s !! 0%nat = Some (Finished r);
  s_seen : forall seen j, coordinator s = Pool seen -> j ∈ seen ->
    (1 <= j)%nat /\ exists ph, futures s !! j = Some ph /\ completed ph = true;
  s_cancelling : forall why j, coordinator s = Cancelling why j ->
    (1 <= j)%nat /\ forall i, (1 <= i < j)%nat -> futures s !! i <> Some Queued;
  s_returned : forall why k ph, coordinator s = ReturnedNone why ->
    futures s !! k = Some ph -> settled ph = true
}.

Section Session.

(** [self.thread_num], and the length of [form_data_binary] for each
    chunk. *)
Variable thread_num : Z.
Variable body_size : nat -> Z.

(** One step of [upload_chunk(chunk_no, chunks)] once started.  The rules
    follow the body: [gen()] yields a slice while [offset < size] (lines
    131-137), then sleeps while [chunk_no != self.current_chunk] (139-140)
    and ends when they are equal (141-143); an exception in the POST
    starts it again with a new generator (144-152); the response is decoded
    (154), which may raise; [self.current_chunk += 1] is a read and a write
    (155); then [data] (157-158) and [failed] (159-161) are set. *)
Inductive upload_chunk_step (chunk_no : nat) : shared -> phase -> shared -> phase -> Prop :=
| gen_yield sh offset :
    offset < body_size chunk_no ->
    upload_chunk_step chunk_no sh (Sending offset) sh (Sending (offset + update_tick))
| gen_sleep sh offset :
    ~ offset < body_size chunk_no ->
    Z.of_nat chunk_no <> current_chunk sh ->
    upload_chunk_step chunk_no sh (Sending offset) sh (Sending offset)
| gen_break sh offset :
    ~ offset < body_size chunk_no ->
    Z.of_nat chunk_no = current_chunk sh ->
    upload_chunk_step chunk_no sh (Sending offset) sh Posting
| retry_sending sh offset :
    upload_chunk_step chunk_no sh (Sending offset) sh (Sending 0)
| retry_posting sh :
    upload_chunk_step chunk_no sh Posting sh (Sending 0)
| post_returns sh r :
    upload_chunk_step chunk_no sh Posting sh (Responded r)
| json_raises sh :
    upload_chunk_step chunk_no sh Posting sh Crashed
| cursor_load sh r :
    upload_chunk_step chunk_no sh (Responded r) sh (Loaded r (current_chunk sh))
| cursor_store sh r tmp :
    upload_chunk_step chunk_no sh (Loaded r tmp)
      {| current_chunk := tmp + 1; data := data sh; failed := failed sh |}
      (Stored r)
| record_url sh r :
    upload_chunk_step chunk_no sh (Stored r)
      {| current_chunk := current_chunk sh;
         data := if has_url r then Some r else data sh;
         failed := failed sh |}
      (Recorded r)
| record_status sh r :
    upload_chunk_step chunk_no sh (Recorded r)
      {| current_chunk := current_chunk sh;
         data := data sh;
         failed := if reports_failure r then true else failed sh |}
      (Finished r).

(** What a step does to one call and to the shared attributes. *)
Inductive change (k : nat) : shared -> phase -> shared -> phase -> Prop :=
| change_start sh : change k sh Queued sh (Sending 0)
| change_cancel sh : change k sh Queued sh Cancelled
| change_run sh ph sh' ph' : upload_chunk_step k sh ph sh' ph' -> change k sh ph sh' ph'.

(** One step of the session.  The call for chunk 0 runs while [upload] is
    at line 181; the pool starts pending calls in the order of submission
    while a thread is free; the loop of line 187 takes completed futures in
    any order and reads the flag after each; [cancel()] is called on the
    futures one by one and only removes a pending one; the [with] block is
    left once no call is pending or running. *)
Inductive upload_step : session -> event -> session -> Prop :=
| first_start s :
    coordinator s = First ->
    futures s !! 0%nat = Some Queued ->
    upload_step s (Start 0) (set_future 0 (Sending 0) s)
| pool_start s k :
    (1 <= k)%nat ->
    pool_open (coordinator s) ->
    futures s !! k = Some Queued ->
    busy (futures s) < thread_num ->
    (forall j, (1 <= j < k)%nat -> futures s !! j <> Some Queued) ->
    upload_step s (Start k) (set_future k (Sending 0) s)
| worker_run s k ph sh' ph' :
    futures s !! k = Some ph ->
    upload_chunk_step k (vars s) ph sh' ph' ->
    upload_step s (Run k)
      {| vars := sh'; futures := <[k := ph']> (futures s);
         coordinator := coordinator s |}
| first_done s r :
    coordinator s = First ->
    futures s !! 0%nat = Some (Finished r) ->
    upload_step s FirstDone
      (set_coord (if 0 <? thread_num then Pool [] else Aborted ValueError) s)
| first_crashed s :
    coordinator s = First ->
    futures s !! 0%nat = Some Crashed ->
    upload_step s FirstRaised (set_coord (Aborted ValueError) s)
| observe s seen j ph :
    coordinator s = Pool seen ->
    (1 <= j)%nat ->
    j ∉ seen ->
    futures s !! j = Some ph ->
    completed ph = true ->
    upload_step s (Observe j)
      (set_coord (if failed (vars s) then Cancelling Failure 1
                  else Pool (j :: seen)) s)
| interrupt s seen :
    coordinator s = Pool seen ->
    upload_step s KeyboardInterrupt (set_coord (Cancelling Interrupt 1) s)
| cancel s why j ph :
    coordinator s = Cancelling why j ->
    futures s !! j = Some ph ->
    upload_step s (Cancel j)
      {| vars := vars s;
         futures := match ph with
                    | Queued => <[j := Cancelled]> (futures s)
                    | _ => futures s
                    end;
         coordinator := Cancelling why (S j) |}
| leave s why j :
    coordinator s = Cancelling why j ->
    (length (futures s) <= j)%nat ->
    (forall i ph, futures s !! i = Some ph -> settled ph = true) ->
    upload_step s Leave (set_coord (ReturnedNone why) s)
| finish s seen :
    coordinator s = Pool seen ->
    (forall j, (1 <= j < length (futures s))%nat -> j ∈ seen) ->
    upload_step s Finish (set_coord (final_check (data (vars s))) s).

(** A session on a fresh [GFile]: [__init__] left [current_chunk = 0] and
    [data = None], line 167 sets [failed = False]; there is a call for
    chunk 0 and one for each of [range(1, chunks)]. *)
Definition init (chunks : Z) : session :=
  {| vars := {| current_chunk := 0; data := None; failed := false |};
     futures := replicate (Z.to_nat (Z.max 1 chunks)) Queued;
     coordinator := First |}.

Inductive reachable (chunks : Z) : session -> Prop :=
| reach_init : reachable chunks (init chunks)
| reach_step s e s' : reachable chunks s -> upload_step s e s' -> reachable chunks s'.

End Session.

(** *** A session of one chunk that the server refuses

    Four threads, a body of 300 bytes, and the response [{"status": 1}]. *)

Definition refusal : response := {[ "status"%string := JNum 1 ]}.

Definition size_300 : nat -> Z := fun _ => 300.

Definition lone (cur : Z) (d : option response) (f : bool) (ph : phase)
  (c : coord) : session :=
  {| vars := {| current_chunk := cur; data := d; failed := f |};
     futures := [ph];
     coordinator := c |}.

(** *** A session of two chunks, the first refused, the second accepted *)

Definition accepted : response :=
  {[ "status"%string := JNum 0;
     "url"%string := JStr "https://12.gigafile.nu/abc-123" ]}.

Definition duo (cur : Z) (d : option response) (f : bool) (ph0 ph1 : phase)
  (c : coord) : session :=
  {| vars := {| current_chunk := cur; data := d; failed := f |};
     futures := [ph0; ph1];
     coordinator := c |}.

(** *** A session of three chunks *)

Definition trio (cur : Z) (d : option response) (f : bool) (ph0 ph1 ph2 : phase)
  (c : coord) : session :=
  {| vars := {| current_chunk := cur; data := d; failed := f |};
     futures := [ph0; ph1; ph2];
     coordinator := c |}.

(** *** What the invariants of a session speak of *)

(** What a call adds to the number of pool threads in use. *)
Definition weight (ph : phase) : Z := if running ph then 1 else 0.

(** [upload] is past its loop, at lines 204 to 210. *)
Definition past_loop (c : coord) : Prop := c = ReturnedSelf \/ c = RaisedTypeError.

(** *** The producer [gen()] of [upload_chunk] *)

(** [b[lo:hi]] for [0 <= lo <= hi]. *)
Definition slice (b : bytes) (lo hi : Z) : bytes :=
  take (Z.to_nat (hi - lo)) (drop (Z.to_nat lo) b).

(** Lines 129 to 137: what [gen()] yields from [offset] on, each slice
    with the amount that line 135 passes to [bar.update]; after the last
    one the producer waits for its turn (lines 139 to 143, the rules
    [gen_sleep] and [gen_break] of the session).  [None] means the fuel was
    too small. *)
Fixpoint gen_yields (fuel : nat) (form_data_binary : bytes) (offset : Z)
  : option (list (bytes * Z)) :=
  match fuel with
  | O => None
  | S fuel' =>
      let size := len form_data_binary in
      if offset <? size then
        match gen_yields fuel' form_data_binary (offset + update_tick) with
        | Some l =>
            Some ((slice form_data_binary offset (offset + update_tick),
                   Z.min update_tick (size - offset)) :: l)
        | None => None
        end
      else Some []
  end.

(** [gen()], started at line 146 with [offset = 0]. *)
Definition gen (form_data_binary : bytes) : option (list (bytes * Z)) :=
  gen_yields (S (length form_data_binary)) form_data_binary 0.

(** *** The first lines of [GFile.upload] *)

(** Lines 168 to 171: the check that the source file exists, the chunk
    count, and the summary line with its two renderings.  [file_exists] is
    [Path(self.uri).exists()], [math_log] the platform's logarithm that the
    renderings use; the result is [chunks]. *)
Definition upload_prelude (math_log : Z -> float) (file_exists : bool)
  (size chunk_size : Z) : result Z :=
  if negb file_exists then Raise AssertionError
  else
    bind (chunk_count size chunk_size) (fun chunks =>
    bind (SizeCodec.bytes_to_size_str math_log size) (fun _ =>
    bind (SizeCodec.bytes_to_size_str math_log chunk_size) (fun _ =>
    Ok chunks))).

(** *** [GFile.get_download_page] *)

(** Lines 213 to 219.  [st_size] is the size of the source file as
    [f.stat()] gives it at line 217, [None] when the file is gone.  The
    result is [self.data['url']], or [None] from the bare [return]. *)
Definition get_download_page (math_log : Z -> float) (data : option response)
  (st_size : option Z) : result (option json) :=
  match data with
  | None => Ok None
  | Some d =>
      if (size d =? 0)%nat || negb (has_url d) then Ok None
      else
        match st_size with
        | None => Raise OSError
        | Some n =>
            bind (SizeCodec.bytes_to_size_str math_log n)
              (fun _ => Ok (d !! "url"%string))
        end
  end.

End Upload.

(** ** DownloadResolver and DownloadStreamer: [GFile.download] *)

Module Download.
Import Py Text SizeCodec.

(** *** Strings *)

(** The longest prefix of characters of the class [cls], and the rest. *)
Fixpoint span_class (cls : string) (s : string) : string * string :=
  match s with
  | String c s' =>
      if mem_ascii c cls then let (xs, r) := span_class cls s' in (String c xs, r)
      else (EmptyString, s)
  | EmptyString => (EmptyString, EmptyString)
  end.

(** Line 223: [re.search(r'^https?:\/\/\d+?\.gigafile\.nu\/([a-z0-9-]+)$',
    self.uri)], giving group 1.  [\d] is any decimal digit of Unicode; the
    class of the identifier, without [re.IGNORECASE], is ASCII.  The digits
    are followed by a literal point and the identifier by the end, so each
    part matches in one way. *)
Definition match_uri (uri : string) : option string :=
  match strip_prefix "http" uri with
  | None => None
  | Some r0 =>
      let r1 := match r0 with String "s" r => r | _ => r0 end in
      match strip_prefix "://" r1 with
      | None => None
      | Some r2 =>
          match span_decimal (chars r2) with
          | ([], _) => None
          | (_, r3) =>
              match strip_prefix ".gigafile.nu/" (glue r3) with
              | None => None
              | Some r4 =>
                  match span_class "abcdefghijklmnopqrstuvwxyz0123456789-" r4 with
                  | (EmptyString, _) => None
                  | (id, r5) => if at_end r5 then Some id else None
                  end
              end
          end
      end
  end.

(** [s.rsplit('/', 1)[0]]: [s] up to its last slash, all of [s] without
    one. *)
Fixpoint before_last_slash (s : string) : string :=
  match s with
  | EmptyString => EmptyString
  | String c s' =>
      if mem_ascii "/" s' then String c (before_last_slash s')
      else if Ascii.eqb c "/" then EmptyString
      else s
  end.

(** The characters of the class of line 249: the double quote (code 34),
    backslash, slash, colon, star, question mark, angle brackets, bar. *)
Definition unsafe_chars : string := String "034" "\/:*?<>|".

(** Line 249: [re.sub] puts an underscore for each of them. *)
Fixpoint sanitize (s : string) : string :=
  match s with
  | EmptyString => EmptyString
  | String c s' => String (if mem_ascii c unsafe_chars then "_"%char else c) (sanitize s')
  end.

(** [s.split(' ')]. *)
Fixpoint split_spaces (s : string) : list string :=
  match s with
  | EmptyString => [EmptyString]
  | String c s' =>
      match split_spaces s' with
      | [] => [String c EmptyString]
      | w :: ws => if Ascii.eqb c " " then EmptyString :: w :: ws
                   else String c w :: ws
      end
  end.

(** ["; ".join(l)]. *)
Fixpoint join_cookies (l : list string) : string :=
  match l with
  | [] => EmptyString
  | [x] => x
  | x :: l' => x +:+ "; " +:+ join_cookies l'
  end.

(** Truth of an optional string argument: [None] and [""] are false. *)
Definition given (s : option string) : bool :=
  match s with
  | None | Some EmptyString => false
  | Some _ => true
  end.

(** *** The world *)

(** The attributes of [self] that [download] reads. *)
Record gfile := {
  uri : string;
  password : option string;
  aria2 : option string
}.

(** The landing page, as what each extraction of lines 230 to 239 gives:
    [None] where the expression raises (a selector that finds nothing, a
    pattern that does not match). *)
Record landing := {
  is_matomete : bool;               (* line 230 *)
  matomete_name : option string;    (* lines 232-233 *)
  matomete_id : option string;      (* line 234 *)
  matomete_size : option string;    (* line 235 *)
  dl_size : option string;          (* line 238 *)
  dl_name : option string           (* line 239 *)
}.

(** The [Content-Length] header of a response, as line 266 reads it:
    absent ([KeyError]), not the text of an integer ([ValueError]), or an
    integer. *)
Inductive header :=
| Absent
| Malformed
| Length (n : Z).

(** The download request of line 264 and its answer: whether
    [session.get] returns a response at all, whether the status is below
    400, the [Content-Length] header, the chunks that the loop of lines 271
    and 272 gets from [iter_content] and writes, and the exception that
    ends that loop early, if any ([iter_content] raising on a lost
    connection or, with urllib3 2, on a body shorter than announced;
    [write] raising on a full disk). *)
Record transfer := {
  connected : bool;
  status_ok : bool;
  content_length : header;
  body : list bytes;
  broken : option exn
}.

(** The machine that the call runs on: its files, and what the operating
    system refuses, each with the exception raised: [open(name, 'wb')], as
    for a missing directory; [rename(src, dst)], as for a destination that
    is a directory or, on Windows, that exists; starting a command, as for
    a program that is not installed. *)
Record machine := {
  contents : gmap string bytes;
  open_error : string -> option exn;
  rename_error : string -> string -> option exn;
  run_error : list string -> option exn
}.

(** [open(name, 'wb')], [write] and [close]: the file holds [b]. *)
Definition store (name : string) (b : bytes) (fs : machine) : machine :=
  {| contents := <[name := b]> (contents fs);
     open_error := open_error fs;
     rename_error := rename_error fs;
     run_error := run_error fs |}.

(** A successful [rename(src, dst)] of a file that holds [b]: the
    destination is replaced. *)
Definition move (src dst : string) (b : bytes) (fs : machine) : machine :=
  {| contents := <[dst := b]> (delete src (contents fs));
     open_error := open_error fs;
     rename_error := rename_error fs;
     run_error := run_error fs |}.

(** What [rename(src, dst)] raises, if anything: no system renames to the
    empty name ([FileNotFoundError], an [OSError]). *)
Definition rename_refused (fs : machine) (src dst : string) : option exn :=
  match dst with
  | EmptyString => Some OSError
  | _ => rename_error fs src dst
  end.

(** An empty directory on a machine that refuses nothing. *)
Definition empty_disk : machine :=
  {| contents := ∅;
     open_error := fun _ => None;
     rename_error := fun _ _ => None;
     run_error := fun _ => None |}.

(** The local variables that the [try] block binds; [None] is unbound. *)
Record locals := {
  web_name : option string;
  file_id : option string;
  size_str : option string
}.

Inductive message :=
| InvalidURL                                   (* line 225 *)
| MatometeMode                                 (* line 231 *)
| Info (name size id : string)                 (* line 241 *)
| ParseFailed (uri : string)                   (* line 243 *)
| ExceptionText                                (* line 244 *)
| PleaseReport                                 (* line 245 *)
| SizeCheck (expected actual : Z)              (* line 277 *)
| Succeeded                                    (* line 279 *)
| Corrupt (temp : string).                     (* line 282 *)

(** What a call leaves behind: its result, what it printed, the machine
    with its files, and the command it ran, if any. *)
Record outcome := {
  returned : result (option string);
  printed : list message;
  files : machine;
  spawned : option (list string)
}.

Definition report (uri : string) : list message :=
  [ParseFailed uri; ExceptionText; PleaseReport].

(** The page lacks something the branch taken looks for. *)
Definition incomplete (p : landing) : Prop :=
  if is_matomete p
  then matomete_name p = None \/ matomete_id p = None \/ matomete_size p = None
  else dl_size p = None \/ dl_name p = None.

(** *** Lines 228 to 245: the [try] block and its handler

    The block never lets an exception out; it returns the variables bound
    up to the failing line, and what was printed. *)
Definition resolve (uri m1 : string) (p : landing) : locals * list message :=
  if is_matomete p then
    match matomete_name p with
    | None =>
        ({| web_name := None; file_id := None; size_str := None |},
         MatometeMode :: report uri)
    | Some name =>
        match matomete_id p with
        | None =>
            ({| web_name := Some name; file_id := None; size_str := None |},
             MatometeMode :: report uri)
        | Some id =>
            match matomete_size p with
            | None =>
                ({| web_name := Some name; file_id := Some id; size_str := None |},
                 MatometeMode :: report uri)
            | Some size =>
                ({| web_name := Some name; file_id := Some id; size_str := Some size |},
                 [MatometeMode; Info name size id])
            end
        end
    end
  else
    match dl_size p with
    | None =>
        ({| web_name := None; file_id := Some m1; size_str := None |}, report uri)
    | Some size =>
        match dl_name p with
        | None =>
            ({| web_name := None; file_id := Some m1; size_str := Some size |},
             report uri)
        | Some name =>
            ({| web_name := Some name; file_id := Some m1; size_str := Some size |},
             [Info name size m1])
        end
    end.

Definition abort (e : exn) (l : list message) (fs : machine) : outcome :=
  {| returned := Raise e; printed := l; files := fs; spawned := None |}.

(** *** Lines 262 to 283: the direct transfer

    The request (264), the status (265), the header (266), the temporary
    file (270), the copy (271, 272), the size check (276 to 278) and the
    renaming (279, 280); each can end the call with an exception.  When the
    copy is cut short the temporary file is left with what was written;
    when the renaming is refused, success has been printed already and the
    temporary file is left in place. *)
Definition direct (filename : string) (t : transfer) (fs : machine) : outcome :=
  let temp := filename +:+ ".dl" in
  if negb (connected t) then abort RequestException [] fs
  else if negb (status_ok t) then abort HTTPError [] fs
  else
    match content_length t with
    | Absent => abort KeyError [] fs
    | Malformed => abort ValueError [] fs
    | Length filesize =>
        match open_error fs temp with
        | Some e => abort e [] fs
        | None =>
            let fs1 := store temp (concat (body t)) fs in
            match broken t with
            | Some e => abort e [] fs1
            | None =>
                let filesize_downloaded := len (concat (body t)) in
                if filesize =? filesize_downloaded then
                  match rename_refused fs temp filename with
                  | Some e =>
                      abort e [SizeCheck filesize filesize_downloaded; Succeeded] fs1
                  | None =>
                      {| returned := Ok (Some filename);
                         printed := [SizeCheck filesize filesize_downloaded; Succeeded];
                         files := move temp filename (concat (body t)) fs1;
                         spawned := None |}
                  end
                else
                  {| returned := Ok (Some filename);
                     printed := [SizeCheck filesize filesize_downloaded; Corrupt temp];
                     files := fs1;
                     spawned := None |}
            end
        end
    end.

(** *** Lines 255 to 283: the transfer, delegated or direct

    With aria2 options the command is run and the call returns [None]
    whatever the command does; it raises when the command cannot be
    started. *)
Definition fetch (self : gfile) (cookies : list string) (filename download_url : string)
  (t : transfer) (fs : machine) : outcome :=
  match aria2 self with
  | Some (String c args) =>
      let cookie_str := join_cookies cookies in
      let cmd := ["aria2c"; download_url; "--header"; "Cookie: " +:+ cookie_str;
                  "-o"; filename] ++ split_spaces (String c args) in
      match run_error fs cmd with
      | Some e => abort e [] fs
      | None =>
          {| returned := Ok None; printed := []; files := fs; spawned := Some cmd |}
      end
  | _ => direct filename t fs
  end.

Definition prepend (l : list message) (o : outcome) : outcome :=
  {| returned := returned o; printed := l ++ printed o; files := files o;
     spawned := spawned o |}.

(** Lines 251 to 253: the download URL, with the password when there is a
    non-empty one. *)
Definition download_url (self : gfile) (id : string) : string :=
  let url := before_last_slash (uri self) +:+ "/download.php?file=" +:+ id in
  match password self with
  | Some (String c pw) => url +:+ "&dlkey=" +:+ String c pw
  | _ => url
  end.

(** [download(self, filename)].  [page] is the landing page that the GET
    of line 227 returned, [cookies] the session's cookies as name=value
    strings, [t] the answer to the download request. *)
Definition download (self : gfile) (page : landing) (cookies : list string)
  (t : transfer) (fs : machine) (filename : option string) : outcome :=
  match match_uri (uri self) with
  | None =>
      {| returned := Ok None; printed := [InvalidURL]; files := fs; spawned := None |}
  | Some m1 =>
      let (vars, said) := resolve (uri self) m1 page in
      let chosen :=
        if given filename then filename
        else option_map sanitize (web_name vars) in
      match chosen with
      | None => abort UnboundLocalError said fs          (* line 249 *)
      | Some filename =>
          match file_id vars with
          | None => abort UnboundLocalError said fs      (* line 251 *)
          | Some id =>
              prepend said
                (fetch self cookies filename (download_url self id) t fs)
          end
      end
  end.

(** *** A share and two landing pages without a size *)

Definition share : gfile :=
  {| uri := "https://12.gigafile.nu/abc-123"; password := None; aria2 := None |}.

(** A single-file page whose [.dl_size] element is gone; the name is
    there. *)
Definition page_without_size : landing :=
  {| is_matomete := false;
     matomete_name := None; matomete_id := None; matomete_size := None;
     dl_size := None;
     dl_name := Some "report.pdf"%string |}.

(** A bundle page with the same defect. *)
Definition bundle_without_size : landing :=
  {| is_matomete := true;
     matomete_name := Some "report.pdf"%string;
     matomete_id := Some "abc-123"%string;
     matomete_size := None;
     dl_size := None; dl_name := None |}.

(** Three bytes announced and delivered, in two chunks. *)
Definition three_bytes : transfer :=
  {| connected := true; status_ok := true; content_length := Length 3;
     body := [[Byte.x61; Byte.x62]; [Byte.x63]]; broken := None |}.



(** A single-file page whose name element is empty. *)
Definition nameless_page : landing :=
  {| is_matomete := false;
     matomete_name := None; matomete_id := None; matomete_size := None;
     dl_size := Some "3B"%string;
     dl_name := Some EmptyString |}.

(** *** The share URL in words, and the progress bar *)

(** Every character of [s] is of the class [cls]. *)
Fixpoint only_class (cls s : string) : bool :=
  match s with
  | EmptyString => true
  | String c s' => mem_ascii c cls && only_class cls s'
  end.

(** What may follow a run of the class: the end, or a character outside
    the class. *)
Definition class_ends (cls r : string) : Prop :=
  match r with
  | EmptyString => True
  | String c _ => mem_ascii c cls = false
  end.

(** Line 268: the description of the progress bar, [filename] itself or
    [filename[0:11] + '..' + filename[-7:]], in characters. *)
Definition progress_desc (filename : string) : string :=
  if str_len filename <=? 20 then filename
  else str_slice filename 0 11 +:+ ".."
       +:+ str_slice filename (str_len filename - 7) (str_len filename).

End Download.

(** ** The upload server: line 178 of [GFile.upload] *)

Module Server.
Import Py Text SizeCodec Download.

(** The literal text that the pattern starts with, up to and with the
    opening double quote (code 34). *)
Definition server_prefix : string := "var server = " +:+ String "034" EmptyString.

(** What [.+?] takes after its first character, up to the closing quote:
    the shortest run of characters that a double quote follows.  The point
    of the pattern matches no newline. *)
Fixpoint until_quote (s : string) : option string :=
  match s with
  | EmptyString => None
  | String c s' =>
      if Ascii.eqb c "034" then Some EmptyString
      else if Ascii.eqb c "010" then None
      else option_map (String c) (until_quote s')
  end.

(** The pattern tried at the start of [s], giving group 1.  [.+?] takes
    one character at least, whatever it is but a newline. *)
Definition server_here (s : string) : option string :=
  match strip_prefix server_prefix s with
  | Some (String c r) =>
      if Ascii.eqb c "010" then None else option_map (String c) (until_quote r)
  | _ => None
  end.

(** [re.search]: the match at the first position that has one. *)
Fixpoint search_server (text : string) : option string :=
  match server_here text with
  | Some g => Some g
  | None =>
      match text with
      | EmptyString => None
      | String _ text' => search_server text'
      end
  end.

(** Line 178: [re.search(pattern, text)[1]] on the text of the front
    page, the pattern being [server_prefix], the group [(.+?)] and a closing
    double quote; without a match the subscript is applied to [None]. *)
Definition find_server (text : string) : result string :=
  match search_server text with
  | Some g => Ok g
  | None => Raise TypeError
  end.

End Server.

(* ================================================================== *)
(** * Properties *)

(** ** ChunkSource *)

Section ChunkSourceFacts.
Import Py ChunkSource.

Lemma len_nonneg {A : Type} (l : list A) : 0 <= len l.
Proof. unfold len. lia. Qed.

Lemma len_take_le {A : Type} (l : list A) (n : Z) :
  0 <= n <= len l -> len (take (Z.to_nat n) l) = n.
Proof. unfold len. intros H. rewrite length_take. lia. Qed.

Lemma len_drop {A : Type} (l : list A) (n : Z) :
  0 <= n <= len l -> len (drop (Z.to_nat n) l) = len l - n.
Proof. unfold len. intros H. rewrite length_drop. lia. Qed.

Lemma read_prefix (f f' : file) (n : Z) (chunk : bytes) :
  read f n = Ok (chunk, f') ->
  content f' = content f /\ pos f' = pos f + len chunk /\
  exists k, drop (Z.to_nat (pos f)) (content f) = chunk ++ k.
Proof.
  unfold read. destruct (n <? -1); [discriminate|].
  intros [= <- <-]. cbn [content pos]. repeat split.
  destruct (n =? -1).
  - exists []. by rewrite app_nil_r.
  - eexists. symmetry. apply take_drop.
Qed.

(** The loop ends for every input: a read that does not end it moves the
    position forward, and the file is finite. *)
Lemma copy_loop_total (fuel : nat) :
  forall f out size output_size chunk_copy_size,
    0 <= pos f ->
    (length (drop (Z.to_nat (pos f)) (content f)) < fuel)%nat ->
    exists r, copy_loop fuel f out size output_size chunk_copy_size = Some r.
Proof.
  induction fuel as [|fuel IH]; intros f out size osz ccs Hpos Hfuel; [lia|].
  cbn [copy_loop].
  destruct (size =? osz); [eauto|].
  destruct (osz <? size); [eauto|].
  destruct (read f _) as [[chunk f']|e] eqn:Hread; [|eauto].
  apply read_prefix in Hread as (Hc & Hp & k & Hk).
  destruct chunk as [|b chunk]; [eauto|].
  apply IH.
  - pose proof (len_nonneg (b :: chunk)). lia.
  - rewrite Hc, Hp. unfold len.
    replace (Z.to_nat (pos f + Z.of_nat (length (b :: chunk))))
      with (Z.to_nat (pos f) + length (b :: chunk))%nat by lia.
    rewrite <- drop_drop, Hk, drop_app_length.
    rewrite Hk, length_app in Hfuel. cbn [length] in *. lia.
Qed.

Lemma split_file_total input_file out target_size start chunk_copy_size :
  exists r, split_file input_file out target_size start chunk_copy_size = Some r.
Proof.
  unfold split_file, seek. destruct (start <? 0) eqn:Hs; [eauto|].
  apply copy_loop_total; cbn [pos content]; [lia|].
  rewrite length_drop. lia.
Qed.


(** One pass of the loop under the conditions of a well-formed call: the
    bytes still wanted are in the file, so every read is full. *)
Lemma copy_loop_copies (chunk_copy_size output_size : Z) (fuel : nat) :
  0 < chunk_copy_size ->
  forall f out size,
    0 <= pos f -> 0 <= size <= output_size ->
    pos f + (output_size - size) <= len (content f) ->
    output_size - size < Z.of_nat fuel ->
    exists writes,
      copy_loop fuel f out size output_size chunk_copy_size
        = Some (out ++ writes, Ok tt)
      /\ concat writes
         = take (Z.to_nat (output_size - size))
             (drop (Z.to_nat (pos f)) (content f))
      /\ Forall (fun w => 0 < len w <= chunk_copy_size) writes
      /\ (forall i w, writes !! i = Some w -> (S i < length writes)%nat ->
            len w = chunk_copy_size).
Proof.
  intros Hbuf. induction fuel as [|fuel IH]; intros f out size Hpos Hsize Hin Hfuel;
    [lia|].
  cbn [copy_loop].
  destruct (Z.eqb_spec size output_size) as [->|Hne].
  { exists []. rewrite app_nil_r, Z.sub_diag. cbn. repeat split; auto.
    intros i w Hi. by rewrite lookup_nil in Hi. }
  destruct (Z.ltb_spec output_size size) as [?|_]; [lia|].
  set (cur := Z.min chunk_copy_size (output_size - size)).
  assert (Hcur : 0 < cur <= output_size - size) by lia.
  set (rest := drop (Z.to_nat (pos f)) (content f)).
  assert (Hrest : len rest = len (content f) - pos f).
  { apply len_drop. pose proof (len_nonneg (content f)). lia. }
  unfold read. destruct (Z.ltb_spec cur (-1)) as [?|_]; [lia|].
  destruct (Z.eqb_spec cur (-1)) as [?|_]; [lia|].
  fold rest. set (chunk := take (Z.to_nat cur) rest).
  assert (Hchunk : len chunk = cur) by (apply len_take_le; lia).
  destruct (IH {| content := content f; pos := pos f + len chunk |}
              (out ++ [chunk]) (size + len chunk))
    as (ws & Hloop & Hcat & Hall & Hfull); cbn [pos content]; try lia.
  destruct chunk as [|b chunk'] eqn:Echunk; [unfold len in Hchunk; cbn in Hchunk; lia|].
  rewrite <- Echunk in *. clear Echunk.
  cbn [pos content] in Hcat.
  exists (chunk :: ws). rewrite Hloop, <- app_assoc. cbn [app concat].
  repeat split.
  - rewrite Hcat, Hchunk.
    replace (Z.to_nat (pos f + cur)) with (Z.to_nat (pos f) + Z.to_nat cur)%nat by lia.
    rewrite <- drop_drop. fold rest. subst chunk. rewrite take_take_drop.
    f_equal. lia.
  - constructor; [lia|exact Hall].
  - intros [|i] w Hi Hlast; cbn in Hi, Hlast.
    + injection Hi as <-. rewrite Hchunk. subst cur.
      destruct ws as [|w' ws']; [cbn in Hlast; lia|].
      apply Forall_cons in Hall as [Hw' _].
      assert (Hsome : concat (w' :: ws') <> []).
      { cbn. destruct w'; [unfold len in Hw'; cbn in Hw'; lia|discriminate]. }
      rewrite Hcat in Hsome.
      destruct (Z.to_nat (output_size - (size + len chunk))) eqn:E;
        [by rewrite take_0 in Hsome|]. lia.
    + apply (Hfull i w Hi). lia.
Qed.

(** C6. For a source file of size F, an offset 0 <= start <= F, a wanted
    length (a byte count, so not negative) and a positive copy buffer,
    [split_file] returns normally, after writes that put together are the
    min(length, F - start) bytes of the file from offset [start] on; no
    write is empty or larger than the buffer, and all but the last fill the
    buffer. *)
Theorem split_file_copies_range (input_file : bytes) (out : list bytes)
  (target_size start chunk_copy_size : Z) :
  0 <= start <= len input_file ->
  0 <= target_size ->
  0 < chunk_copy_size ->
  exists writes,
    split_file input_file out (Some target_size) start chunk_copy_size
      = Some (out ++ writes, Ok tt)
    /\ concat writes
       = take (Z.to_nat (Z.min target_size (len input_file - start)))
           (drop (Z.to_nat start) input_file)
    /\ len (concat writes) = Z.min target_size (len input_file - start)
    /\ Forall (fun w => 0 < len w <= chunk_copy_size) writes
    /\ (forall i w, writes !! i = Some w -> (S i < length writes)%nat ->
          len w = chunk_copy_size).
Proof.
  intros Hstart Htarget Hbuf. unfold split_file, seek.
  destruct (Z.ltb_spec start 0) as [?|_]; [lia|].
  set (output_size := Z.min target_size (len input_file - start)).
  destruct (copy_loop_copies chunk_copy_size output_size (S (length input_file)) Hbuf
              {| content := input_file; pos := start |} out 0)
    as (ws & Hloop & Hcat & Hall & Hfull); cbn [pos content]; try (unfold len in *; lia).
  rewrite Z.sub_0_r in Hcat. cbn [pos content] in Hcat.
  exists ws. repeat split; auto.
  rewrite Hcat. apply len_take_le.
  rewrite len_drop by lia. lia.
Qed.

(** X2. With [target_size=None], an offset 0 <= start <= F and a positive
    copy buffer, [split_file] returns normally after writes that put
    together are everything from [start] to the end of the file. *)
Lemma split_file_copies_rest (input_file : bytes) (out : list bytes)
  (start chunk_copy_size : Z) :
  0 <= start <= len input_file ->
  0 < chunk_copy_size ->
  exists writes,
    split_file input_file out None start chunk_copy_size = Some (out ++ writes, Ok tt)
    /\ concat writes = drop (Z.to_nat start) input_file.
Proof.
  intros Hstart Hbuf. unfold split_file, seek.
  destruct (Z.ltb_spec start 0) as [?|_]; [lia|].
  destruct (copy_loop_copies chunk_copy_size (len input_file - start)
              (S (length input_file)) Hbuf
              {| content := input_file; pos := start |} out 0)
    as (ws & Hloop & Hcat & _); cbn [pos content]; try (unfold len in *; lia).
  exists ws. split; [exact Hloop|]. cbn [pos content] in Hcat.
  rewrite Hcat, Z.sub_0_r. apply take_ge.
  rewrite length_drop. unfold len. lia.
Qed.

(** A negative [target_size] is refused by the loop's size check. *)
Example split_file_negative_target :
  split_file [Byte.x61; Byte.x62] [] (Some (-1)) 0 4 = Some ([], Raise Exception).
Proof. reflexivity. Qed.

Example split_file_abcde :
  split_file [Byte.x61; Byte.x62; Byte.x63; Byte.x64; Byte.x65] [] (Some 3) 1 2
  = Some ([[Byte.x62; Byte.x63]; [Byte.x64]], Ok tt).
Proof. reflexivity. Qed.

Lemma split_file_copies_range_witness :
  exists writes,
    split_file [Byte.x61; Byte.x62; Byte.x63; Byte.x64; Byte.x65] [] (Some 3) 1 2
      = Some ([] ++ writes, Ok tt)
    /\ concat writes
       = take (Z.to_nat (Z.min 3 (len [Byte.x61; Byte.x62; Byte.x63; Byte.x64; Byte.x65] - 1)))
           (drop (Z.to_nat 1) [Byte.x61; Byte.x62; Byte.x63; Byte.x64; Byte.x65])
    /\ len (concat writes)
       = Z.min 3 (len [Byte.x61; Byte.x62; Byte.x63; Byte.x64; Byte.x65] - 1)
    /\ Forall (fun w => 0 < len w <= 2) writes
    /\ (forall i w, writes !! i = Some w -> (S i < length writes)%nat -> len w = 2).
Proof.
  apply (split_file_copies_range
           [Byte.x61; Byte.x62; Byte.x63; Byte.x64; Byte.x65] [] 3 1 2);
    unfold len; cbn; lia.
Defined.

Lemma split_file_copies_rest_witness :
  exists writes,
    split_file [Byte.x61; Byte.x62; Byte.x63; Byte.x64; Byte.x65] [] None 2 2
      = Some ([] ++ writes, Ok tt)
    /\ concat writes
       = drop (Z.to_nat 2) [Byte.x61; Byte.x62; Byte.x63; Byte.x64; Byte.x65].
Proof.
  apply (split_file_copies_rest
           [Byte.x61; Byte.x62; Byte.x63; Byte.x64; Byte.x65] [] 2 2);
    unfold len; cbn; lia.
Defined.

(** Whatever the arguments, and however the loop ends: what it has written
    is a run of bytes of the file that starts at the position of the first
    read, in writes that are not empty; with a copy buffer that is not
    negative the run is no longer than what was still wanted. *)
Lemma copy_loop_only_copies (fuel : nat) :
  forall f out size output_size chunk_copy_size o r,
    0 <= pos f ->
    copy_loop fuel f out size output_size chunk_copy_size = Some (o, r) ->
    exists writes,
      o = out ++ writes
      /\ Forall (fun w => 0 < len w) writes
      /\ (exists rest, drop (Z.to_nat (pos f)) (content f) = concat writes ++ rest)
      /\ (0 <= chunk_copy_size ->
          len (concat writes) <= Z.max 0 (output_size - size)).
Proof.
  induction fuel as [|fuel IH]; intros f out size osz ccs o r Hpos; [discriminate|].
  cbn [copy_loop].
  assert (Hnone : forall res : result unit, Some (out, res) = Some (o, r) ->
            exists writes,
              o = out ++ writes
              /\ Forall (fun w => 0 < len w) writes
              /\ (exists rest, drop (Z.to_nat (pos f)) (content f) = concat writes ++ rest)
              /\ (0 <= ccs -> len (concat writes) <= Z.max 0 (osz - size))).
  { intros res [= <- <-]. exists []. rewrite app_nil_r. cbn.
    repeat split; [constructor|eauto|unfold len; cbn; lia]. }
  destruct (Z.eqb_spec size osz) as [->|Hne]; [apply Hnone|].
  destruct (Z.ltb_spec osz size) as [Hgt|Hle]; [apply Hnone|].
  destruct (read f _) as [[chunk f']|e] eqn:Hread; [|apply Hnone].
  destruct chunk as [|b chunk]; [apply Hnone|].
  set (c := b :: chunk) in *.
  intros Hloop.
  pose proof Hread as Hlen.
  apply read_prefix in Hread as (Hc & Hp & k & Hk).
  assert (Hc0 : 0 < len c) by (unfold len; cbn; lia).
  apply IH in Hloop as (ws & -> & Hall & (rest & Hrest) & Hbound); [|lia].
  exists (c :: ws). rewrite <- app_assoc. cbn [app concat].
  split; [reflexivity|]. split; [by constructor|]. split.
  - exists rest. rewrite Hk, <- app_assoc. f_equal.
    rewrite Hc, Hp in Hrest. rewrite <- Hrest.
    replace (Z.to_nat (pos f + len c)) with (Z.to_nat (pos f) + length c)%nat
      by (unfold len; lia).
    by rewrite <- drop_drop, Hk, drop_app_length.
  - intros Hccs. specialize (Hbound Hccs).
    assert (len c <= osz - size).
    { unfold read in Hlen.
      destruct (Z.ltb_spec (Z.min ccs (osz - size)) (-1)); [discriminate|].
      destruct (Z.eqb_spec (Z.min ccs (osz - size)) (-1)); [lia|].
      injection Hlen as Hlen _. rewrite <- Hlen. unfold len.
      rewrite length_take. lia. }
    unfold len in *. rewrite length_app. lia.
Qed.

(** X1. Whatever its arguments, [split_file] ends, and all it does to
    [out] is to append, in writes that are not empty, a run of bytes of the
    source file that starts at offset [start]; with a wanted length and a
    copy buffer that is not negative, never more bytes than wanted. *)
Theorem split_file_only_copies (input_file : bytes) (out : list bytes)
  (target_size : option Z) (start chunk_copy_size : Z) :
  exists writes r,
    split_file input_file out target_size start chunk_copy_size = Some (out ++ writes, r)
    /\ Forall (fun w => 0 < len w) writes
    /\ (exists rest, drop (Z.to_nat start) input_file = concat writes ++ rest)
    /\ (forall t, target_size = Some t -> 0 <= chunk_copy_size ->
          len (concat writes) <= Z.max 0 t).
Proof.
  destruct (split_file_total input_file out target_size start chunk_copy_size)
    as [[o r] Hres].
  rewrite Hres. revert Hres. unfold split_file, seek.
  destruct (Z.ltb_spec start 0) as [Hneg|Hpos].
  - intros [= <- <-]. exists [], (Raise OSError). rewrite app_nil_r.
    repeat split; [constructor|by exists (drop (Z.to_nat start) input_file)|].
    intros t _ _. unfold len. cbn. lia.
  - intros Hloop.
    apply copy_loop_only_copies in Hloop as (ws & -> & Hall & Hrest & Hbound);
      [|exact Hpos].
    exists ws, r. split; [reflexivity|]. split; [exact Hall|]. split; [exact Hrest|].
    intros t -> Hccs. specialize (Hbound Hccs). lia.
Qed.

(** X3. An offset past the end of the source file is an error: whatever
    the wanted length and the copy buffer, [split_file] raises the
    [Exception] of line 74 and writes nothing. *)
Theorem split_file_past_end (input_file : bytes) (out : list bytes)
  (target_size : option Z) (start chunk_copy_size : Z) :
  len input_file < start ->
  split_file input_file out target_size start chunk_copy_size
  = Some (out, Raise Exception).
Proof.
  intros Hstart. pose proof (len_nonneg input_file) as Hlen.
  unfold split_file, seek.
  destruct (Z.ltb_spec start 0) as [?|_]; [lia|].
  cbn [copy_loop].
  set (output_size := match target_size with
                      | Some t => Z.min t (len input_file - start)
                      | None => len input_file - start
                      end).
  assert (Hneg : output_size < 0) by (subst output_size; destruct target_size; lia).
  destruct (Z.eqb_spec 0 output_size) as [?|_]; [lia|].
  destruct (Z.ltb_spec output_size 0) as [_|?]; [reflexivity|lia].
Qed.

Lemma split_file_past_end_witness :
  split_file [Byte.x61; Byte.x62] [] (Some 4) 3 2 = Some ([], Raise Exception).
Proof.
  apply (split_file_past_end [Byte.x61; Byte.x62] [] (Some 4) 3 2).
  unfold len. cbn. lia.
Defined.

(** X4. With a copy buffer of 0 bytes nothing is copied and nothing is
    reported: for an offset inside the file and a wanted length that is
    not negative, [split_file] returns normally without a write, because
    the empty read of line 76 ends the loop at line 77. *)
Theorem split_file_zero_buffer (input_file : bytes) (out : list bytes)
  (target_size : option Z) (start : Z) :
  0 <= start <= len input_file ->
  (forall t, target_size = Some t -> 0 <= t) ->
  split_file input_file out target_size start 0 = Some (out, Ok tt).
Proof.
  intros Hstart Htarget. unfold split_file, seek.
  destruct (Z.ltb_spec start 0) as [?|_]; [lia|].
  cbn [copy_loop].
  set (output_size := match target_size with
                      | Some t => Z.min t (len input_file - start)
                      | None => len input_file - start
                      end).
  assert (Hos : 0 <= output_size).
  { subst output_size. destruct target_size as [t|]; [|lia].
    specialize (Htarget t eq_refl). lia. }
  destruct (Z.eqb_spec 0 output_size) as [?|Hne]; [reflexivity|].
  destruct (Z.ltb_spec output_size 0) as [?|_]; [lia|].
  rewrite Z.min_l by lia. unfold read. cbn [Z.ltb Z.eqb Z.compare Z.to_nat take].
  reflexivity.
Qed.

Lemma split_file_zero_buffer_witness :
  split_file [Byte.x61; Byte.x62; Byte.x63] [] (Some 2) 1 0 = Some ([], Ok tt).
Proof.
  apply (split_file_zero_buffer [Byte.x61; Byte.x62; Byte.x63] [] (Some 2) 1).
  - unfold len. cbn. lia.
  - intros t [= <-]. lia.
Defined.

End ChunkSourceFacts.

(** ** Text *)

Section TextFacts.
Import Py Text.

Lemma append_nil (s : string) : "" +:+ s = s.
Proof. reflexivity. Qed.

Lemma append_cons (c : ascii) (s t : string) : String c s +:+ t = String c (s +:+ t).
Proof. reflexivity. Qed.

Lemma append_assoc (s t r : string) : (s +:+ t) +:+ r = s +:+ t +:+ r.
Proof.
  induction s as [|c s IH]; [reflexivity|].
  rewrite !append_cons. by rewrite IH.
Qed.

(** A character starts with the byte that the string starts with. *)
Lemma chars_head (c : ascii) (s : string) :
  exists x l, chars (String c s) = String c x :: l.
Proof.
  cbn [chars]. destruct (starts_continuation s); [|eauto].
  destruct (chars s); eauto.
Qed.

Lemma chars_lead (c : ascii) (s : string) :
  starts_continuation s = false ->
  chars (String c s) = String c EmptyString :: chars s.
Proof. intros H. cbn [chars]. by rewrite H. Qed.

(** The characters of a string, put together again, are the string. *)
Lemma glue_chars (s : string) : glue (chars s) = s.
Proof.
  induction s as [|c s IH]; [reflexivity|]. cbn [chars].
  destruct (starts_continuation s).
  - destruct (chars s) as [|g gs]; cbn [glue] in *.
    + by rewrite <- IH.
    + by rewrite append_cons, IH.
  - cbn [glue]. by rewrite IH.
Qed.

Lemma glue_app (l1 l2 : list string) : glue (l1 ++ l2) = glue l1 +:+ glue l2.
Proof.
  induction l1 as [|g l1 IH]; [reflexivity|].
  cbn [app glue]. by rewrite IH, append_assoc.
Qed.

Lemma starts_continuation_app (a b : string) :
  a <> EmptyString -> starts_continuation (a +:+ b) = starts_continuation a.
Proof. destruct a; [congruence|reflexivity]. Qed.

(** Cutting into characters goes through a concatenation when the second
    part starts a character. *)
Lemma chars_app (a b : string) :
  starts_continuation b = false -> chars (a +:+ b) = chars a ++ chars b.
Proof.
  intros Hb. induction a as [|c a IH]; [reflexivity|].
  rewrite append_cons. cbn [chars]. rewrite IH.
  destruct a as [|d a].
  - rewrite append_nil, Hb. reflexivity.
  - rewrite starts_continuation_app by discriminate.
    destruct (starts_continuation (String d a)); [|reflexivity].
    destruct (chars_head d a) as (x & l & ->). reflexivity.
Qed.

(** A well-formed character is one character, and starts one. *)
Lemma code_point_proper (g : string) (cp : N) :
  code_point g = Some cp ->
  chars g = [g] /\ starts_continuation g = false /\ g <> EmptyString.
Proof.
  assert (Hlead : forall a, (N_of_ascii a <? 128)%N = true
                            \/ (192 <=? N_of_ascii a)%N = true ->
                            is_continuation a = false).
  { intros a Ha. unfold is_continuation.
    destruct (N.leb_spec 128 (N_of_ascii a)), (N.ltb_spec (N_of_ascii a) 192);
      try reflexivity.
    destruct Ha as [Ha|Ha]; [apply N.ltb_lt in Ha|apply N.leb_le in Ha]; lia. }
  assert (Hand : forall p q, p && q = true -> p = true /\ q = true)
    by (intros p q; apply andb_true_iff).
  destruct g as [|a [|b [|c [|d [|e g]]]]]; cbn [code_point]; try discriminate.
  - destruct (N_of_ascii a <? 128)%N eqn:Ha; [|discriminate]. intros _.
    split; [reflexivity|]. split; [|discriminate].
    apply Hlead. by left.
  - destruct (_ && _) eqn:H; [|discriminate]. intros _.
    apply Hand in H as [H Hb]. apply Hand in H as [Ha _].
    split; [cbn; by rewrite Hb|]. split; [|discriminate].
    apply Hlead. right. apply N.leb_le. apply N.leb_le in Ha. lia.
  - destruct (_ && _) eqn:H; [|discriminate]. intros _.
    apply Hand in H as [H Hc]. apply Hand in H as [H Hb]. apply Hand in H as [Ha _].
    split; [cbn; by rewrite Hb, Hc|]. split; [|discriminate].
    apply Hlead. right. apply N.leb_le. apply N.leb_le in Ha. lia.
  - destruct (_ && _) eqn:H; [|discriminate]. intros _.
    apply Hand in H as [H Hd]. apply Hand in H as [H Hc].
    apply Hand in H as [H Hb]. apply Hand in H as [Ha _].
    split; [cbn; by rewrite Hb, Hc, Hd|]. split; [|discriminate].
    apply Hlead. right. apply N.leb_le. apply N.leb_le in Ha. lia.
Qed.

Lemma is_decimal_proper (g : string) :
  is_decimal g = true ->
  chars g = [g] /\ starts_continuation g = false /\ g <> EmptyString.
Proof.
  unfold is_decimal, decimal_value.
  destruct (code_point g) as [cp|] eqn:Hcp; [|discriminate].
  intros _. by apply (code_point_proper g cp).
Qed.

Lemma decimals_start (ds : list string) :
  forallb is_decimal ds = true -> starts_continuation (glue ds) = false.
Proof.
  destruct ds as [|g ds]; [reflexivity|]. cbn [forallb glue].
  intros H. apply andb_true_iff in H as [Hg _].
  destruct (is_decimal_proper g Hg) as (_ & Hs & Hne).
  by rewrite starts_continuation_app.
Qed.

(** Digits put together are cut into the same digits. *)
Lemma chars_glue_decimals (ds : list string) :
  forallb is_decimal ds = true -> chars (glue ds) = ds.
Proof.
  induction ds as [|g ds IH]; [reflexivity|]. cbn [forallb glue].
  intros H. apply andb_true_iff in H as [Hg Hds].
  rewrite chars_app by (by apply decimals_start).
  destruct (is_decimal_proper g Hg) as (-> & _ & _).
  by rewrite IH.
Qed.

Lemma span_decimal_inv (cs ds r : list string) :
  span_decimal cs = (ds, r) ->
  cs = ds ++ r /\ forallb is_decimal ds = true
  /\ match r with [] => True | g :: _ => is_decimal g = false end.
Proof.
  revert ds r. induction cs as [|g cs IH]; intros ds r; cbn [span_decimal].
  - intros [= <- <-]. auto.
  - destruct (is_decimal g) eqn:Hg.
    + destruct (span_decimal cs) as [ds' r'].
      intros [= <- <-]. destruct (IH ds' r' eq_refl) as (-> & Hds & Hr).
      cbn [forallb]. rewrite Hg, Hds. auto.
    + intros [= <- <-]. auto.
Qed.

Lemma span_decimal_app (ds r : list string) :
  forallb is_decimal ds = true ->
  match r with [] => True | g :: _ => is_decimal g = false end ->
  span_decimal (ds ++ r) = (ds, r).
Proof.
  intros Hds Hr. induction ds as [|g ds IH].
  - destruct r as [|g r]; [reflexivity|]. cbn [app span_decimal]. by rewrite Hr.
  - cbn [forallb] in Hds. apply andb_true_iff in Hds as [Hg Hds].
    cbn [app span_decimal]. by rewrite Hg, IH.
Qed.

(** The run of digits that a string starts with: the string is the run
    and the rest, and the run is made of digits. *)
Lemma span_decimal_chars (s : string) (ds r : list string) :
  span_decimal (chars s) = (ds, r) ->
  s = glue ds +:+ glue r /\ decimal_only (glue ds) = true
  /\ (ds <> [] -> glue ds <> EmptyString).
Proof.
  intros H. apply span_decimal_inv in H as (Hs & Hds & _).
  split; [by rewrite <- glue_app, <- Hs, glue_chars|].
  split; [unfold decimal_only; by rewrite chars_glue_decimals|].
  destruct ds as [|g ds]; [congruence|]. intros _.
  cbn [forallb glue] in *. apply andb_true_iff in Hds as [Hg _].
  destruct (is_decimal_proper g Hg) as (_ & _ & Hne).
  destruct g; [congruence|discriminate].
Qed.

(** A number followed by text that starts no digit: the run of digits is
    the number. *)
Lemma span_decimal_number (num r : string) :
  decimal_only num = true ->
  starts_continuation r = false ->
  match chars r with [] => True | g :: _ => is_decimal g = false end ->
  span_decimal (chars (num +:+ r)) = (chars num, chars r).
Proof.
  intros Hnum Hr Hahead. rewrite chars_app by exact Hr.
  by apply span_decimal_app.
Qed.

Lemma chars_nonempty (s : string) : s <> EmptyString -> chars s <> [].
Proof.
  destruct s as [|c s]; [congruence|]. intros _.
  by destruct (chars_head c s) as (x & l & ->).
Qed.

Lemma strip_prefix_inv (p s r : string) :
  strip_prefix p s = Some r -> s = p +:+ r.
Proof.
  revert s. induction p as [|a p IH]; intros s; cbn [strip_prefix].
  - by intros [= ->].
  - destruct s as [|b s]; [discriminate|].
    destruct (Ascii.eqb_spec a b) as [->|_]; [|discriminate].
    intros H. rewrite append_cons. f_equal. by apply IH.
Qed.

Lemma strip_prefix_app (p r : string) : strip_prefix p (p +:+ r) = Some r.
Proof.
  induction p as [|a p IH]; [reflexivity|].
  rewrite append_cons. cbn [strip_prefix]. by rewrite Ascii.eqb_refl.
Qed.

(** Every character is a byte with its continuation bytes, and all but
    the first start with a byte that is no continuation byte. *)
Lemma chars_shape (s : string) :
  Forall (fun g => one_char g = true) (chars s)
  /\ Forall (fun g => starts_continuation g = false) (tail (chars s)).
Proof.
  induction s as [|c s [IH1 IH2]]; [by split|]. cbn [chars].
  destruct (starts_continuation s) eqn:Hs.
  - destruct s as [|d s]; [discriminate Hs|].
    destruct (chars_head d s) as (x & l & Hx). rewrite Hx in *.
    apply Forall_cons in IH1 as [Hone Hl]. cbn [tail] in IH2.
    split; [|exact IH2]. constructor; [|exact Hl].
    cbn [one_char all_continuation] in *. cbn in Hs. by rewrite Hs, Hone.
  - split; [by constructor|]. cbn [tail].
    destruct s as [|d s]; [constructor|].
    destruct (chars_head d s) as (x & l & Hx). rewrite Hx in *. cbn [tail] in IH2.
    constructor; [exact Hs|exact IH2].
Qed.

Lemma chars_cons (c : ascii) (s : string) :
  chars (String c s)
  = if starts_continuation s then
      match chars s with
      | g :: gs => String c g :: gs
      | [] => [String c EmptyString]
      end
    else String c EmptyString :: chars s.
Proof. reflexivity. Qed.

Lemma chars_one_char (g : string) : one_char g = true -> chars g = [g].
Proof.
  destruct g as [|c r]; [discriminate|]. cbn [one_char].
  revert c. induction r as [|d r IH]; intros c Hr; [reflexivity|].
  cbn [all_continuation] in Hr. apply andb_true_iff in Hr as [Hd Hr].
  rewrite chars_cons. change (starts_continuation (String d r)) with (is_continuation d).
  rewrite Hd. by rewrite (IH d Hr).
Qed.

(** Characters put together are cut into the same characters. *)
Lemma chars_glue (l : list string) :
  Forall (fun g => one_char g = true) l ->
  Forall (fun g => starts_continuation g = false) (tail l) ->
  chars (glue l) = l.
Proof.
  induction l as [|g l IH]; [reflexivity|]. cbn [glue tail].
  intros Hone Hlead. apply Forall_cons in Hone as [Hg Hone].
  assert (Hstart : starts_continuation (glue l) = false).
  { destruct l as [|g' l]; [reflexivity|].
    apply Forall_cons in Hlead as [Hg' _]. apply Forall_cons in Hone as [Hone' _].
    cbn [glue]. rewrite starts_continuation_app; [exact Hg'|].
    by destruct g'. }
  rewrite chars_app by exact Hstart. rewrite (chars_one_char g Hg).
  rewrite IH; [reflexivity|exact Hone|].
  destruct l; [constructor|]. by apply Forall_cons in Hlead as [_ ?].
Qed.

End TextFacts.

(** ** Floats *)

Section FloatFacts.
Import Py PyFloat.

Lemma pow2_succ (k : Z) : 0 <= k -> 2 ^ (k + 1) = 2 * 2 ^ k.
Proof. intros Hk. rewrite Z.pow_add_r by lia. lia. Qed.

Lemma pow2_pos (k : Z) : 0 <= k -> 0 < 2 ^ k.
Proof. intros Hk. apply Z.pow_pos_nonneg; lia. Qed.

Lemma round_half_even_floor (n d : Z) : 0 < d -> n / d <= round_half_even n d.
Proof.
  intros Hd. unfold round_half_even.
  destruct (2 * (n mod d) ?= d); [destruct (Z.even _)| |]; lia.
Qed.

Lemma round_half_even_ceil (n d : Z) : 0 < d -> round_half_even n d <= n / d + 1.
Proof.
  intros Hd. unfold round_half_even.
  destruct (2 * (n mod d) ?= d); [destruct (Z.even _)| |]; lia.
Qed.

Lemma round_half_even_up (n d : Z) :
  0 < d -> d < 2 * (n mod d) -> round_half_even n d = n / d + 1.
Proof.
  intros Hd Hr. unfold round_half_even.
  destruct (Z.compare_spec (2 * (n mod d)) d); lia.
Qed.

(** Rounding does not cross an integer. *)
Lemma round_half_even_le (n d a : Z) : 0 < d -> n <= a * d -> round_half_even n d <= a.
Proof.
  intros Hd Hn.
  assert (Hq : n / d <= a) by (apply Z.div_le_upper_bound; lia).
  destruct (Z.eq_dec (n / d) a) as [Heq|Hne].
  - assert (n mod d = 0) by (pose proof (Z.div_mod n d); pose proof (Z.mod_pos_bound n d); nia).
    unfold round_half_even. destruct (Z.compare_spec (2 * (n mod d)) d); lia.
  - pose proof (round_half_even_ceil n d Hd). lia.
Qed.

Lemma log2_ratio_spec (n d : Z) :
  0 < d <= n ->
  0 <= log2_ratio n d /\ d * 2 ^ log2_ratio n d <= n < d * 2 ^ (log2_ratio n d + 1).
Proof.
  intros [Hd Hn]. unfold log2_ratio.
  pose proof (Z.log2_spec n ltac:(lia)) as [Hn1 Hn2].
  pose proof (Z.log2_spec d Hd) as [Hd1 Hd2].
  assert (Hk : 0 <= Z.log2 n - Z.log2 d).
  { pose proof (Z.log2_le_mono d n ltac:(lia)). lia. }
  set (k := Z.log2 n - Z.log2 d) in *.
  assert (Hpow : 2 ^ Z.log2 n = 2 ^ Z.log2 d * 2 ^ k).
  { rewrite <- Z.pow_add_r by (try apply Z.log2_nonneg; lia). f_equal. lia. }
  pose proof (pow2_succ k Hk) as Hpow1.
  pose proof (pow2_pos k Hk).
  pose proof (pow2_pos (Z.log2 d) (Z.log2_nonneg d)).
  rewrite Z.pow_succ_r in Hn2, Hd2 by apply Z.log2_nonneg.
  destruct (Z.leb_spec (d * 2 ^ k) n).
  - split; [lia|]. split; [lia|]. rewrite Hpow1. nia.
  - destruct (Z.eq_dec k 0) as [Hk0|Hk0].
    { rewrite Hk0 in *. change (2 ^ 0) with 1 in *. lia. }
    replace (k - 1 + 1) with k by lia.
    split; [lia|]. split; [|lia].
    pose proof (pow2_succ (k - 1) ltac:(lia)) as Hpow2.
    replace (k - 1 + 1) with k in Hpow2 by lia.
    pose proof (pow2_pos (k - 1) ltac:(lia)).
    nia.
Qed.

Lemma log2_ratio_small (n d : Z) : 0 <= n < d -> log2_ratio n d < 0.
Proof.
  intros [Hn Hd]. unfold log2_ratio.
  assert (Hk : Z.log2 n - Z.log2 d <= 0).
  { pose proof (Z.log2_le_mono n d ltac:(lia)). lia. }
  destruct (Z.eq_dec (Z.log2 n - Z.log2 d) 0) as [->|Hk0].
  - change (2 ^ 0) with 1. destruct (Z.leb_spec (d * 1) n); lia.
  - destruct (_ <=? _); lia.
Qed.

(** A representable value is a multiple of every power of two that
    rounding at its own magnitude, or a smaller one, can drop. *)
Lemma representable_divide (a s : Z) :
  representable a -> 0 < a -> 0 <= s <= Z.max 0 (Z.log2 a - 52) ->
  exists a', a = a' * 2 ^ s.
Proof.
  intros (c & j & Hc & Hj & ->) Ha Hs.
  assert (Hc0 : 0 < c) by (pose proof (pow2_pos j Hj); nia).
  rewrite Z.log2_mul_pow2 in Hs by lia.
  assert (Z.log2 c < 53) by (apply Z.log2_lt_pow2; lia).
  exists (c * 2 ^ (j - s)).
  rewrite <- Z.mul_assoc, <- Z.pow_add_r by lia. do 2 f_equal. lia.
Qed.

Lemma nearest_le (a n d : Z) :
  0 < d -> 0 <= n -> representable a -> n <= a * d -> nearest n d <= a.
Proof.
  intros Hd Hn Ha Hle. unfold nearest.
  destruct (Z.lt_ge_cases n d) as [Hsmall|Hbig].
  - pose proof (log2_ratio_small n d ltac:(lia)).
    rewrite Z.max_l by lia. change (2 ^ 0) with 1. rewrite !Z.mul_1_r.
    apply round_half_even_le; lia.
  - destruct (log2_ratio_spec n d ltac:(lia)) as (Hl0 & Hl1 & Hl2).
    set (l := log2_ratio n d) in *.
    pose proof (pow2_pos l Hl0).
    assert (Ha0 : 0 < a) by nia.
    assert (Hla : l <= Z.log2 a) by (apply Z.log2_le_pow2; [lia|nia]).
    set (s := Z.max 0 (l - 52)).
    destruct (representable_divide a s Ha Ha0 ltac:(lia)) as [a' Ha'].
    pose proof (pow2_pos s ltac:(lia)).
    assert (round_half_even n (d * 2 ^ s) <= a')
      by (apply round_half_even_le; nia).
    nia.
Qed.

Lemma nearest_ge (a n d : Z) :
  0 < d -> representable a -> a * d <= n -> 0 <= n -> a <= nearest n d.
Proof.
  intros Hd Ha Hle Hn. unfold nearest.
  set (s := Z.max 0 (log2_ratio n d - 52)).
  pose proof (pow2_pos s ltac:(lia)) as Hs.
  assert (Hfloor : 0 <= n / (d * 2 ^ s)) by (apply Z.div_pos; nia).
  pose proof (round_half_even_floor n (d * 2 ^ s) ltac:(nia)) as Hr.
  destruct (Z.le_gt_cases a 0) as [Ha0|Ha0]; [nia|].
  destruct (log2_ratio_spec n d ltac:(nia)) as (Hl0 & Hl1 & Hl2).
  set (l := log2_ratio n d) in *.
  destruct (Z.le_gt_cases s (Z.max 0 (Z.log2 a - 52))) as [Hcase|Hcase].
  - destruct (representable_divide a s Ha Ha0 ltac:(lia)) as [a' Ha'].
    assert (a' <= n / (d * 2 ^ s)) by (apply Z.div_le_lower_bound; nia).
    nia.
  - assert (Hs52 : s = l - 52) by lia.
    assert (Hpl : 2 ^ l = 2 ^ 52 * 2 ^ s)
      by (rewrite <- Z.pow_add_r by lia; f_equal; lia).
    assert (Z.log2 a < l) by lia.
    assert (a < 2 ^ l) by (apply Z.log2_lt_pow2; lia).
    assert (2 ^ 52 <= n / (d * 2 ^ s)) by (apply Z.div_le_lower_bound; nia).
    nia.
Qed.

Lemma nearest_exact (a d : Z) :
  0 < d -> 0 <= a -> representable a -> nearest (a * d) d = a.
Proof.
  intros Hd Ha0 Ha.
  pose proof (nearest_le a (a * d) d Hd ltac:(nia) Ha ltac:(lia)).
  pose proof (nearest_ge a (a * d) d Hd Ha ltac:(lia) ltac:(nia)).
  lia.
Qed.

Lemma representable_small (c j : Z) :
  0 <= c < 2 ^ 53 -> 0 <= j -> representable (c * 2 ^ j).
Proof. intros Hc Hj. exists c, j. auto. Qed.

(** With a numerator below 2^53 units of 1.0, a quotient strictly above
    the integer [n] is rounded to a double strictly above [n]: the doubles
    around the quotient are then closer together than 1 / c. *)
Lemma nearest_above_floor (a c n : Z) :
  0 < c -> 1 <= n -> n * c < a -> a < 2 ^ 53 ->
  n * one < nearest (a * one) c.
Proof.
  intros Hc Hn Hnc Ha.
  assert (Hone : 0 < one) by (apply pow2_pos; lia).
  assert (Hbig : c * one <= a * one) by nia.
  destruct (log2_ratio_spec (a * one) c ltac:(nia)) as (Hl0 & Hl1 & Hl2).
  unfold nearest. set (l := log2_ratio (a * one) c) in *.
  pose proof (pow2_pos l Hl0) as Hpl.
  assert (Hl_lo : 1074 <= l).
  { assert (2 ^ 1074 < 2 ^ (l + 1)) by (fold one; nia).
    assert (1074 < l + 1) by (apply (Z.pow_lt_mono_r_iff 2); lia). lia. }
  assert (Hl_hi : l < 1127).
  { assert (2 ^ l < 2 ^ 1127).
    { change 1127 with (53 + 1074). rewrite Z.pow_add_r by lia. fold one. nia. }
    apply (Z.pow_lt_mono_r_iff 2); lia. }
  rewrite Z.max_r by lia.
  set (s := l - 52) in *.
  set (K := 2 ^ (1074 - s)).
  pose proof (pow2_pos s ltac:(lia)) as Hps.
  assert (HK : 0 < K) by (apply pow2_pos; lia).
  assert (Hone_eq : one = K * 2 ^ s).
  { unfold one, K. rewrite <- Z.pow_add_r by lia. f_equal. lia. }
  assert (Hl_eq : 2 ^ l = 2 ^ 52 * 2 ^ s).
  { rewrite <- Z.pow_add_r by lia. f_equal. lia. }
  assert (HcK : c < 2 * K).
  { rewrite Hl_eq, Hone_eq in Hl1.
    assert (c * 2 ^ 52 <= a * K) by nia.
    change (2 ^ 53) with (2 * 2 ^ 52) in Ha. nia. }
  assert (Hdiv : a * one / (c * 2 ^ s) = a * K / c).
  { rewrite Hone_eq, Z.mul_assoc. apply Z.div_mul_cancel_r; lia. }
  assert (Hmod : (a * one) mod (c * 2 ^ s) = (a * K) mod c * 2 ^ s).
  { rewrite Hone_eq, Z.mul_assoc. apply Z.mul_mod_distr_r; lia. }
  assert (Hq : n * K <= a * K / c) by (apply Z.div_le_lower_bound; nia).
  assert (Hgoal : n * K < round_half_even (a * one) (c * 2 ^ s)).
  { destruct (Z.eq_dec (a * K / c) (n * K)) as [Heq|Hneq].
    - rewrite round_half_even_up; [rewrite Hdiv; lia|nia|].
      rewrite Hmod. pose proof (Z.div_mod (a * K) c ltac:(lia)) as Hdm.
      rewrite Heq in Hdm. nia.
    - pose proof (round_half_even_floor (a * one) (c * 2 ^ s) ltac:(nia)).
      rewrite Hdiv in *. lia. }
  replace (n * one) with (n * K * 2 ^ s) by (rewrite Hone_eq; lia).
  apply Z.mul_lt_mono_pos_r; assumption.
Qed.

(** *** The logarithm *)

Lemma nearest_int_ge (a x : Z) :
  0 <= a -> representable (a * one) -> a <= x -> a <= nearest (x * one) 1 / one.
Proof.
  intros Ha Hrep Hx.
  assert (Hone : 0 < one) by (apply pow2_pos; lia).
  apply Z.div_le_lower_bound; [lia|]. rewrite (Z.mul_comm one a).
  apply nearest_ge; [lia|exact Hrep|nia|nia].
Qed.

Lemma nearest_int_le (a x : Z) :
  0 <= x -> representable (a * one) -> x <= a -> nearest (x * one) 1 / one <= a.
Proof.
  intros Hx Hrep Hle.
  assert (Hone : 0 < one) by (apply pow2_pos; lia).
  apply Z.div_le_upper_bound; [lia|]. rewrite (Z.mul_comm one a).
  apply nearest_le; [lia|nia|exact Hrep|nia].
Qed.

Lemma representable_pow2 (k : Z) : 0 <= k -> representable (2 ^ k * one).
Proof.
  intros Hk. exists 1, (k + 1074). split; [lia|]. split; [lia|].
  unfold one. rewrite Z.pow_add_r by lia. lia.
Qed.

(** The floor of the exact logarithm is within the accuracy assumed. *)
Lemma ideal_log_accurate : log_accurate ideal_log.
Proof.
  intros x Hx. unfold ideal_log.
  assert (Hone : 0 < one) by (apply pow2_pos; lia).
  set (d := nearest (x * one) 1 / one).
  assert (Hd : 1 <= d).
  { apply (nearest_int_ge 1 x); [lia| |lia].
    change (1 * one) with (2 ^ 0 * one). apply representable_pow2. lia. }
  exists (Z.log2 d / 10 * one). split; [reflexivity|].
  rewrite Z.div_mul by lia.
  pose proof (Z.log2_nonneg d) as Hl0.
  destruct (Z.log2_spec d ltac:(lia)) as [Hl1 Hl2].
  set (i := Z.log2 d / 10).
  assert (Hi : 10 * i <= Z.log2 d < 10 * (i + 1)).
  { subst i. pose proof (Z.div_mod (Z.log2 d) 10 ltac:(lia)).
    pose proof (Z.mod_pos_bound (Z.log2 d) 10 ltac:(lia)). lia. }
  assert (Hi0 : 0 <= i) by (subst i; apply Z.div_pos; lia).
  split; [exact Hi0|]. split.
  - intros _.
    assert (2 ^ (10 * i) <= 2 ^ Z.log2 d) by (apply Z.pow_le_mono_r; lia).
    assert (2 ^ Z.succ (Z.log2 d) <= 2 ^ (10 * (i + 1)))
      by (apply Z.pow_le_mono_r; lia).
    pose proof (pow2_pos (10 * i) ltac:(lia)).
    split; nia.
  - intros Hbig.
    assert (2 ^ 1024 <= d).
    { apply (nearest_int_ge (2 ^ 1024) x); [lia| |exact Hbig].
      apply representable_pow2. lia. }
    assert (1024 <= Z.log2 d) by (apply Z.log2_le_pow2; lia).
    subst i. apply Z.div_le_lower_bound; lia.
Qed.

(** So is a logarithm that rounds up to 5.0 just below 1024^5. *)
Lemma rounded_log_accurate : log_accurate rounded_log.
Proof.
  intros x Hx. unfold rounded_log.
  destruct (Z.eqb_spec x (2 ^ 50 - 1)) as [->|_]; [|by apply ideal_log_accurate].
  assert (Hone : 0 < one) by (apply pow2_pos; lia).
  exists (5 * one). split; [reflexivity|]. rewrite Z.div_mul by lia.
  assert (Hd : nearest ((2 ^ 50 - 1) * one) 1 / one = 2 ^ 50 - 1).
  { assert (Hrep : representable ((2 ^ 50 - 1) * one)).
    { exists (2 ^ 50 - 1), 1074. split; [lia|]. split; [lia|reflexivity]. }
    pose proof (nearest_int_le (2 ^ 50 - 1) (2 ^ 50 - 1) ltac:(lia) Hrep ltac:(lia)).
    pose proof (nearest_int_ge (2 ^ 50 - 1) (2 ^ 50 - 1) ltac:(lia) Hrep ltac:(lia)).
    lia. }
  rewrite Hd. split; [lia|]. split; [intros _; split; lia|].
  intros Hbig. assert (2 ^ 50 < 2 ^ 1024) by (apply Z.pow_lt_mono_r; lia). lia.
Qed.

(** With an accurate logarithm [floor_log_1024] returns on every positive
    integer. *)
Lemma floor_log_1024_returns (math_log : Z -> float) (x : Z) :
  log_accurate math_log -> 0 < x ->
  exists i,
    floor_log_1024 math_log x = Ok i
    /\ 0 <= i
    /\ (x < 2 ^ 1024 ->
        2 ^ (10 * i) * (2 ^ 40 - 1) <= nearest (x * one) 1 / one * 2 ^ 40
        /\ nearest (x * one) 1 / one * (2 ^ 40 - 1) < 2 ^ (10 * (i + 1)) * 2 ^ 40)
    /\ (2 ^ 1024 <= x -> 102 <= i).
Proof.
  intros Hacc Hx. destruct (Hacc x Hx) as (u & Hu & Hrest).
  exists (u / one). unfold floor_log_1024.
  destruct (Z.leb_spec x 0) as [?|_]; [lia|]. rewrite Hu. split; [reflexivity|exact Hrest].
Qed.

(** A value below 1024^k by the margin has a unit index below k. *)
Lemma index_below (i k a b d : Z) :
  0 <= i -> 0 < a -> 0 <= b ->
  2 ^ (10 * i) * a <= d * b -> d * b < 2 ^ (10 * k) * a -> i < k.
Proof.
  intros Hi Ha Hb Hlo Hhi.
  destruct (Z.lt_ge_cases i k) as [?|Hge]; [assumption|exfalso].
  pose proof (pow2_pos (10 * i) ltac:(lia)).
  destruct (Z.lt_ge_cases k 0) as [Hk|Hk].
  - rewrite (Z.pow_neg_r 2 (10 * k)) in Hhi by lia. nia.
  - assert (2 ^ (10 * k) <= 2 ^ (10 * i)) by (apply Z.pow_le_mono_r; lia). nia.
Qed.

End FloatFacts.

(** ** SizeUnit codec *)

Section SizeCodecFacts.
Import Py PyFloat Text SizeCodec.

Lemma float_of_int_exact (n : Z) :
  0 <= n < 2 ^ 53 -> float_of_int n = Ok (Fin (n * one)).
Proof.
  intros Hn. unfold float_of_int, round_ratio.
  rewrite Z.abs_eq by lia.
  assert (Hone : 0 < one) by (apply pow2_pos; lia).
  assert (Hnear : nearest (n * one) 1 = n * one).
  { replace (n * one) with (n * one * 1) at 1 by lia.
    apply nearest_exact; [lia|nia|apply representable_small; lia]. }
  rewrite Hnear.
  assert (Hlt : n * one < huge).
  { unfold one, huge. change 2098 with (1024 + 1074).
    rewrite (Z.pow_add_r 2 1024 1074) by lia.
    assert (2 ^ 53 < 2 ^ 1024) by (apply Z.pow_lt_mono_r; lia).
    pose proof (pow2_pos 1074 ltac:(lia)). nia. }
  destruct (Z.ltb_spec (n * one) huge) as [_|?]; [|lia].
  do 2 f_equal. destruct (Z.eq_dec n 0) as [->|?]; [reflexivity|].
  rewrite Z.sgn_pos by lia. lia.
Qed.

(** [int(math.pow(1024, i) * n)] is [n * 1024 ** i] as long as [n] is a
    double: no rounding takes place. *)
Lemma pow_mul_exact (n i : Z) :
  0 <= n < 2 ^ 53 -> 0 <= i <= 8 ->
  bind (pow_1024 i) (fun p =>
    bind (float_of_int n) (fun x => int_of_float (mul p x)))
  = Ok (n * 1024 ^ i).
Proof.
  intros Hn Hi. unfold pow_1024.
  destruct (Z.leb_spec 1024 (10 * i)) as [?|_]; [lia|].
  cbn [bind]. rewrite float_of_int_exact by exact Hn. cbn [bind mul].
  assert (Hone : 0 < one) by (apply pow2_pos; lia).
  pose proof (pow2_pos (10 * i + 1074) ltac:(lia)) as Hp.
  set (a := n * 2 ^ (10 * i + 1074)).
  replace (2 ^ (10 * i + 1074) * (n * one)) with (a * one) by (subst a; lia).
  assert (Ha : 0 <= a) by (subst a; nia).
  unfold round_ratio. rewrite (Z.abs_eq (a * one)) by nia.
  rewrite (nearest_exact a one); [|lia|lia|apply representable_small; lia].
  assert (Hlt : a < huge).
  { subst a. unfold huge.
    assert (2 ^ (10 * i + 1074) <= 2 ^ 1154) by (apply Z.pow_le_mono_r; lia).
    change 2098 with (53 + 2045). rewrite (Z.pow_add_r 2 53 2045) by lia.
    assert (2 ^ 1154 < 2 ^ 2045) by (apply Z.pow_lt_mono_r; lia).
    pose proof (pow2_pos 53 ltac:(lia)). nia. }
  destruct (Z.ltb_spec a huge) as [_|?]; [|lia].
  cbn [int_of_float]. f_equal.
  assert (Hsgn : Z.sgn (a * one) * a = a).
  { destruct (Z.eq_dec a 0) as [->|?]; [reflexivity|].
    rewrite Z.sgn_pos by nia. lia. }
  rewrite Hsgn. subst a.
  rewrite Z.pow_add_r by lia. fold one.
  rewrite Z.mul_assoc, Z.quot_mul by lia.
  f_equal. rewrite Z.pow_mul_r by lia. reflexivity.
Qed.

Ltac ascii_cases c := destruct c as [[] [] [] [] [] [] [] []].

Lemma unit_letter_class (c : ascii) :
  is_unit_letter c = true ->
  tuple_index ["B"; "K"; "M"; "G"; "T"; "P"; "E"; "Z"; "Y"]%string
    (upper (String c EmptyString))
  = Ok (unit_exponent (String c EmptyString))
  /\ 1 <= unit_exponent (String c EmptyString) <= 8.
Proof.
  ascii_cases c; intros H; try discriminate H; vm_compute; repeat split; congruence.
Qed.

Lemma skip_space_inv (r : string) :
  exists sp, (sp = EmptyString \/ sp = " "%string) /\ r = sp +:+ skip_space r.
Proof.
  destruct r as [|c r]; [exists EmptyString; auto|].
  ascii_cases c;
    solve [ exists EmptyString; auto | exists " "%string; auto ].
Qed.

Lemma take_unit_inv (r unit r3 : string) :
  take_unit r = (unit, r3) ->
  r = unit +:+ r3
  /\ (unit = EmptyString
      \/ unit = kelvin_sign
      \/ exists c, unit = String c EmptyString /\ is_unit_letter c = true).
Proof.
  destruct r as [|c r]; cbn [take_unit].
  - intros [= <- <-]. auto.
  - fold (is_unit_letter c). destruct (is_unit_letter c) eqn:Hc.
    + intros [= <- <-]. split; [reflexivity|]. right. right. eauto.
    + destruct (strip_prefix kelvin_sign (String c r)) as [r'|] eqn:Hk;
        intros [= <- <-]; [|auto].
      apply strip_prefix_inv in Hk. auto.
Qed.

Lemma take_i_inv (s r : string) :
  take_i s = Some r -> exists i, In i letters_i /\ s = i +:+ r.
Proof.
  destruct s as [|c s]; cbn [take_i]; [discriminate|].
  destruct (Ascii.eqb_spec (ascii_upper c) "I") as [Hc|_].
  - intros [= <-]. exists (String c EmptyString). split; [|reflexivity].
    ascii_cases c; try discriminate Hc; cbn; auto.
  - destruct (strip_prefix dotted_capital_i (String c s)) as [r'|] eqn:H1.
    + intros [= <-]. apply strip_prefix_inv in H1.
      exists dotted_capital_i. split; [cbn; auto|exact H1].
    + intros H2. apply strip_prefix_inv in H2.
      exists dotless_small_i. split; [cbn; auto|exact H2].
Qed.

Lemma take_b_inv (s r : string) :
  take_b s = Some r -> exists b, In b letters_b /\ s = b +:+ r.
Proof.
  destruct s as [|c s]; cbn [take_b]; [discriminate|].
  destruct (Ascii.eqb_spec (ascii_upper c) "B") as [Hc|_]; [|discriminate].
  intros [= <-]. exists (String c EmptyString). split; [|reflexivity].
  ascii_cases c; try discriminate Hc; cbn; auto.
Qed.

Lemma skip_suffix_inv (r : string) :
  exists suf,
    (suf = EmptyString
     \/ In suf letters_b
     \/ exists i b, In i letters_i /\ In b letters_b /\ suf = i +:+ b)
    /\ r = suf +:+ skip_suffix r.
Proof.
  unfold skip_suffix.
  assert (Hb : exists suf, (suf = EmptyString \/ In suf letters_b)
                 /\ r = suf +:+ match take_b r with Some r' => r' | None => r end).
  { destruct (take_b r) as [r'|] eqn:Hr; [|exists EmptyString; auto].
    apply take_b_inv in Hr as (b & Hb & ->). exists b. auto. }
  destruct (take_i r) as [r1|] eqn:Hi.
  - apply take_i_inv in Hi as (i & Hi & ->).
    destruct (take_b r1) as [r2|] eqn:Hr1; [|exists EmptyString; auto].
    apply take_b_inv in Hr1 as (b & Hb1 & ->).
    exists (i +:+ b). split; [|by rewrite append_assoc].
    right. right. eauto.
  - destruct Hb as (suf & [-> | Hsuf] & Hr); [exists EmptyString; auto|].
    exists suf. auto.
Qed.

Lemma at_end_inv (r : string) :
  at_end r = true -> r = EmptyString \/ r = String "010" EmptyString.
Proof.
  destruct r as [|c [|d r]]; [auto| |]; ascii_cases c; cbn; intros H;
    solve [discriminate H | auto].
Qed.

(** The matcher finds exactly the strings of the pattern, with their
    groups. *)
Lemma re_search_sound (s num unit : string) :
  re_search s = Some (num, unit) -> size_pattern s num unit.
Proof.
  unfold re_search. destruct (span_decimal (chars s)) as [ds r1] eqn:Hspan.
  apply span_decimal_chars in Hspan as (-> & Hds & Hne).
  destruct ds as [|g ds]; [discriminate|].
  specialize (Hne ltac:(discriminate)).
  destruct (take_unit (skip_space (glue r1))) as [u r3] eqn:Hunit.
  destruct (at_end (skip_suffix r3)) eqn:Hend; [|discriminate].
  intros [= <- <-].
  destruct (skip_space_inv (glue r1)) as (sp & Hsp & Hr1).
  apply take_unit_inv in Hunit as (Hr2 & Hu).
  destruct (skip_suffix_inv r3) as (suf & Hsuf & Hr3).
  apply at_end_inv in Hend.
  rewrite Hr1, Hr2, Hr3.
  apply size_pattern_intro; auto.
Qed.

(** What follows the number in a string of the pattern starts a
    character that is no digit, and the rest of the matcher reads the unit
    from it. *)
Lemma size_pattern_rest (sp unit suf nl : string) :
  sp = EmptyString \/ sp = " "%string ->
  unit = EmptyString
    \/ unit = kelvin_sign
    \/ (exists c, unit = String c EmptyString /\ is_unit_letter c = true) ->
  suf = EmptyString
    \/ In suf letters_b
    \/ (exists i b, In i letters_i /\ In b letters_b /\ suf = i +:+ b) ->
  nl = EmptyString \/ nl = String "010" EmptyString ->
  starts_continuation (sp +:+ unit +:+ suf +:+ nl) = false
  /\ match chars (sp +:+ unit +:+ suf +:+ nl) with
     | [] => True
     | g :: _ => is_decimal g = false
     end
  /\ (let (u, r3) := take_unit (skip_space (sp +:+ unit +:+ suf +:+ nl)) in
      if at_end (skip_suffix r3) then Some u else None) = Some unit.
Proof.
  intros Hsp Hunit Hsuf Hnl.
  assert (Hsufs : In suf (EmptyString :: letters_b
                          ++ flat_map (fun i => map (append i) letters_b) letters_i)).
  { destruct Hsuf as [-> | [Hb | (i & b & Hi & Hb & ->)]]; [by left| |].
    - right. apply in_or_app. by left.
    - right. apply in_or_app. right. apply in_flat_map. exists i.
      split; [exact Hi|]. by apply in_map. }
  clear Hsuf. cbn in Hsufs.
  destruct Hsp as [-> | ->];
    (destruct Hunit as [-> | [-> | (c & -> & Hc)]];
       [| |ascii_cases c; try discriminate Hc]);
    repeat (destruct Hsufs as [<- | Hsufs]); try destruct Hsufs;
    destruct Hnl as [-> | ->];
    vm_compute; repeat split.
Qed.

Lemma re_search_complete (s num unit : string) :
  size_pattern s num unit -> re_search s = Some (num, unit).
Proof.
  intros [num' sp unit' suf nl Hne Hdig Hsp Hunit Hsuf Hnl].
  destruct (size_pattern_rest sp unit' suf nl Hsp Hunit Hsuf Hnl)
    as (Hstart & Hahead & Hrest).
  unfold re_search. rewrite span_decimal_number by assumption.
  pose proof (chars_nonempty num' Hne) as Hcs.
  destruct (chars num') as [|g ds] eqn:Hnum; [congruence|].
  rewrite <- Hnum, !glue_chars.
  destruct (take_unit _) as [u r3].
  destruct (at_end _); congruence.
Qed.

Lemma digits_value_nonneg (cs : list string) :
  forall acc n, digits_value acc cs = Some n -> 0 <= acc -> 0 <= n.
Proof.
  induction cs as [|g cs IH]; intros acc n; cbn [digits_value].
  - intros [= <-]. auto.
  - unfold decimal_value. destruct (code_point g) as [cp|]; [|discriminate].
    destruct (find _ _) as [z|]; [|discriminate].
    intros H Hacc. apply (IH _ _ H). lia.
Qed.

Lemma digits_value_decimal (cs : list string) :
  forall acc, forallb is_decimal cs = true -> exists n, digits_value acc cs = Some n.
Proof.
  induction cs as [|g cs IH]; intros acc; cbn [digits_value forallb]; [eauto|].
  intros H. apply andb_true_iff in H as [Hg Hcs]. unfold is_decimal in Hg.
  destruct (decimal_value g) as [v|]; [|discriminate]. by apply IH.
Qed.

(** [int] on the number of a match: its value, unless the digits are more
    than the limit. *)
Lemma int_of_str_number (num : string) :
  num <> EmptyString -> decimal_only num = true ->
  0 <= int_of_digits num
  /\ int_of_str num
     = if max_str_digits <? str_len num then Raise ValueError
       else Ok (int_of_digits num).
Proof.
  intros Hne Hdig. unfold int_of_str, int_of_digits, str_len, len.
  destruct (digits_value_decimal (chars num) 0 Hdig) as [n Hn]. rewrite Hn.
  split; [apply (digits_value_nonneg _ _ _ Hn); lia|].
  destruct (_ <? _); [reflexivity|].
  pose proof (chars_nonempty num Hne). by destruct (chars num).
Qed.

Lemma unit_index (unit : string) :
  unit = EmptyString
    \/ (exists c, unit = String c EmptyString /\ is_unit_letter c = true) ->
  tuple_index ["B"; "K"; "M"; "G"; "T"; "P"; "E"; "Z"; "Y"]%string
    (upper (match unit with EmptyString => "B"%string | _ => unit end))
  = Ok (unit_exponent unit)
  /\ 0 <= unit_exponent unit <= 8.
Proof.
  intros [-> | (c & -> & Hc)].
  - split; [reflexivity|]. vm_compute. split; congruence.
  - destruct (unit_letter_class c Hc) as (Hi & Hr). split; [exact Hi|lia].
Qed.

(** The value [size_str_to_bytes] returns on a match whose number is
    below 2^53. *)
Lemma size_str_to_bytes_match (s num unit : string) :
  size_pattern s num unit ->
  unit <> kelvin_sign ->
  str_len num <= max_str_digits ->
  int_of_digits num < 2 ^ 53 ->
  size_str_to_bytes (Str s) = Ok (int_of_digits num * 1024 ^ unit_exponent unit).
Proof.
  intros Hpat Hkelvin Hlen Hsmall. cbn [size_str_to_bytes].
  rewrite (re_search_complete s num unit Hpat).
  destruct Hpat as [num sp unit suf nl Hne Hdig _ Hunit _ _].
  destruct (int_of_str_number num Hne Hdig) as [Hnum Hint].
  destruct (unit_index unit) as [Hidx Hrange];
    [destruct Hunit as [?|[?|?]]; [by left|contradiction|by right]|].
  rewrite Hidx. cbn [bind].
  pose proof (pow_mul_exact (int_of_digits num) (unit_exponent unit)
                ltac:(lia) ltac:(lia)) as Hmul.
  destruct (pow_1024 (unit_exponent unit)) as [p|e]; cbn [bind] in *;
    [|discriminate Hmul].
  rewrite Hint.
  destruct (Z.ltb_spec max_str_digits (str_len num)) as [?|_]; [lia|].
  cbn [bind]. exact Hmul.
Qed.

(** On a match, the Kelvin sign as unit, and a number of more digits than
    [int] converts, raise [ValueError]. *)
Lemma size_str_to_bytes_refused (s num unit : string) :
  size_pattern s num unit ->
  unit = kelvin_sign \/ max_str_digits < str_len num ->
  size_str_to_bytes (Str s) = Raise ValueError.
Proof.
  intros Hpat Hwhy. cbn [size_str_to_bytes].
  rewrite (re_search_complete s num unit Hpat).
  destruct Hpat as [num sp unit suf nl Hne Hdig _ Hunit _ _].
  destruct (decide (unit = kelvin_sign)) as [->|Hk]; [reflexivity|].
  destruct Hwhy as [?|Hlong]; [contradiction|].
  destruct (int_of_str_number num Hne Hdig) as [_ Hint].
  destruct (unit_index unit) as [Hidx Hrange];
    [destruct Hunit as [?|[?|?]]; [by left|contradiction|by right]|].
  rewrite Hidx. cbn [bind]. unfold pow_1024.
  destruct (Z.leb_spec 1024 (10 * unit_exponent unit)) as [?|_]; [lia|].
  cbn [bind]. rewrite Hint.
  destruct (Z.ltb_spec max_str_digits (str_len num)) as [_|?]; [reflexivity|lia].
Qed.

Lemma size_str_to_bytes_no_match (s : string) :
  (forall num unit, ~ size_pattern s num unit) ->
  size_str_to_bytes (Str s) = Raise AssertionError.
Proof.
  intros Hno. cbn [size_str_to_bytes].
  destruct (re_search s) as [[num unit]|] eqn:Hre; [|reflexivity].
  exfalso. exact (Hno num unit (re_search_sound s num unit Hre)).
Qed.

(** [str(n)] is made of ASCII digits: each byte is a character and a
    digit. *)
Lemma string_of_uint_digits (d : Decimal.uint) :
  starts_continuation (NilEmpty.string_of_uint d) = false
  /\ decimal_only (NilEmpty.string_of_uint d) = true.
Proof.
  unfold decimal_only.
  induction d as [|d [IH1 IH2]|d [IH1 IH2]|d [IH1 IH2]|d [IH1 IH2]|d [IH1 IH2]
                  |d [IH1 IH2]|d [IH1 IH2]|d [IH1 IH2]|d [IH1 IH2]|d [IH1 IH2]];
    (split; [reflexivity|]); cbn [NilEmpty.string_of_uint];
    [reflexivity|rewrite chars_lead by exact IH1; cbn [forallb]; by rewrite IH2..].
Qed.

Lemma decimal_only_str_of_int (n : Z) : decimal_only (str_of_int n) = true.
Proof.
  unfold str_of_int, NilZero.string_of_uint.
  destruct (N.to_uint _); try apply string_of_uint_digits; reflexivity.
Qed.

(** A number followed by a point is no size string. *)
Lemma re_search_point (ds r : string) :
  decimal_only ds = true -> re_search (ds +:+ String "." r) = None.
Proof.
  intros Hds. unfold re_search.
  destruct (chars_head "." r) as (x & l & Hhead).
  assert (Hx : is_decimal (String "." x) = false)
    by (destruct x as [|b [|c [|d [|e x]]]]; reflexivity).
  rewrite span_decimal_number; [|exact Hds|reflexivity|by rewrite Hhead].
  destruct (chars ds); [reflexivity|].
  rewrite glue_chars. destruct r; reflexivity.
Qed.

(** A string that starts with a minus sign is no size string. *)
Lemma re_search_minus (r : string) : re_search (String "-" r) = None.
Proof.
  unfold re_search. destruct (chars_head "-" r) as (x & l & ->).
  assert (Hx : is_decimal (String "-" x) = false)
    by (destruct x as [|b [|c [|d [|e x]]]]; reflexivity).
  cbn [span_decimal]. by rewrite Hx.
Qed.

(** Whatever unit index the logarithm gives, the rendering has a decimal
    point and [size_str_to_bytes] refuses it. *)
Lemma render_not_parsed (bytes i : Z) (s : string) :
  render bytes i = Ok s -> size_str_to_bytes (Str s) = Raise AssertionError.
Proof.
  unfold render.
  destruct (pow_1024 i) as [p|]; [cbn [bind]|discriminate].
  destruct (float_of_int bytes) as [b|]; [cbn [bind]|discriminate].
  destruct (div b p) as [q|]; [cbn [bind]|discriminate].
  destruct (tuple_get _ i) as [u|]; [cbn [bind]|discriminate].
  intros [= <-]. cbn [size_str_to_bytes].
  destruct q as [v|[]]; [|reflexivity..].
  cbn [format_02f].
  destruct (v <? 0).
  { rewrite !append_assoc. change ("-" +:+ ?a) with (String "-" a).
    by rewrite re_search_minus. }
  rewrite append_nil.
  change (?a +:+ "." +:+ ?b) with (a +:+ String "." b).
  rewrite append_assoc, append_cons.
  rewrite re_search_point; [reflexivity|apply decimal_only_str_of_int].
Qed.

Lemma div_returns (u v : Z) : v <> 0 -> exists q, div (Fin u) (Fin v) = Ok q.
Proof. intros Hv. destruct v; [congruence|cbn; eauto..]. Qed.

Lemma tuple_get_returns {A : Type} (t : list A) (i : Z) :
  0 <= i < len t -> exists a, tuple_get t i = Ok a.
Proof.
  intros Hi. unfold tuple_get.
  destruct (Z.ltb_spec i 0); [lia|]. destruct (Z.ltb_spec i 0); [lia|].
  destruct (t !! Z.to_nat i) as [a|] eqn:Hlook; [eauto|].
  apply lookup_ge_None in Hlook. unfold len in Hi. lia.
Qed.

(** The rendering at a unit index that the tuple has. *)
Lemma render_returns (n i : Z) :
  0 < n <= 2 ^ 89 -> 0 <= i <= 8 -> exists s, render n i = Ok s.
Proof.
  intros Hn Hi. unfold render, pow_1024.
  assert (Hone : 0 < one) by (apply pow2_pos; lia).
  destruct (Z.leb_spec 1024 (10 * i)) as [?|_]; [lia|]. cbn [bind].
  unfold float_of_int, round_ratio. rewrite Z.abs_eq by lia.
  set (u := nearest (n * one) 1).
  assert (Hhi : u <= 2 ^ 89 * one).
  { apply nearest_le; [lia|nia|apply representable_pow2; lia|nia]. }
  assert (Hfin : u < huge).
  { unfold huge. change 2098 with (89 + 935 + 1074).
    rewrite !Z.pow_add_r by lia. fold one.
    pose proof (pow2_pos 935 ltac:(lia)). nia. }
  destruct (Z.ltb_spec u huge) as [_|?]; [|lia]. cbn [bind].
  destruct (div_returns (Z.sgn n * u) (2 ^ (10 * i + 1074))) as [q Hq].
  { pose proof (pow2_pos (10 * i + 1074) ltac:(lia)). lia. }
  rewrite Hq. cbn [bind].
  destruct (tuple_get_returns
              ["B"; "KB"; "MB"; "GB"; "TB"; "PB"; "EB"; "ZB"; "YB"]%string i)
    as [unit Hunit]; [unfold len; cbn; lia|].
  rewrite Hunit. cbn [bind]. eauto.
Qed.

(** With an accurate logarithm the size is rendered up to 2^89, and at 0. *)
Lemma bytes_to_size_str_returns (math_log : Z -> float) (n : Z) :
  log_accurate math_log -> 0 <= n <= 2 ^ 89 ->
  exists s, bytes_to_size_str math_log n = Ok s.
Proof.
  intros Hacc Hn. unfold bytes_to_size_str.
  destruct (Z.eqb_spec n 0) as [?|Hn0]; [eauto|].
  destruct (floor_log_1024_returns math_log n Hacc ltac:(lia))
    as (i & -> & Hi0 & Henv & _).
  cbn [bind].
  assert (Hsmall : n < 2 ^ 1024).
  { assert (2 ^ 89 < 2 ^ 1024) by (apply Z.pow_lt_mono_r; lia). lia. }
  destruct (Henv Hsmall) as [Hlo _].
  assert (Hd : nearest (n * one) 1 / one <= 2 ^ 89).
  { apply nearest_int_le; [lia|apply representable_pow2; lia|lia]. }
  assert (Hi : i < 9).
  { apply (index_below i 9 (2 ^ 40 - 1) (2 ^ 40) (nearest (n * one) 1 / one));
      [lia|lia|lia|exact Hlo|].
    change (2 ^ (10 * 9)) with (2 ^ 90). lia. }
  apply render_returns; lia.
Qed.

(** From unit index 9 on there is no unit: the rendering fails. *)
Lemma render_beyond_units (bytes i : Z) : 9 <= i -> raises (render bytes i).
Proof.
  intros Hi. unfold render, raises.
  destruct (pow_1024 i) as [p|e]; [cbn [bind]|eauto].
  destruct (float_of_int bytes) as [b|e]; [cbn [bind]|eauto].
  destruct (div b p) as [q|e]; [cbn [bind]|eauto].
  assert (Hget : tuple_get ["B"; "KB"; "MB"; "GB"; "TB"; "PB"; "EB"; "ZB"; "YB"]%string i
                 = Raise IndexError).
  { unfold tuple_get. destruct (Z.ltb_spec i 0); [lia|].
    destruct (Z.ltb_spec i 0); [lia|].
    rewrite (proj2 (lookup_ge_None _ _)); [reflexivity|cbn; lia]. }
  rewrite Hget. cbn [bind]. eauto.
Qed.

(** At 2^100 every accurate logarithm gives a unit index past the
    tuple. *)
Lemma bytes_to_size_str_2_100 (math_log : Z -> float) :
  log_accurate math_log -> bytes_to_size_str math_log (2 ^ 100) = Raise IndexError.
Proof.
  intros Hacc. unfold bytes_to_size_str.
  destruct (Z.eqb_spec (2 ^ 100) 0) as [?|_]; [lia|].
  destruct (floor_log_1024_returns math_log (2 ^ 100) Hacc ltac:(lia))
    as (i & -> & Hi0 & Henv & _).
  cbn [bind].
  assert (Hone : 0 < one) by (apply pow2_pos; lia).
  assert (Hsmall : 2 ^ 100 < 2 ^ 1024) by (apply Z.pow_lt_mono_r; lia).
  destruct (Henv Hsmall) as [Hlo Hhi].
  assert (Hd : nearest (2 ^ 100 * one) 1 / one = 2 ^ 100).
  { pose proof (nearest_int_le (2 ^ 100) (2 ^ 100) ltac:(lia)
                  (representable_pow2 100 ltac:(lia)) ltac:(lia)).
    pose proof (nearest_int_ge (2 ^ 100) (2 ^ 100) ltac:(lia)
                  (representable_pow2 100 ltac:(lia)) ltac:(lia)).
    lia. }
  rewrite Hd in Hlo, Hhi.
  assert (Hi_hi : i < 11).
  { apply (index_below i 11 (2 ^ 40 - 1) (2 ^ 40) (2 ^ 100));
      [lia|lia|lia|exact Hlo|].
    change (2 ^ (10 * 11)) with (2 ^ 110). lia. }
  assert (Hi_lo : 9 <= i).
  { destruct (Z.lt_ge_cases i 9) as [Hlt|?]; [exfalso|assumption].
    assert (2 ^ (10 * (i + 1)) <= 2 ^ 90) by (apply Z.pow_le_mono_r; lia).
    lia. }
  assert (Hcases : i = 9 \/ i = 10) by lia.
  destruct Hcases as [-> | ->]; vm_compute; reflexivity.
Qed.

(** Just below 1024^5 the unit depends on the last place of the
    logarithm: the exact one gives terabytes, the one that rounds up gives
    a petabyte, as CPython does. *)
Example bytes_to_size_str_below_PB :
  bytes_to_size_str ideal_log (2 ^ 50 - 1) = Ok "1024.00 TB"
  /\ bytes_to_size_str rounded_log (2 ^ 50 - 1) = Ok "1.00 PB".
Proof. split; vm_compute; reflexivity. Qed.

(** C5, as stated, fails already at one byte: whichever unit index the
    logarithm gives, the rendering has a decimal point ("1.00 B" with index
    0), and [size_str_to_bytes] refuses it. *)
Lemma roundtrip_fails_at_1 :
  ~ (exists math_log s v,
       bytes_to_size_str math_log 1 = Ok s
       /\ size_str_to_bytes (Str s) = Ok v
       /\ 100 * Z.abs (v - 1) <= 1).
Proof.
  intros (math_log & s & v & Hs & Hv & _).
  unfold bytes_to_size_str in Hs. cbn [Z.eqb] in Hs.
  destruct (floor_log_1024 math_log 1) as [i|e]; [cbn [bind] in Hs|discriminate Hs].
  rewrite (render_not_parsed 1 i s Hs) in Hv. discriminate Hv.
Qed.

(** C5, amended.  Only zero makes the round trip: "0B" is parsed back to
    0; every other size that is rendered is rendered with a decimal point,
    and [size_str_to_bytes] raises [AssertionError] on the rendering,
    whichever unit index the logarithm gave; and with a logarithm that is
    accurate to a relative 2^-40 every size from 1 to 2^89 is rendered. *)
Theorem roundtrip_only_zero (math_log : Z -> float) :
  (bytes_to_size_str math_log 0 = Ok "0B" /\ size_str_to_bytes (Str "0B") = Ok 0)
  /\ (forall n s, n <> 0 -> bytes_to_size_str math_log n = Ok s ->
        size_str_to_bytes (Str s) = Raise AssertionError)
  /\ (forall n i s, render n i = Ok s ->
        size_str_to_bytes (Str s) = Raise AssertionError)
  /\ (log_accurate math_log ->
      forall n, 0 < n <= 2 ^ 89 -> exists s, bytes_to_size_str math_log n = Ok s).
Proof.
  split; [split; vm_compute; reflexivity|]. split; [|split].
  - intros n s Hn. unfold bytes_to_size_str.
    destruct (Z.eqb_spec n 0) as [?|_]; [contradiction|].
    destruct (floor_log_1024 math_log n) as [i|e]; [cbn [bind]|discriminate].
    apply render_not_parsed.
  - exact render_not_parsed.
  - intros Hacc n Hn. apply bytes_to_size_str_returns; [exact Hacc|lia].
Qed.

Lemma roundtrip_only_zero_witness :
  size_str_to_bytes (Str "1.50 KB") = Raise AssertionError
  /\ exists s, bytes_to_size_str ideal_log 1536 = Ok s.
Proof.
  split.
  - apply (proj1 (proj2 (roundtrip_only_zero ideal_log)) 1536 "1.50 KB"%string);
      [lia|vm_compute; reflexivity].
  - apply (proj2 (proj2 (proj2 (roundtrip_only_zero ideal_log))) ideal_log_accurate).
    lia.
Defined.

(** C7, as stated, fails on "10 K": the string is not of the form digits,
    unit letter, suffix, yet it is parsed (the pattern of the code allows
    one space after the digits). *)
Lemma size_str_to_bytes_takes_space :
  ~ (forall s, spec_size_pattern s = false -> raises (size_str_to_bytes (Str s))).
Proof.
  intros H. destruct (H "10 K"%string eq_refl) as [e He].
  assert (E : size_str_to_bytes (Str "10 K") = Ok 10240) by (vm_compute; reflexivity).
  rewrite E in He. discriminate He.
Qed.

(** C7, amended.  Integers are returned unchanged.  A string made of
    decimal digits (of any script), an optional space, an optional unit
    letter (K, M, G, T, P, E, Z, Y in either case), an optional suffix (B,
    or i and B, in either case, the i also dotted or dotless) and an
    optional final newline gives digits * 1024 ^ (unit index), bytes without
    a unit letter, when the digits are 4300 at most and a number below
    2^53.  With the Kelvin sign as unit letter, which the pattern takes
    too, and with more than 4300 digits, the call raises [ValueError].
    Every other string raises [AssertionError].  "10", "1K" and "2M" give
    10, 1024 and 2097152. *)
Theorem size_str_to_bytes_spec :
  (forall n, size_str_to_bytes (Int n) = Ok n)
  /\ (forall s num unit,
        size_pattern s num unit -> unit <> kelvin_sign ->
        str_len num <= max_str_digits -> int_of_digits num < 2 ^ 53 ->
        size_str_to_bytes (Str s) = Ok (int_of_digits num * 1024 ^ unit_exponent unit))
  /\ (forall s num unit,
        size_pattern s num unit ->
        unit = kelvin_sign \/ max_str_digits < str_len num ->
        size_str_to_bytes (Str s) = Raise ValueError)
  /\ (forall s, (forall num unit, ~ size_pattern s num unit) ->
        size_str_to_bytes (Str s) = Raise AssertionError)
  /\ size_str_to_bytes (Str "10") = Ok 10
  /\ size_str_to_bytes (Str "1K") = Ok 1024
  /\ size_str_to_bytes (Str "2M") = Ok 2097152.
Proof.
  split; [reflexivity|].
  split; [exact size_str_to_bytes_match|].
  split; [exact size_str_to_bytes_refused|].
  split; [exact size_str_to_bytes_no_match|].
  split; [|split]; vm_compute; reflexivity.
Qed.

Lemma size_str_to_bytes_spec_witness :
  size_str_to_bytes (Str "10 KiB")
  = Ok (int_of_digits "10" * 1024 ^ unit_exponent "K")
  /\ size_str_to_bytes (Str ("10" +:+ kelvin_sign +:+ "B")) = Raise ValueError.
Proof.
  split.
  - apply (proj1 (proj2 size_str_to_bytes_spec) "10 KiB"%string "10"%string "K"%string).
    + apply (size_pattern_intro "10" " " "K" "iB" "");
        solve [discriminate | reflexivity | auto
              | right; right; eexists; split; reflexivity
              | right; right; exists "i"%string, "B"%string; cbn; auto].
    + discriminate.
    + vm_compute. discriminate.
    + vm_compute. reflexivity.
  - apply (proj1 (proj2 (proj2 size_str_to_bytes_spec))
             ("10" +:+ kelvin_sign +:+ "B")%string "10"%string kelvin_sign).
    + apply (size_pattern_intro "10" "" kelvin_sign "B" "");
        solve [discriminate | reflexivity | auto | right; left; cbn; auto].
    + left. reflexivity.
Defined.

(** Beyond 2^53 the number goes through a double and is rounded. *)
Example size_str_to_bytes_rounds :
  size_str_to_bytes (Str "9007199254740993") = Ok 9007199254740992.
Proof. vm_compute. reflexivity. Qed.

(** C8 at 2^100 bytes, the size that the option "1048576Y" parses to: the
    unit index is 9 or 10, whatever the last places of the logarithm, past
    "YB", and the tuple lookup raises; so does the rendering at every unit
    index from 9 on. *)
Theorem bytes_to_size_str_past_YB (math_log : Z -> float) :
  log_accurate math_log ->
  size_str_to_bytes (Str "1048576Y") = Ok (2 ^ 100)
  /\ bytes_to_size_str math_log (2 ^ 100) = Raise IndexError
  /\ forall n i, 9 <= i -> raises (render n i).
Proof.
  intros Hacc.
  split; [vm_compute; reflexivity|]. split; [by apply bytes_to_size_str_2_100|].
  exact render_beyond_units.
Qed.

Lemma bytes_to_size_str_past_YB_witness :
  bytes_to_size_str ideal_log (2 ^ 100) = Raise IndexError.
Proof.
  exact (proj1 (proj2 (bytes_to_size_str_past_YB ideal_log ideal_log_accurate))).
Defined.

Lemma round_half_even_nonneg (n d : Z) : 0 <= n -> 0 < d -> 0 <= round_half_even n d.
Proof.
  intros Hn Hd. pose proof (round_half_even_floor n d Hd).
  pose proof (Z.div_pos n d Hn Hd). lia.
Qed.

Lemma nearest_nonneg (n d : Z) : 0 <= n -> 0 < d -> 0 <= nearest n d.
Proof.
  intros Hn Hd. unfold nearest.
  set (s := Z.max 0 (log2_ratio n d - 52)).
  pose proof (pow2_pos s ltac:(lia)).
  pose proof (round_half_even_nonneg n (d * 2 ^ s) Hn ltac:(nia)). nia.
Qed.

Lemma round_ratio_nonneg (sign n d : Z) (u : Z) :
  0 <= sign -> 0 <= n -> 0 < d -> round_ratio sign n d = Fin u -> 0 <= u.
Proof.
  intros Hs Hn Hd. unfold round_ratio.
  pose proof (nearest_nonneg n d Hn Hd).
  destruct (_ <? _); [|discriminate]. intros [= <-]. nia.
Qed.

(** X18. A size given as a string is never parsed to a negative number:
    whenever [size_str_to_bytes] returns on a string, also where the
    product has been rounded, the result is 0 or more. *)
Theorem size_str_to_bytes_nonneg (s : string) (n : Z) :
  size_str_to_bytes (Str s) = Ok n -> 0 <= n.
Proof.
  cbn [size_str_to_bytes].
  destruct (re_search s) as [[num unit]|] eqn:Hre; [|discriminate].
  apply re_search_sound in Hre. destruct Hre as [num sp unit suf nl Hne Hdig _ _ _ _].
  destruct (int_of_str_number num Hne Hdig) as [Hnum Hint].
  destruct (tuple_index _ _) as [i|]; [cbn [bind]|discriminate].
  unfold pow_1024. destruct (1024 <=? 10 * i); [discriminate|]. cbn [bind].
  rewrite Hint. destruct (_ <? _); [discriminate|]. cbn [bind].
  assert (Hone : 0 < one) by (apply pow2_pos; lia).
  unfold float_of_int.
  destruct (round_ratio _ _ 1) as [u|] eqn:Hu; [cbn [bind]|discriminate].
  apply round_ratio_nonneg in Hu; [|apply Z.sgn_nonneg; lia|nia|lia].
  cbn [mul].
  destruct (round_ratio _ _ one) as [w|] eqn:Hw; [|discriminate].
  apply round_ratio_nonneg in Hw; [|apply Z.sgn_nonneg|apply Z.abs_nonneg|lia].
  - cbn [int_of_float]. intros [= <-]. apply Z.quot_pos; lia.
  - assert (0 <= 2 ^ (10 * i + 1074)) by (apply Z.pow_nonneg; lia). nia.
Qed.

Lemma size_str_to_bytes_nonneg_witness : 0 <= 9007199254740992.
Proof.
  apply (size_str_to_bytes_nonneg "9007199254740993" 9007199254740992).
  vm_compute. reflexivity.
Defined.

End SizeCodecFacts.

(** ** UploadCoordinator: the session *)

Section SessionFacts.
Import Py Upload.

Variable thread_num : Z.
Variable body_size : nat -> Z.

Abbreviation step := (upload_step thread_num body_size).
Abbreviation worker_step := (upload_chunk_step body_size).
Abbreviation reachable := (reachable thread_num body_size).
Abbreviation change := (change body_size).

Lemma step_change (s s' : session) (e : event) :
  step s e s' ->
  (vars s' = vars s /\ futures s' = futures s)
  \/ exists k ph ph',
       futures s !! k = Some ph
       /\ change k (vars s) ph (vars s') ph'
       /\ futures s' = <[k := ph']> (futures s)
       /\ (e = Start k \/ e = Run k \/ e = Cancel k).
Proof.
  intros Hstep. destruct Hstep; cbn; try (left; split; reflexivity).
  - right. exists 0%nat, Queued, (Sending 0). eauto 10 using Upload.change.
  - right. exists k, Queued, (Sending 0). eauto 10 using Upload.change.
  - right. exists k, ph, ph'. eauto 10 using Upload.change.
  - destruct ph; try (left; split; reflexivity).
    right. exists j, Queued, Cancelled. eauto 10 using Upload.change.
Qed.

Lemma holder_insert (fs : list phase) (k : nat) (ph ph' : phase) (d : response) :
  fs !! k = Some ph ->
  (holds d ph -> holds d ph') ->
  (exists k0 ph0, fs !! k0 = Some ph0 /\ holds d ph0) ->
  exists k0 ph0, <[k := ph']> fs !! k0 = Some ph0 /\ holds d ph0.
Proof.
  intros Hk Hkeep (k0 & ph0 & Hk0 & Hh).
  destruct (decide (k0 = k)) as [->|Hne].
  - exists k, ph'. rewrite list_lookup_insert_eq by eauto using lookup_lt_Some.
    split; [reflexivity|]. apply Hkeep. congruence.
  - exists k0, ph0. by rewrite list_lookup_insert_ne.
Qed.

Lemma calls_ok_change (sh sh' : shared) (fs : list phase) (k : nat) (ph ph' : phase) :
  calls_ok sh fs ->
  fs !! k = Some ph ->
  change k sh ph sh' ph' ->
  calls_ok sh' (<[k := ph']> fs).
Proof.
  intros [Hadv Hgate Hload Hfail Hdata Hoff] Hk Hch.
  assert (Hlen : (k < length fs)%nat) by eauto using lookup_lt_Some.
  pose proof (Hadv k ph Hk) as Hadvk.
  pose proof (Hgate k ph Hk) as Hgatek.
  pose proof (fun r tmp (E : ph = Loaded r tmp) =>
                Hload k r tmp (eq_trans Hk (f_equal Some E))) as Hloadk.
  pose proof (fun off (E : ph = Sending off) =>
                Hoff k off (eq_trans Hk (f_equal Some E))) as Hoffk.
  assert (Hother : forall j phj, j <> k ->
            <[k := ph']> fs !! j = Some phj -> fs !! j = Some phj).
  { intros j phj Hne Hj. by rewrite list_lookup_insert_ne in Hj. }
  assert (Hself : forall phj, <[k := ph']> fs !! k = Some phj -> phj = ph').
  { intros phj Hj. rewrite list_lookup_insert_eq in Hj by exact Hlen. congruence. }
  assert (Hholder : forall d, (holds d ph -> holds d ph') ->
            (exists k0 ph0, fs !! k0 = Some ph0 /\ holds d ph0) ->
            exists k0 ph0, <[k := ph']> fs !! k0 = Some ph0 /\ holds d ph0).
  { intros d. by apply holder_insert. }
  destruct Hch as [sh|sh|sh ph sh' ph' Hw]; [| |destruct Hw]; cbn in *;
    try specialize (Hloadk _ _ eq_refl); try specialize (Hoffk _ eq_refl);
    try specialize (Hgatek eq_refl);
    (split; cbn;
     [ intros j phj Hj; destruct (decide (j = k)) as [->|Hne];
       [apply Hself in Hj; subst phj; cbn in *
       |apply Hother in Hj; [|exact Hne]; pose proof (Hadv j phj Hj);
        pose proof (Hgate j phj Hj)]
     | intros j phj Hj Hin; destruct (decide (j = k)) as [->|Hne];
       [apply Hself in Hj; subst phj; cbn in *
       |apply Hother in Hj; [|exact Hne]; pose proof (Hgate j phj Hj Hin)]
     | intros j r' tmp' Hj; destruct (decide (j = k)) as [->|Hne];
       [apply Hself in Hj; try discriminate Hj; try (injection Hj as -> ->)
       |apply Hother in Hj; [|exact Hne]; pose proof (Hload j r' tmp' Hj);
        pose proof (Hgate j _ Hj eq_refl)]
     | intros j r' Hj Hrep; destruct (decide (j = k)) as [->|Hne];
       [apply Hself in Hj; try discriminate Hj; try (injection Hj as ->)
       |apply Hother in Hj; [|exact Hne]; pose proof (Hfail j r' Hj Hrep)]
     | intros d Hd
     | intros j off Hj; destruct (decide (j = k)) as [->|Hne];
       [apply Hself in Hj; try discriminate Hj; try (injection Hj as ->)
       |apply Hother in Hj; [|exact Hne]; exact (Hoff j off Hj)] ]).
  all: try (intuition (try discriminate; try congruence; lia)).
  all: try (exists 0; split; lia).
  all: try (destruct Hoffk as (n & Hn & ->); exists (n + 1); split; lia).
  all: try (rewrite Hrep; reflexivity).
  all: try (destruct (reports_failure r); [reflexivity|assumption]).
  all: try (rewrite H; lia).
  all: try (destruct (has_url r) eqn:Hurl;
            [injection Hd as <-; split; [exact Hurl|];
             exists k, (Recorded r);
             rewrite list_lookup_insert_eq by exact Hlen; unfold holds; auto|]).
  all: try (destruct (Hdata d Hd) as [Hu Hh]; split; [exact Hu|];
            apply Hholder; [|exact Hh];
            unfold holds; intros [E|E]; try discriminate E;
            injection E as ->; auto).
Qed.

Lemma worker_step_running (k : nat) (sh sh' : shared) (ph ph' : phase) :
  worker_step k sh ph sh' ph' ->
  running ph = true /\ ph' <> Queued /\ ph' <> Cancelled.
Proof. intros H. destruct H; cbn; repeat split; discriminate. Qed.

Lemma session_ok_init (chunks : Z) : session_ok (init chunks).
Proof.
  split; cbn.
  - split; cbn; intros k; intros.
    + match goal with H : _ !! _ = Some _ |- _ =>
        apply lookup_replicate in H as [-> _] end. cbn. split; [discriminate|lia].
    + match goal with H : _ !! _ = Some _ |- _ =>
        apply lookup_replicate in H as [-> _] end. discriminate.
    + match goal with H : _ !! _ = Some _ |- _ =>
        apply lookup_replicate in H as [? _] end. discriminate.
    + match goal with H : _ !! _ = Some _ |- _ =>
        apply lookup_replicate in H as [? _] end. discriminate.
    + discriminate.
    + match goal with H : _ !! _ = Some _ |- _ =>
        apply lookup_replicate in H as [? _] end. discriminate.
  - intros k ph _ Hk Hne. apply lookup_replicate in Hk as [-> _]. congruence.
  - intros [].
  - discriminate.
  - discriminate.
  - discriminate.
Qed.

Lemma calls_ok_step (s s' : session) (e : event) :
  calls_ok (vars s) (futures s) -> step s e s' -> calls_ok (vars s') (futures s').
Proof.
  intros Hok Hstep.
  destruct (step_change s s' e Hstep)
    as [[-> ->]|(k & ph & ph' & Hk & Hch & -> & _)]; [exact Hok|].
  eapply calls_ok_change; eauto.
Qed.

(** A started call, or a cancelled one, is not the pending call it was. *)
Lemma lookup_changed (fs : list phase) (k j : nat) (ph' ph : phase) :
  <[k := ph']> fs !! j = Some ph ->
  (j = k /\ ph = ph') \/ (j <> k /\ fs !! j = Some ph).
Proof.
  intros H. destruct (decide (j = k)) as [->|Hne].
  - left. split; [reflexivity|].
    rewrite list_lookup_insert in H. case_decide; [congruence|].
    apply lookup_lt_Some in H. lia.
  - right. by rewrite list_lookup_insert_ne in H.
Qed.

Lemma session_ok_step (s s' : session) (e : event) :
  session_ok s -> step s e s' -> session_ok s'.
Proof.
  intros Hok Hstep.
  pose proof (calls_ok_step s s' e (s_calls s Hok) Hstep) as Hcalls.
  destruct Hok as [_ Hfirst Hopen Hseen Hcanc Hret].
  destruct Hstep as
    [s Hc H0|s k Hk1 Hpo Hk Hbusy Hfifo|s k ph sh' ph' Hk Hw
    |s r Hc H0|s Hc H0|s seen j ph Hc Hj1 Hnew Hj Hdone|s seen Hc
    |s why j ph Hc Hj|s why j Hc Hlen Hall|s seen Hc Hall];
    split; cbn in *; try exact Hcalls.
  (* first_start *)
  - intros k ph Hk1 Hk Hne. apply lookup_changed in Hk as [[-> _]|[_ Hk]]; [lia|].
    destruct (Hfirst k ph Hk1 Hk Hne) as [r Hr]. congruence.
  - rewrite Hc. intros [].
  - rewrite Hc. discriminate.
  - rewrite Hc. discriminate.
  - rewrite Hc. discriminate.
  (* pool_start *)
  - intros j ph Hj1 Hj Hne. destruct (Hopen Hpo) as [r Hr]. exists r.
    rewrite list_lookup_insert_ne by lia. exact Hr.
  - intros _. destruct (Hopen Hpo) as [r Hr]. exists r.
    rewrite list_lookup_insert_ne by lia. exact Hr.
  - intros seen j Hc Hin. destruct (Hseen seen j Hc Hin) as (Hj1 & ph & Hj & Hdone).
    split; [exact Hj1|]. exists ph. split; [|exact Hdone].
    rewrite list_lookup_insert_ne; [exact Hj|]. intros ->.
    rewrite Hk in Hj. injection Hj as <-. discriminate Hdone.
  - intros why j Hc. destruct (Hcanc why j Hc) as [Hj1 Hq]. split; [exact Hj1|].
    intros i Hi Hi'. apply lookup_changed in Hi' as [[_ ?]|[_ Hi']]; [discriminate|].
    exact (Hq i Hi Hi').
  - intros why j ph Hc. rewrite Hc in Hpo. destruct Hpo.
  (* worker_run *)
  - destruct (worker_step_running k _ _ _ _ Hw) as (Hrun & HnQ & HnC).
    intros j phj Hj1 Hj Hne.
    assert (Hzero : exists r, futures s !! 0%nat = Some (Finished r)).
    { apply lookup_changed in Hj as [[-> ->]|[_ Hj]].
      - apply (Hfirst k ph Hj1 Hk). intros ->. discriminate Hrun.
      - exact (Hfirst j phj Hj1 Hj Hne). }
    destruct Hzero as [r Hr]. exists r.
    rewrite list_lookup_insert_ne; [exact Hr|]. intros ->.
    rewrite Hk in Hr. injection Hr as ->. discriminate Hrun.
  - destruct (worker_step_running k _ _ _ _ Hw) as (Hrun & HnQ & HnC).
    intros Hpo. destruct (Hopen Hpo) as [r Hr]. exists r.
    rewrite list_lookup_insert_ne; [exact Hr|]. intros ->.
    rewrite Hk in Hr. injection Hr as ->. discriminate Hrun.
  - destruct (worker_step_running k _ _ _ _ Hw) as (Hrun & HnQ & HnC).
    intros seen j Hc Hin. destruct (Hseen seen j Hc Hin) as (Hj1 & phj & Hj & Hdone).
    split; [exact Hj1|]. exists phj. split; [|exact Hdone].
    rewrite list_lookup_insert_ne; [exact Hj|]. intros ->.
    rewrite Hk in Hj. injection Hj as <-. destruct ph; discriminate.
  - destruct (worker_step_running k _ _ _ _ Hw) as (Hrun & HnQ & HnC).
    intros why j Hc. destruct (Hcanc why j Hc) as [Hj1 Hq]. split; [exact Hj1|].
    intros i Hi Hi'. apply lookup_changed in Hi' as [[_ ?]|[_ Hi']]; [congruence|].
    exact (Hq i Hi Hi').
  - destruct (worker_step_running k _ _ _ _ Hw) as (Hrun & HnQ & HnC).
    intros why j phj Hc Hj. pose proof (Hret why k ph Hc Hk) as Hset.
    destruct ph; discriminate.
  (* first_done *)
  - exact Hfirst.
  - intros _. eauto.
  - intros seen j Hc' Hin. destruct (0 <? thread_num); [|discriminate].
    injection Hc' as <-. by apply not_elem_of_nil in Hin.
  - intros why j Hc'. destruct (0 <? thread_num); discriminate.
  - intros why k ph Hc'. destruct (0 <? thread_num); discriminate.
  (* first_crashed *)
  - exact Hfirst.
  - intros [].
  - discriminate.
  - discriminate.
  - discriminate.
  (* observe *)
  - exact Hfirst.
  - intros _. apply Hopen. by rewrite Hc.
  - intros seen' j' Hc' Hin. destruct (failed (vars s)); [discriminate|].
    injection Hc' as <-. apply elem_of_cons in Hin as [->|Hin]; [eauto|].
    exact (Hseen seen j' Hc Hin).
  - intros why j' Hc'. destruct (failed (vars s)); [|discriminate].
    injection Hc' as <- <-. split; [lia|]. intros i Hi. lia.
  - intros why k ph' Hc'. destruct (failed (vars s)); discriminate.
  (* interrupt *)
  - exact Hfirst.
  - intros _. apply Hopen. by rewrite Hc.
  - discriminate.
  - intros why j' [= <- <-]. split; [lia|]. intros i Hi. lia.
  - discriminate.
  (* cancel *)
  - destruct (Hcanc why j Hc) as [Hj1 Hq].
    assert (Hzero : exists r, futures s !! 0%nat = Some (Finished r))
      by (apply Hopen; by rewrite Hc).
    intros k phk Hk1 Hk Hne. destruct Hzero as [r Hr]. exists r.
    destruct ph; try exact Hr. rewrite list_lookup_insert_ne by lia. exact Hr.
  - destruct (Hcanc why j Hc) as [Hj1 Hq].
    intros _. destruct (Hopen ltac:(by rewrite Hc)) as [r Hr]. exists r.
    destruct ph; try exact Hr. rewrite list_lookup_insert_ne by lia. exact Hr.
  - discriminate.
  - destruct (Hcanc why j Hc) as [Hj1 Hq].
    intros why' j' [= <- <-]. split; [lia|]. intros i Hi Hi'.
    destruct (decide (i = j)) as [->|Hne].
    + destruct ph; try congruence.
      rewrite list_lookup_insert_eq in Hi' by eauto using lookup_lt_Some.
      discriminate Hi'.
    + assert (futures s !! i = Some Queued).
      { destruct ph; try exact Hi'. by rewrite list_lookup_insert_ne in Hi'. }
      apply (Hq i); [lia|assumption].
  - discriminate.
  (* leave *)
  - exact Hfirst.
  - intros [].
  - discriminate.
  - discriminate.
  - intros why' k ph _ Hk. exact (Hall k ph Hk).
  (* finish *)
  - exact Hfirst.
  - destruct (data (vars s)); intros [].
  - destruct (data (vars s)); discriminate.
  - destruct (data (vars s)); discriminate.
  - destruct (data (vars s)); discriminate.
Qed.

Lemma reachable_ok (chunks : Z) (s : session) : reachable chunks s -> session_ok s.
Proof.
  induction 1 as [|s e s' _ IH Hstep]; [apply session_ok_init|].
  exact (session_ok_step s s' e IH Hstep).
Qed.

(** C2. In every session and under every interleaving, [current_chunk]
    changes only when the call for chunk k, having received its response,
    stores k + 1 over k, with all earlier calls already past their own
    increment; the producer of chunk k ends (and the POST can complete) only
    after its last slice and with [current_chunk = k]; a call past its
    increment stays so; and no pool call leaves the queue before the call
    for chunk 0 has returned. *)
Theorem cursor_advances_in_order (chunks : Z) (s s' : session) (e : event) :
  reachable chunks s -> step s e s' ->
  (current_chunk (vars s') <> current_chunk (vars s) ->
     exists k r,
       e = Run k
       /\ futures s !! k = Some (Loaded r (Z.of_nat k))
       /\ futures s' !! k = Some (Stored r)
       /\ current_chunk (vars s) = Z.of_nat k
       /\ current_chunk (vars s') = Z.of_nat k + 1
       /\ forall j ph, (j < k)%nat -> futures s !! j = Some ph -> advanced ph = true)
  /\ (forall k offset,
        futures s !! k = Some (Sending offset) ->
        futures s' !! k = Some Posting ->
        e = Run k
        /\ body_size k <= offset
        /\ (exists n, 0 <= n /\ offset = n * update_tick)
        /\ current_chunk (vars s) = Z.of_nat k)
  /\ (forall k ph, futures s !! k = Some ph -> advanced ph = true ->
        exists ph', futures s' !! k = Some ph' /\ advanced ph' = true)
  /\ (forall k ph, (1 <= k)%nat -> futures s' !! k = Some ph -> ph <> Queued ->
        exists r, futures s' !! 0%nat = Some (Finished r)).
Proof.
  intros Hreach Hstep.
  pose proof (reachable_ok chunks s Hreach) as Hok.
  pose proof (session_ok_step s s' e Hok Hstep) as Hok'.
  destruct Hok as [[Hadv Hgate Hload _ _ Hoff] _ _ _ _ _].
  split; [|split; [|split]].
  - intros Hcur. destruct Hstep; cbn in *; try congruence.
    match goal with Hw : Upload.upload_chunk_step _ _ _ _ _ _ |- _ =>
      destruct Hw; cbn in *; try congruence end.
    match goal with Hk : futures s !! k = Some (Loaded _ _) |- _ =>
      pose proof (Hload _ _ _ Hk) as Htmp; pose proof (Hgate _ _ Hk eq_refl) as Hcurk;
      pose proof (lookup_lt_Some _ _ _ Hk) as Hlen end.
    exists k, r. subst tmp. rewrite Hcurk in *.
    repeat (split; [first [reflexivity|assumption
                          |by rewrite list_lookup_insert_eq]|]).
    intros j ph Hj Hph. apply (Hadv j ph Hph). lia.
  - intros k offset Hk Hk'.
    destruct Hstep; cbn in *; try congruence;
      try (apply lookup_changed in Hk' as [[_ ?]|[_ ?]]; congruence).
    + apply lookup_changed in Hk' as [[-> <-]|[_ ?]]; [|congruence].
      match goal with H : futures s !! _ = Some ph |- _ =>
        rewrite Hk in H; injection H as <- end.
      match goal with Hw : Upload.upload_chunk_step _ _ _ _ _ _ |- _ =>
        inversion Hw; subst end.
      split; [reflexivity|]. split; [lia|]. split; [eauto|]. congruence.
    + destruct ph; try congruence.
      apply lookup_changed in Hk' as [[_ ?]|[_ ?]]; congruence.
  - intros k ph Hk Hph.
    destruct (step_change s s' e Hstep)
      as [[_ ->]|(k0 & ph0 & ph0' & Hk0 & Hch & -> & _)]; [eauto|].
    destruct (decide (k = k0)) as [->|Hne].
    + rewrite Hk in Hk0. injection Hk0 as <-.
      exists ph0'. rewrite list_lookup_insert_eq by eauto using lookup_lt_Some.
      split; [reflexivity|].
      destruct Hch as [?|?|? ? ? ? Hw]; [discriminate Hph..|].
      destruct Hw; cbn in *; congruence.
    + exists ph. by rewrite list_lookup_insert_ne.
  - exact (s_first s' Hok').
Qed.

(** A call that has ended stays as it is. *)
Lemma step_keeps_settled (s s' : session) (e : event) (k : nat) (ph : phase) :
  step s e s' -> futures s !! k = Some ph -> settled ph = true ->
  futures s' !! k = Some ph.
Proof.
  intros Hstep Hk Hset.
  destruct (step_change s s' e Hstep)
    as [[_ ->]|(k0 & ph0 & ph0' & Hk0 & Hch & -> & _)]; [exact Hk|].
  destruct (decide (k = k0)) as [->|Hne]; [|by rewrite list_lookup_insert_ne].
  rewrite Hk in Hk0. injection Hk0 as <-.
  destruct Hch as [?|?|? ? ? ? Hw]; [discriminate Hset..|].
  destruct Hw; discriminate Hset.
Qed.

(** C3, amended.  In every session: once a call has handled a response
    with a truthy 'status', or without one, the flag is set; the loop of
    [upload], when it finds the flag set after a completed future, turns to
    cancelling; from there it calls [cancel()] on the futures in turn, which
    takes every one that is still pending out of the queue for good, while
    the calls that run go on and a pending call that [cancel()] has not
    reached yet can still be started; when all futures have been gone
    through and no call is pending or running it leaves; and after it has
    left with [None] no call is pending or running, and nothing happens any
    more. *)
Theorem failure_flag_cancels (chunks : Z) (s : session) :
  reachable chunks s ->
  (forall k r, futures s !! k = Some (Finished r) ->
     r !! "status"%string = None
     \/ (exists v, r !! "status"%string = Some v /\ truthy v = true) ->
     failed (vars s) = true)
  /\ (forall j s', step s (Observe j) s' -> failed (vars s) = true ->
        coordinator s' = Cancelling Failure 1)
  /\ (forall j, coordinator s = Cancelling Failure j ->
        (forall i, (1 <= i < j)%nat -> futures s !! i <> Some Queued)
        /\ (forall e s', step s e s' ->
              (exists k, e = Start k \/ e = Run k)
              \/ (e = Cancel j
                  /\ coordinator s' = Cancelling Failure (S j)
                  /\ futures s' !! j <> Some Queued
                  /\ (futures s !! j = Some Queued ->
                      futures s' !! j = Some Cancelled))
              \/ (e = Leave /\ coordinator s' = ReturnedNone Failure))
        /\ ((j < length (futures s))%nat -> exists s', step s (Cancel j) s')
        /\ ((length (futures s) <= j)%nat ->
            (forall i ph, futures s !! i = Some ph -> settled ph = true) ->
            step s Leave (set_coord (ReturnedNone Failure) s)))
  /\ (forall k e s', futures s !! k = Some Cancelled -> step s e s' ->
        futures s' !! k = Some Cancelled)
  /\ (coordinator s = ReturnedNone Failure ->
        (forall k ph, futures s !! k = Some ph -> settled ph = true)
        /\ forall e s', ~ step s e s').
Proof.
  intros Hreach. pose proof (reachable_ok chunks s Hreach) as Hok.
  split.
  { intros k r Hk Hstatus. apply (ok_failed _ _ (s_calls s Hok) k r Hk).
    unfold reports_failure.
    destruct Hstatus as [-> | (v & -> & Hv)]; [reflexivity|exact Hv]. }
  split; [|split; [|split]].
  - intros j s' Hstep Hfailed. inversion Hstep; subst. cbn. by rewrite Hfailed.
  - intros j Hc. split; [exact (proj2 (s_cancelling s Hok Failure j Hc))|].
    split; [|split].
    + intros e s' Hstep.
      destruct Hstep; try (left; eauto; fail); try congruence.
      * right. left.
        match goal with H : coordinator s = Cancelling _ _ |- _ =>
          rewrite Hc in H; injection H as <- <- end.
        split; [reflexivity|]. split; [reflexivity|]. cbn.
        match goal with H : futures s !! j = Some ?p |- _ =>
          pose proof (lookup_lt_Some _ _ _ H) as Hlt;
          destruct p; try (split; congruence) end.
        rewrite list_lookup_insert_eq by exact Hlt. split; [discriminate|reflexivity].
      * right. right.
        match goal with H : coordinator s = Cancelling _ _ |- _ =>
          rewrite Hc in H; injection H as <- <- end.
        split; reflexivity.
    + intros Hj. destruct (lookup_lt_is_Some_2 (futures s) j Hj) as [ph Hph].
      eexists. exact (cancel thread_num body_size s Failure j ph Hc Hph).
    + intros Hj Hall. exact (leave thread_num body_size s Failure j Hc Hj Hall).
  - intros k e s' Hk Hstep. exact (step_keeps_settled s s' e k Cancelled Hstep Hk eq_refl).
  - intros Hc. split; [intros k ph; exact (s_returned s Hok Failure k ph Hc)|].
    intros e s' Hstep.
    destruct Hstep; try congruence.
    + match goal with H : pool_open _ |- _ => rewrite Hc in H; destruct H end.
    + match goal with
        Hk : futures s !! _ = Some ?p, Hw : Upload.upload_chunk_step _ _ _ _ _ _ |- _ =>
          pose proof (s_returned s Hok Failure _ _ Hc Hk) as Hset;
          destruct (worker_step_running _ _ _ _ _ Hw) as [Hrun _];
          destruct p; discriminate
      end.
Qed.

(** C10. When the loop of [upload] has seen every future without finding
    the flag set, and no finished call had a response with a 'url' key,
    then [self.data] is still [None] and the final check raises
    [TypeError] (on ['url' not in None]). *)
Theorem missing_url_raises_type_error (chunks : Z) (s : session) (seen : list nat) :
  reachable chunks s ->
  coordinator s = Pool seen ->
  (forall j, (1 <= j < length (futures s))%nat -> j ∈ seen) ->
  (forall k r, futures s !! k = Some (Finished r) -> has_url r = false) ->
  data (vars s) = None
  /\ step s Finish (set_coord RaisedTypeError s)
  /\ forall s', step s Finish s' -> coordinator s' = RaisedTypeError.
Proof.
  intros Hreach Hc Hall Hnourl.
  pose proof (reachable_ok chunks s Hreach) as Hok.
  assert (Hdata : data (vars s) = None).
  { destruct (data (vars s)) as [d|] eqn:Hd; [exfalso|reflexivity].
    destruct (ok_data _ _ (s_calls s Hok) d Hd) as (Hurl & k & ph & Hk & Hholds).
    assert (Hdone : completed ph = true).
    { destruct k as [|k].
      - destruct (s_open s Hok) as [r Hr]; [by rewrite Hc|].
        rewrite Hk in Hr. by injection Hr as ->.
      - destruct (s_seen s Hok seen (S k) Hc) as (_ & ph' & Hk' & Hdone).
        { apply Hall. apply lookup_lt_Some in Hk. lia. }
        congruence. }
    destruct Hholds as [-> | ->]; [discriminate Hdone|].
    rewrite (Hnourl _ _ Hk) in Hurl. discriminate Hurl. }
  split; [exact Hdata|]. split.
  - pose proof (finish thread_num body_size s seen Hc Hall) as Hfin.
    by rewrite Hdata in Hfin.
  - intros s' Hstep. inversion Hstep; subst. cbn. by rewrite Hdata.
Qed.

End SessionFacts.

(** ** A call from its start to its end *)

Section SessionSteps.
Import Py Upload.

Variable thread_num : Z.
Variable body_size : nat -> Z.

(** A call that has started and whose turn it is goes through: one slice,
    the end of the producer, the response [r], the increment and the two
    records. *)
Lemma call_runs (chunks : Z) (s : session) (k : nat) (r : response) :
  reachable thread_num body_size chunks s ->
  futures s !! k = Some (Sending 0) ->
  current_chunk (vars s) = Z.of_nat k ->
  0 < body_size k <= update_tick ->
  reachable thread_num body_size chunks
    {| vars := {| current_chunk := Z.of_nat k + 1;
                  data := if has_url r then Some r else data (vars s);
                  failed := if reports_failure r then true else failed (vars s) |};
       futures := <[k := Finished r]> (futures s);
       coordinator := coordinator s |}.
Proof.
  intros Hreach Hk Hcur Hsize.
  pose proof (lookup_lt_Some _ _ _ Hk) as Hlt.
  assert (Hnext : forall sh ph sh' ph',
            upload_chunk_step body_size k sh ph sh' ph' ->
            reachable thread_num body_size chunks
              {| vars := sh; futures := <[k := ph]> (futures s);
                 coordinator := coordinator s |} ->
            reachable thread_num body_size chunks
              {| vars := sh'; futures := <[k := ph']> (futures s);
                 coordinator := coordinator s |}).
  { intros sh ph sh' ph' Hw Hr.
    rewrite <- (list_insert_insert_eq (futures s) k ph' ph).
    apply (reach_step _ _ _ _ (Run k) _ Hr).
    apply (worker_run thread_num body_size
             {| vars := sh; futures := <[k := ph]> (futures s);
                coordinator := coordinator s |} k ph sh' ph'); [|exact Hw].
    cbn. by apply list_lookup_insert_eq. }
  assert (H0 : reachable thread_num body_size chunks
                 {| vars := vars s; futures := <[k := Sending 0]> (futures s);
                    coordinator := coordinator s |}).
  { rewrite list_insert_id by exact Hk. by destruct s. }
  destruct (vars s) as [cur d f] eqn:Hvars. cbn in Hcur. subst cur. cbn [data failed].
  set (v0 := {| current_chunk := Z.of_nat k; data := d; failed := f |}) in *.
  set (v1 := {| current_chunk := Z.of_nat k + 1; data := d; failed := f |}).
  set (v2 := {| current_chunk := Z.of_nat k + 1;
                data := if has_url r then Some r else d; failed := f |}).
  apply (Hnext v2 (Recorded r) _ _ (record_status body_size k v2 r)).
  apply (Hnext v1 (Stored r) _ _ (record_url body_size k v1 r)).
  apply (Hnext v0 (Loaded r (Z.of_nat k)) _ _
           (cursor_store body_size k v0 r (Z.of_nat k))).
  apply (Hnext v0 (Responded r) _ _ (cursor_load body_size k v0 r)).
  apply (Hnext v0 Posting _ _ (post_returns body_size k v0 r)).
  apply (Hnext v0 (Sending (0 + update_tick)) v0 Posting);
    [apply gen_break; cbn; lia|].
  apply (Hnext v0 (Sending 0) v0 (Sending (0 + update_tick)));
    [apply gen_yield; lia|].
  exact H0.
Qed.

(** The same call when [resp.json()] raises. *)
Lemma call_crashes (chunks : Z) (s : session) (k : nat) :
  reachable thread_num body_size chunks s ->
  futures s !! k = Some (Sending 0) ->
  current_chunk (vars s) = Z.of_nat k ->
  0 < body_size k <= update_tick ->
  reachable thread_num body_size chunks
    {| vars := vars s; futures := <[k := Crashed]> (futures s);
       coordinator := coordinator s |}.
Proof.
  intros Hreach Hk Hcur Hsize.
  assert (Hnext : forall ph ph',
            upload_chunk_step body_size k (vars s) ph (vars s) ph' ->
            reachable thread_num body_size chunks
              {| vars := vars s; futures := <[k := ph]> (futures s);
                 coordinator := coordinator s |} ->
            reachable thread_num body_size chunks
              {| vars := vars s; futures := <[k := ph']> (futures s);
                 coordinator := coordinator s |}).
  { intros ph ph' Hw Hr.
    pose proof (lookup_lt_Some _ _ _ Hk) as Hlt.
    rewrite <- (list_insert_insert_eq (futures s) k ph' ph).
    apply (reach_step _ _ _ _ (Run k) _ Hr).
    apply (worker_run thread_num body_size
             {| vars := vars s; futures := <[k := ph]> (futures s);
                coordinator := coordinator s |} k ph (vars s) ph'); [|exact Hw].
    cbn. by apply list_lookup_insert_eq. }
  apply (Hnext Posting); [apply json_raises|].
  apply (Hnext (Sending (0 + update_tick))); [apply gen_break; cbn; lia|].
  apply (Hnext (Sending 0)); [apply gen_yield; lia|].
  rewrite list_insert_id by exact Hk. by destruct s.
Qed.

End SessionSteps.

(** ** Sessions of one, two and three chunks, step by step *)

Section LoneSession.
Import Py Upload.

Lemma lone_reaches_gate :
  reachable 4 size_300 1 (lone 0 None false Posting First).
Proof.
  eapply reach_step with (s := lone 0 None false (Sending 131072) First).
  eapply reach_step with (s := lone 0 None false (Sending 0) First).
  eapply reach_step with (s := lone 0 None false Queued First).
  - apply reach_init.
  - apply (first_start 4 size_300 (lone 0 None false Queued First)); reflexivity.
  - apply (worker_run 4 size_300 (lone 0 None false (Sending 0) First) 0%nat
             (Sending 0) _ (Sending (0 + update_tick))); [reflexivity|].
    apply gen_yield. reflexivity.
  - apply (worker_run 4 size_300 (lone 0 None false (Sending 131072) First) 0%nat
             (Sending 131072) _ Posting); [reflexivity|].
    apply gen_break; [discriminate|reflexivity].
Qed.

Lemma lone_reaches_store :
  reachable 4 size_300 1 (lone 0 None false (Loaded refusal 0) First).
Proof.
  eapply reach_step with (s := lone 0 None false (Responded refusal) First).
  eapply reach_step with (s := lone 0 None false Posting First).
  - exact lone_reaches_gate.
  - apply (worker_run 4 size_300 (lone 0 None false Posting First) 0%nat
             Posting _ (Responded refusal)); [reflexivity|].
    apply post_returns.
  - apply (worker_run 4 size_300 (lone 0 None false (Responded refusal) First) 0%nat
             (Responded refusal) _ (Loaded refusal 0)); [reflexivity|].
    apply (cursor_load size_300 0 {| current_chunk := 0; data := None; failed := false |}).
Qed.

Lemma lone_store_step :
  upload_step 4 size_300 (lone 0 None false (Loaded refusal 0) First) (Run 0)
    (lone 1 None false (Stored refusal) First).
Proof.
  apply (worker_run 4 size_300 (lone 0 None false (Loaded refusal 0) First) 0%nat
           (Loaded refusal 0) _ (Stored refusal)); [reflexivity|].
  apply (cursor_store size_300 0 {| current_chunk := 0; data := None; failed := false |}).
Qed.

Lemma lone_reaches_pool :
  reachable 4 size_300 1 (lone 1 None true (Finished refusal) (Pool [])).
Proof.
  eapply reach_step with (s := lone 1 None true (Finished refusal) First).
  eapply reach_step with (s := lone 1 None false (Recorded refusal) First).
  eapply reach_step with (s := lone 1 None false (Stored refusal) First).
  eapply reach_step with (s := lone 0 None false (Loaded refusal 0) First).
  - exact lone_reaches_store.
  - exact lone_store_step.
  - apply (worker_run 4 size_300 (lone 1 None false (Stored refusal) First) 0%nat
             (Stored refusal) _ (Recorded refusal)); [reflexivity|].
    apply (record_url size_300 0 {| current_chunk := 1; data := None; failed := false |}).
  - apply (worker_run 4 size_300 (lone 1 None false (Recorded refusal) First) 0%nat
             (Recorded refusal) _ (Finished refusal)); [reflexivity|].
    apply (record_status size_300 0 {| current_chunk := 1; data := None; failed := false |}).
  - apply (first_done 4 size_300 (lone 1 None true (Finished refusal) First) refusal);
      reflexivity.
Qed.

(** With two chunks and the first one refused, the second is still sent
    (and accepted, with a URL); the loop then finds the flag, cancels and
    leaves with [None]. *)
Lemma duo_first_refused :
  reachable 4 size_300 2 (duo 1 None true (Finished refusal) Queued (Pool [])).
Proof.
  eapply reach_step with (s := duo 1 None true (Finished refusal) Queued First).
  eapply reach_step with (s := duo 1 None false (Recorded refusal) Queued First).
  eapply reach_step with (s := duo 1 None false (Stored refusal) Queued First).
  eapply reach_step with (s := duo 0 None false (Loaded refusal 0) Queued First).
  eapply reach_step with (s := duo 0 None false (Responded refusal) Queued First).
  eapply reach_step with (s := duo 0 None false Posting Queued First).
  eapply reach_step with (s := duo 0 None false (Sending 131072) Queued First).
  eapply reach_step with (s := duo 0 None false (Sending 0) Queued First).
  eapply reach_step with (s := duo 0 None false Queued Queued First).
  - apply reach_init.
  - apply (first_start 4 size_300 (duo 0 None false Queued Queued First)); reflexivity.
  - apply (worker_run 4 size_300 (duo 0 None false (Sending 0) Queued First) 0%nat
             (Sending 0) _ (Sending (0 + update_tick))); [reflexivity|].
    apply gen_yield. reflexivity.
  - apply (worker_run 4 size_300 (duo 0 None false (Sending 131072) Queued First) 0%nat
             (Sending 131072) _ Posting); [reflexivity|].
    apply gen_break; [discriminate|reflexivity].
  - apply (worker_run 4 size_300 (duo 0 None false Posting Queued First) 0%nat
             Posting _ (Responded refusal)); [reflexivity|].
    apply post_returns.
  - apply (worker_run 4 size_300 (duo 0 None false (Responded refusal) Queued First)
             0%nat (Responded refusal) _ (Loaded refusal 0)); [reflexivity|].
    apply (cursor_load size_300 0 {| current_chunk := 0; data := None; failed := false |}).
  - apply (worker_run 4 size_300 (duo 0 None false (Loaded refusal 0) Queued First)
             0%nat (Loaded refusal 0) _ (Stored refusal)); [reflexivity|].
    apply (cursor_store size_300 0 {| current_chunk := 0; data := None; failed := false |}).
  - apply (worker_run 4 size_300 (duo 1 None false (Stored refusal) Queued First)
             0%nat (Stored refusal) _ (Recorded refusal)); [reflexivity|].
    apply (record_url size_300 0 {| current_chunk := 1; data := None; failed := false |}).
  - apply (worker_run 4 size_300 (duo 1 None false (Recorded refusal) Queued First)
             0%nat (Recorded refusal) _ (Finished refusal)); [reflexivity|].
    apply (record_status size_300 0
             {| current_chunk := 1; data := None; failed := false |}).
  - apply (first_done 4 size_300 (duo 1 None true (Finished refusal) Queued First)
             refusal); reflexivity.
Qed.

(** The second call, in the pool, has received its response and read
    [current_chunk]. *)
Lemma duo_second_loaded :
  reachable 4 size_300 2
    (duo 1 None true (Finished refusal) (Loaded accepted 1) (Pool [])).
Proof.
  pose (f0 := Finished refusal).
  eapply reach_step with (s := duo 1 None true f0 (Responded accepted) (Pool [])).
  eapply reach_step with (s := duo 1 None true f0 Posting (Pool [])).
  eapply reach_step with (s := duo 1 None true f0 (Sending 131072) (Pool [])).
  eapply reach_step with (s := duo 1 None true f0 (Sending 0) (Pool [])).
  eapply reach_step with (s := duo 1 None true f0 Queued (Pool [])).
  - exact duo_first_refused.
  - apply (pool_start 4 size_300 (duo 1 None true f0 Queued (Pool [])) 1%nat);
      [lia|exact I|reflexivity|reflexivity|intros j Hj; lia].
  - apply (worker_run 4 size_300 (duo 1 None true f0 (Sending 0) (Pool [])) 1%nat
             (Sending 0) _ (Sending (0 + update_tick))); [reflexivity|].
    apply gen_yield. reflexivity.
  - apply (worker_run 4 size_300 (duo 1 None true f0 (Sending 131072) (Pool [])) 1%nat
             (Sending 131072) _ Posting); [reflexivity|].
    apply gen_break; [discriminate|reflexivity].
  - apply (worker_run 4 size_300 (duo 1 None true f0 Posting (Pool [])) 1%nat
             Posting _ (Responded accepted)); [reflexivity|].
    apply post_returns.
  - apply (worker_run 4 size_300 (duo 1 None true f0 (Responded accepted) (Pool []))
             1%nat (Responded accepted) _ (Loaded accepted 1)); [reflexivity|].
    apply (cursor_load size_300 1 {| current_chunk := 1; data := None; failed := true |}).
Qed.

Lemma duo_store_step :
  upload_step 4 size_300
    (duo 1 None true (Finished refusal) (Loaded accepted 1) (Pool [])) (Run 1)
    (duo 2 None true (Finished refusal) (Stored accepted) (Pool [])).
Proof.
  apply (worker_run 4 size_300
           (duo 1 None true (Finished refusal) (Loaded accepted 1) (Pool []))
           1%nat (Loaded accepted 1) _ (Stored accepted)); [reflexivity|].
  apply (cursor_store size_300 1 {| current_chunk := 1; data := None; failed := true |}).
Qed.

Lemma cursor_advances_in_order_witness :
  exists k r,
    Run 1 = Run k
    /\ futures (duo 1 None true (Finished refusal) (Loaded accepted 1) (Pool [])) !! k
       = Some (Loaded r (Z.of_nat k))
    /\ futures (duo 2 None true (Finished refusal) (Stored accepted) (Pool [])) !! k
       = Some (Stored r)
    /\ current_chunk
         (vars (duo 1 None true (Finished refusal) (Loaded accepted 1) (Pool [])))
       = Z.of_nat k
    /\ current_chunk
         (vars (duo 2 None true (Finished refusal) (Stored accepted) (Pool [])))
       = Z.of_nat k + 1
    /\ forall j ph, (j < k)%nat ->
         futures (duo 1 None true (Finished refusal) (Loaded accepted 1) (Pool [])) !! j
         = Some ph ->
         advanced ph = true.
Proof.
  apply (proj1 (cursor_advances_in_order 4 size_300 2 _ _ _
                  duo_second_loaded duo_store_step)).
  discriminate.
Defined.

Lemma duo_second_accepted :
  reachable 4 size_300 2
    (duo 2 (Some accepted) true (Finished refusal) (Finished accepted) (Pool [])).
Proof.
  pose (f0 := Finished refusal).
  eapply reach_step with (s := duo 2 (Some accepted) true f0 (Recorded accepted) (Pool [])).
  eapply reach_step with (s := duo 2 None true f0 (Stored accepted) (Pool [])).
  - eapply reach_step; [exact duo_second_loaded|exact duo_store_step].
  - apply (worker_run 4 size_300 (duo 2 None true f0 (Stored accepted) (Pool []))
             1%nat (Stored accepted) _ (Recorded accepted)); [reflexivity|].
    apply (record_url size_300 1 {| current_chunk := 2; data := None; failed := true |}).
  - apply (worker_run 4 size_300
             (duo 2 (Some accepted) true f0 (Recorded accepted) (Pool []))
             1%nat (Recorded accepted) _ (Finished accepted)); [reflexivity|].
    apply (record_status size_300 1
             {| current_chunk := 2; data := Some accepted; failed := true |}).
Qed.

Lemma duo_returns_none :
  reachable 4 size_300 2
    (duo 2 (Some accepted) true (Finished refusal) (Finished accepted)
       (ReturnedNone Failure)).
Proof.
  pose (f0 := Finished refusal). pose (f1 := Finished accepted).
  eapply reach_step with (s := duo 2 (Some accepted) true f0 f1 (Cancelling Failure 2)).
  eapply reach_step with (s := duo 2 (Some accepted) true f0 f1 (Cancelling Failure 1)).
  eapply reach_step with (s := duo 2 (Some accepted) true f0 f1 (Pool [])).
  - exact duo_second_accepted.
  - apply (observe 4 size_300 (duo 2 (Some accepted) true f0 f1 (Pool [])) []
             1%nat f1); [reflexivity|lia|apply not_elem_of_nil|reflexivity..].
  - apply (cancel 4 size_300 (duo 2 (Some accepted) true f0 f1 (Cancelling Failure 1))
             Failure 1%nat f1); reflexivity.
  - apply (leave 4 size_300 (duo 2 (Some accepted) true f0 f1 (Cancelling Failure 2))
             Failure 2%nat); [reflexivity|cbn; lia|].
    intros [|[|i]] ph Hph; cbn in Hph; try discriminate Hph;
      injection Hph as <-; reflexivity.
Qed.

(** Three chunks on one pool thread, the first refused, the second
    accepted: [upload] has observed the flag and is about to cancel, and
    the call for chunk 2 is still pending. *)
Lemma trio_flag_observed :
  reachable 1 size_300 3
    (trio 2 (Some accepted) true (Finished refusal) (Finished accepted) Queued
       (Cancelling Failure 1)).
Proof.
  pose (f0 := Finished refusal). pose (f1 := Finished accepted).
  assert (Hsize : forall k, 0 < size_300 k <= update_tick)
    by (intros k; unfold size_300, update_tick; lia).
  assert (H0 : reachable 1 size_300 3
                 (trio 0 None false (Sending 0) Queued Queued First)).
  { eapply reach_step; [apply reach_init|].
    apply (first_start 1 size_300 (trio 0 None false Queued Queued Queued First));
      reflexivity. }
  assert (H1 : reachable 1 size_300 3 (trio 1 None true f0 Queued Queued First))
    by exact (call_runs 1 size_300 3 _ 0 refusal H0 eq_refl eq_refl (Hsize _)).
  assert (H2 : reachable 1 size_300 3 (trio 1 None true f0 (Sending 0) Queued (Pool []))).
  { eapply reach_step with (s := trio 1 None true f0 Queued Queued (Pool [])).
    eapply reach_step; [exact H1|].
    - apply (first_done 1 size_300 (trio 1 None true f0 Queued Queued First) refusal);
        reflexivity.
    - apply (pool_start 1 size_300 (trio 1 None true f0 Queued Queued (Pool [])) 1%nat);
        [lia|exact I|reflexivity|reflexivity|intros j Hj; lia]. }
  assert (H3 : reachable 1 size_300 3 (trio 2 (Some accepted) true f0 f1 Queued (Pool [])))
    by exact (call_runs 1 size_300 3 _ 1 accepted H2 eq_refl eq_refl (Hsize _)).
  eapply reach_step; [exact H3|].
  apply (observe 1 size_300 (trio 2 (Some accepted) true f0 f1 Queued (Pool [])) []
           1%nat f1); [reflexivity|lia|apply not_elem_of_nil|reflexivity..].
Qed.

Lemma failure_flag_cancels_witness :
  ((forall k ph,
      futures (duo 2 (Some accepted) true (Finished refusal) (Finished accepted)
                 (ReturnedNone Failure)) !! k = Some ph ->
      settled ph = true)
   /\ forall e s',
        ~ upload_step 4 size_300
            (duo 2 (Some accepted) true (Finished refusal) (Finished accepted)
               (ReturnedNone Failure)) e s')
  /\ failed (vars (trio 2 (Some accepted) true (Finished refusal) (Finished accepted)
                     Queued (Cancelling Failure 1))) = true
  /\ exists s',
       upload_step 1 size_300
         (trio 2 (Some accepted) true (Finished refusal) (Finished accepted) Queued
            (Cancelling Failure 1))
         (Cancel 1) s'.
Proof.
  split; [|split].
  - apply (proj2 (proj2 (proj2 (proj2
             (failure_flag_cancels 4 size_300 2 _ duo_returns_none))))).
    reflexivity.
  - apply (proj1 (failure_flag_cancels 1 size_300 3 _ trio_flag_observed)
             0%nat refusal eq_refl).
    right. exists (JNum 1). split; reflexivity.
  - destruct (proj1 (proj2 (proj2
                (failure_flag_cancels 1 size_300 3 _ trio_flag_observed)))
                1%nat eq_refl) as (_ & _ & Hcancel & _).
    apply Hcancel. cbn. lia.
Defined.

(** C3, as stated, fails for three chunks on one pool thread.  Chunk 0
    is refused, which sets the flag; chunk 1 is uploaded; [upload] observes
    the flag after the future of chunk 1 and turns to cancelling; and
    before [cancel()] reaches the future of chunk 2, the pool thread, free
    again, starts the call for chunk 2: a further chunk is attempted. *)
Lemma chunk_started_after_failure :
  ~ (forall (thread_num : Z) (body_size : nat -> Z) (chunks : Z) (s s' : session)
       (j : nat) (e : event),
       reachable thread_num body_size chunks s ->
       coordinator s = Cancelling Failure j ->
       upload_step thread_num body_size s e s' ->
       forall k, e <> Start k).
Proof.
  intros H.
  apply (H 1 size_300 3
           (trio 2 (Some accepted) true (Finished refusal) (Finished accepted) Queued
              (Cancelling Failure 1))
           (trio 2 (Some accepted) true (Finished refusal) (Finished accepted)
              (Sending 0) (Cancelling Failure 1))
           1%nat (Start 2) trio_flag_observed eq_refl) with (k := 2%nat);
    [|reflexivity].
  apply (pool_start 1 size_300
           (trio 2 (Some accepted) true (Finished refusal) (Finished accepted) Queued
              (Cancelling Failure 1)) 2%nat);
    [lia|exact I|reflexivity|reflexivity|].
  intros j Hj. assert (j = 1%nat) as -> by lia. discriminate.
Qed.

Lemma missing_url_raises_type_error_witness :
  data (vars (lone 1 None true (Finished refusal) (Pool []))) = None
  /\ upload_step 4 size_300 (lone 1 None true (Finished refusal) (Pool [])) Finish
       (set_coord RaisedTypeError (lone 1 None true (Finished refusal) (Pool [])))
  /\ forall s',
       upload_step 4 size_300 (lone 1 None true (Finished refusal) (Pool [])) Finish s' ->
       coordinator s' = RaisedTypeError.
Proof.
  apply (missing_url_raises_type_error 4 size_300 1 _ [] lone_reaches_pool).
  - reflexivity.
  - intros j Hj. cbn in Hj. lia.
  - intros [|k] r Hk; [|discriminate Hk]. injection Hk as <-. reflexivity.
Defined.

End LoneSession.

(** ** How a session can end *)

Section SessionOutcomes.
Import Py Upload.

Variable thread_num : Z.
Variable body_size : nat -> Z.

Abbreviation step := (upload_step thread_num body_size).
Abbreviation reachable := (reachable thread_num body_size).

Lemma step_length (s s' : session) (e : event) :
  step s e s' -> length (futures s') = length (futures s).
Proof.
  intros H. destruct H; cbn; rewrite ?length_insert; try reflexivity.
  destruct ph; by rewrite ?length_insert.
Qed.

Lemma reachable_length (chunks : Z) (s : session) :
  reachable chunks s -> length (futures s) = Z.to_nat (Z.max 1 chunks).
Proof.
  induction 1 as [|s e s' _ IH Hstep]; [apply length_replicate|].
  by rewrite (step_length s s' e Hstep).
Qed.

(** A call whose [resp.json()] raised has left [current_chunk] at its own
    number, and there it stays: only the call in turn can move it. *)
Lemma crashed_cursor (chunks : Z) (s : session) :
  reachable chunks s ->
  forall k, futures s !! k = Some Crashed -> current_chunk (vars s) = Z.of_nat k.
Proof.
  induction 1 as [|s e s' Hreach IH Hstep]; intros k Hk.
  { cbn in Hk. apply lookup_replicate in Hk as [? _]. discriminate. }
  pose proof (reachable_ok thread_num body_size chunks s Hreach) as Hok.
  destruct (step_change thread_num body_size s s' e Hstep)
    as [[-> Hf]|(k0 & ph & ph' & Hk0 & Hch & Hf & _)]; rewrite Hf in Hk; [auto|].
  pose proof (ok_gate _ _ (s_calls s Hok) k0 ph Hk0) as Hgate.
  apply lookup_changed in Hk as [[-> <-]|[Hne Hk]].
  - inversion Hch as [?|?|? ? ? ? Hw]; subst.
    inversion Hw; subst. by apply Hgate.
  - specialize (IH k Hk).
    destruct Hch as [?|?|? ? ? ? Hw]; [exact IH..|].
    destruct Hw; cbn; try exact IH.
    specialize (Hgate eq_refl). lia.
Qed.

(** X7. A call that ends on an exception of [resp.json()] (line 154)
    never reaches the increment of line 155, and in every session this
    blocks the upload: [current_chunk] is the number of that call and no
    step changes it any more; no call for a later chunk has passed the
    wait of [gen()], incremented or completed; and the loop of [upload] can
    only run out of futures when the call that raised was the last one, and
    not the call for chunk 0. *)
Theorem crash_stops_cursor (chunks : Z) (s : session) (k : nat) :
  reachable chunks s ->
  futures s !! k = Some Crashed ->
  current_chunk (vars s) = Z.of_nat k
  /\ (forall j ph, (k < j)%nat -> futures s !! j = Some ph ->
        in_gate ph = false /\ advanced ph = false /\ completed ph = false)
  /\ (forall e s', step s e s' ->
        futures s' !! k = Some Crashed /\ current_chunk (vars s') = Z.of_nat k)
  /\ (forall s', step s Finish s' -> (1 <= k)%nat /\ S k = length (futures s)).
Proof.
  intros Hreach Hk.
  pose proof (reachable_ok thread_num body_size chunks s Hreach) as Hok.
  pose proof (crashed_cursor chunks s Hreach k Hk) as Hcur.
  assert (Hlater : forall j ph, (k < j)%nat -> futures s !! j = Some ph ->
            in_gate ph = false /\ advanced ph = false /\ completed ph = false).
  { intros j ph Hj Hph.
    pose proof (ok_gate _ _ (s_calls s Hok) j ph Hph) as Hgate.
    pose proof (ok_advanced _ _ (s_calls s Hok) j ph Hph) as Hadv.
    assert (Hnc : ph <> Crashed).
    { intros ->. pose proof (crashed_cursor chunks s Hreach j Hph). lia. }
    assert (Ha : advanced ph = false).
    { destruct (advanced ph); [|reflexivity]. destruct Hadv as [Hadv _].
      specialize (Hadv eq_refl). lia. }
    split; [|split; [exact Ha|]].
    - destruct (in_gate ph); [|reflexivity]. specialize (Hgate eq_refl). lia.
    - destruct ph; try reflexivity; [discriminate Ha|congruence]. }
  split; [exact Hcur|]. split; [exact Hlater|]. split.
  - intros e s' Hstep.
    pose proof (step_keeps_settled thread_num body_size s s' e k Crashed Hstep Hk eq_refl)
      as Hk'.
    split; [exact Hk'|].
    apply (crashed_cursor chunks s'); [|exact Hk'].
    by apply (reach_step thread_num body_size chunks s e s').
  - intros s' Hstep. inversion Hstep as [| | | | | | | | |s0 seen Hc Hall]; subst.
    destruct (s_open s Hok) as [r Hr]; [by rewrite Hc|].
    assert (Hk1 : (1 <= k)%nat).
    { destruct k; [congruence|lia]. }
    split; [exact Hk1|].
    pose proof (lookup_lt_Some _ _ _ Hk) as Hlen.
    destruct (decide (S k = length (futures s))) as [?|Hne]; [assumption|exfalso].
    destruct (s_seen s Hok seen (S k) Hc) as (_ & ph & Hph & Hdone); [apply Hall; lia|].
    destruct (Hlater (S k) ph ltac:(lia) Hph) as (_ & _ & Hnd). congruence.
Qed.

(** Past the loop, every call has run to its end, and [upload] is where
    the check of line 208 has sent it. *)
Lemma past_loop_settled (chunks : Z) (s : session) :
  reachable chunks s ->
  past_loop (coordinator s) ->
  (forall k ph, futures s !! k = Some ph -> completed ph = true)
  /\ coordinator s = final_check (data (vars s)).
Proof.
  induction 1 as [|s e s' Hreach IH Hstep]; intros Hfin.
  { destruct Hfin; discriminate. }
  pose proof (reachable_ok thread_num body_size chunks s Hreach) as Hok.
  destruct Hstep as
    [s Hc H0|s k Hk1 Hpo Hk Hbusy Hfifo|s k ph sh' ph' Hk Hw
    |s r Hc H0|s Hc H0|s seen j ph Hc Hj1 Hnew Hj Hdone|s seen Hc
    |s why j ph Hc Hj|s why j Hc Hlen Hall|s seen Hc Hall]; cbn in Hfin |- *.
  - rewrite Hc in Hfin. destruct Hfin; discriminate.
  - destruct Hfin as [E|E]; rewrite E in Hpo; destruct Hpo.
  - destruct (IH Hfin) as [Hall _]. apply Hall in Hk.
    destruct (worker_step_running _ _ _ _ _ _ Hw) as [Hrun _].
    destruct ph; discriminate.
  - destruct (0 <? thread_num); destruct Hfin; discriminate.
  - destruct Hfin; discriminate.
  - destruct (failed (vars s)); destruct Hfin; discriminate.
  - destruct Hfin; discriminate.
  - destruct Hfin; discriminate.
  - destruct Hfin; discriminate.
  - split; [|reflexivity]. intros [|k] ph Hph.
    + destruct (s_open s Hok) as [r Hr]; [by rewrite Hc|].
      rewrite Hph in Hr. by injection Hr as ->.
    + destruct (s_seen s Hok seen (S k) Hc) as (_ & ph' & Hph' & Hdone).
      { apply Hall. apply lookup_lt_Some in Hph. lia. }
      congruence.
Qed.

(** With two chunks or more, a flag that is set while the loop runs has a
    future that the loop has not seen yet. *)
Lemma pool_failed_pending (chunks : Z) (s : session) (seen : list nat) :
  reachable chunks s -> 2 <= chunks ->
  coordinator s = Pool seen -> failed (vars s) = true ->
  exists j, (1 <= j < length (futures s))%nat /\ j ∉ seen.
Proof.
  intros Hreach Hchunks. revert seen.
  induction Hreach as [|s e s' Hreach IH Hstep]; intros seen' Hc' Hfailed.
  { discriminate. }
  pose proof (reachable_ok thread_num body_size chunks s Hreach) as Hok.
  pose proof (reachable_length chunks s Hreach) as Hlen.
  rewrite (step_length s s' e Hstep).
  destruct Hstep as
    [s Hc H0|s k Hk1 Hpo Hk Hbusy Hfifo|s k ph sh' ph' Hk Hw
    |s r Hc H0|s Hc H0|s seen j ph Hc Hj1 Hnew Hj Hdone|s seen Hc
    |s why j ph Hc Hj|s why j Hc Hlen' Hall|s seen Hc Hall]; cbn in Hc', Hfailed.
  - congruence.
  - by apply IH.
  - destruct (failed (vars s)) eqn:Hf; [by apply IH|].
    inversion Hw; subst; cbn in Hfailed; try congruence.
    exists k. pose proof (lookup_lt_Some _ _ _ Hk).
    destruct (s_open s Hok) as [r0 Hr0]; [by rewrite Hc'|].
    split; [split; [|assumption]|].
    + destruct k; [congruence|lia].
    + intros Hin. destruct (s_seen s Hok seen' k Hc' Hin) as (_ & ph & Hph & Hdone).
      rewrite Hk in Hph. injection Hph as <-. discriminate Hdone.
  - destruct (0 <? thread_num); [|discriminate]. injection Hc' as <-.
    exists 1%nat. split; [lia|apply not_elem_of_nil].
  - discriminate.
  - destruct (failed (vars s)); [discriminate|discriminate].
  - discriminate.
  - discriminate.
  - discriminate.
  - destruct (data (vars s)); discriminate.
Qed.

(** X8. With two chunks or more the loop of [upload] misses no failure:
    while it runs, a set flag always has a future that line 187 has still
    to yield, so line 188 will see the flag; and when [upload] is past the
    loop (lines 204 to 210) the flag is not set and every call has run to
    its end. *)
Theorem failure_never_missed (chunks : Z) (s : session) :
  reachable chunks s -> 2 <= chunks ->
  (forall seen, coordinator s = Pool seen -> failed (vars s) = true ->
     exists j, (1 <= j < length (futures s))%nat /\ j ∉ seen)
  /\ (past_loop (coordinator s) ->
      failed (vars s) = false
      /\ forall k ph, futures s !! k = Some ph -> completed ph = true).
Proof.
  intros Hreach Hchunks.
  split; [intros seen; by apply (pool_failed_pending chunks)|].
  intros Hfin. split; [|exact (proj1 (past_loop_settled chunks s Hreach Hfin))].
  destruct Hreach as [|s e s' Hreach Hstep]; [destruct Hfin; discriminate|].
  pose proof (reachable_ok thread_num body_size chunks s Hreach) as Hok.
  destruct Hstep as
    [s Hc H0|s k Hk1 Hpo Hk Hbusy Hfifo|s k ph sh' ph' Hk Hw
    |s r Hc H0|s Hc H0|s seen j ph Hc Hj1 Hnew Hj Hdone|s seen Hc
    |s why j ph Hc Hj|s why j Hc Hlen Hall|s seen Hc Hall]; cbn in Hfin |- *.
  - rewrite Hc in Hfin. destruct Hfin; discriminate.
  - destruct Hfin as [E|E]; rewrite E in Hpo; destruct Hpo.
  - destruct (past_loop_settled chunks s Hreach Hfin) as [Hall _]. apply Hall in Hk.
    destruct (worker_step_running _ _ _ _ _ _ Hw) as [Hrun _].
    destruct ph; discriminate.
  - destruct (0 <? thread_num); destruct Hfin; discriminate.
  - destruct Hfin; discriminate.
  - destruct (failed (vars s)); destruct Hfin; discriminate.
  - destruct Hfin; discriminate.
  - destruct Hfin; discriminate.
  - destruct Hfin; discriminate.
  - destruct (failed (vars s)) eqn:Hfailed; [exfalso|reflexivity].
    destruct (pool_failed_pending chunks s seen Hreach Hchunks Hc Hfailed)
      as (j & Hj & Hnew).
    exact (Hnew (Hall j Hj)).
Qed.

(** X9. [upload()] followed by [get_download_page()]: when [upload] has
    returned [self], [self.data] is the response of a call that has run to
    its end, it has a 'url' key, and [get_download_page] then returns that
    URL, for a source file of up to 2^89 bytes and a logarithm of the
    platform that is accurate to a relative 2^-40. *)
Theorem upload_then_download_page (math_log : Z -> PyFloat.float) (chunks : Z)
  (s : session) (n : Z) :
  PyFloat.log_accurate math_log ->
  reachable chunks s ->
  coordinator s = ReturnedSelf ->
  0 <= n <= 2 ^ 89 ->
  exists d url k,
    data (vars s) = Some d
    /\ futures s !! k = Some (Finished d)
    /\ d !! "url"%string = Some url
    /\ get_download_page math_log (data (vars s)) (Some n) = Ok (Some url).
Proof.
  intros Hacc Hreach Hc Hn.
  pose proof (reachable_ok thread_num body_size chunks s Hreach) as Hok.
  destruct (past_loop_settled chunks s Hreach) as [Hall Hcheck]; [left; exact Hc|].
  rewrite Hc in Hcheck.
  destruct (data (vars s)) as [d|] eqn:Hd; [clear Hcheck|discriminate Hcheck].
  destruct (ok_data _ _ (s_calls s Hok) d Hd) as (Hurl & k & ph & Hk & Hholds).
  assert (Hph : ph = Finished d).
  { destruct Hholds as [-> | ->]; [|reflexivity].
    apply Hall in Hk. discriminate Hk. }
  subst ph. unfold has_url in Hurl.
  destruct (d !! "url"%string) as [url|] eqn:Hlook; [|discriminate Hurl].
  exists d, url, k. split; [reflexivity|]. split; [exact Hk|]. split; [exact Hlook|].
  unfold get_download_page, has_url. rewrite Hlook. cbn [negb orb].
  assert (Hsize : (size d =? 0)%nat = false).
  { apply Nat.eqb_neq. intros Hz. apply map_size_empty_inv in Hz.
    rewrite Hz, lookup_empty in Hlook. discriminate Hlook. }
  rewrite Hsize. cbn [orb].
  destruct (bytes_to_size_str_returns math_log n Hacc Hn) as [str ->]. reflexivity.
Qed.

Lemma running_insert (l : list phase) (k : nat) (ph ph' : phase) :
  l !! k = Some ph ->
  len (filter (fun ph => running ph = true) (<[k := ph']> l))
  = len (filter (fun ph => running ph = true) l) - weight ph + weight ph'.
Proof.
  unfold len, weight. revert k. induction l as [|x l IH]; intros k Hk; [discriminate|].
  destruct k as [|k]; cbn in Hk.
  - injection Hk as ->. change (<[0%nat := ph']> (ph :: l)) with (ph' :: l).
    rewrite !filter_cons.
    destruct (decide (running ph' = true)) as [Hr'|Hn'];
      destruct (decide (running ph = true)) as [Hr|Hn]; cbn [length];
      try rewrite Hr; try rewrite Hr';
      try (apply not_true_is_false in Hn; rewrite Hn);
      try (apply not_true_is_false in Hn'; rewrite Hn'); lia.
  - specialize (IH k Hk). change (<[S k := ph']> (x :: l)) with (x :: <[k := ph']> l).
    rewrite !filter_cons.
    destruct (decide (running x = true)); cbn [length]; lia.
Qed.

Lemma busy_insert_first (fs : list phase) (ph' : phase) :
  busy (<[0%nat := ph']> fs) = busy fs.
Proof. destruct fs; reflexivity. Qed.

Lemma busy_insert_pool (fs : list phase) (k : nat) (ph ph' : phase) :
  (1 <= k)%nat -> fs !! k = Some ph ->
  busy (<[k := ph']> fs) = busy fs - weight ph + weight ph'.
Proof.
  intros Hk1 Hk. unfold busy. destruct k as [|k]; [lia|].
  destruct fs as [|x fs]; [discriminate|].
  change (<[S k := ph']> (x :: fs)) with (x :: <[k := ph']> fs).
  cbn [drop]. rewrite !drop_0. by apply running_insert.
Qed.

Lemma busy_insert_le (fs : list phase) (k : nat) (ph ph' : phase) :
  fs !! k = Some ph -> running ph = true ->
  0 <= busy (<[k := ph']> fs) <= busy fs.
Proof.
  intros Hk Hrun. split; [apply len_nonneg|].
  destruct k as [|k]; [by rewrite busy_insert_first|].
  rewrite (busy_insert_pool fs (S k) ph ph') by (lia || exact Hk).
  unfold weight. rewrite Hrun. destruct (running ph'); lia.
Qed.

(** X10. In every session the calls for the chunks from 1 on that are
    running at the same time are never more than [thread_num], and none of
    them runs while [upload] is still at line 181 with chunk 0. *)
Theorem pool_never_exceeds_threads (chunks : Z) (s : session) :
  reachable chunks s ->
  0 <= busy (futures s) <= Z.max 0 thread_num
  /\ (coordinator s = First -> busy (futures s) = 0).
Proof.
  induction 1 as [|s e s' Hreach [IH IH0] Hstep].
  { assert (Hz : busy (futures (init chunks)) = 0).
    { unfold busy, init. cbn [futures]. rewrite drop_replicate.
      induction (_ - _)%nat as [|n IHn]; [reflexivity|]. cbn [replicate].
      rewrite filter_cons. destruct (decide _) as [E|_]; [discriminate E|exact IHn]. }
    rewrite Hz. split; [lia|reflexivity]. }
  destruct Hstep as
    [s Hc H0|s k Hk1 Hpo Hk Hbusy Hfifo|s k ph sh' ph' Hk Hw
    |s r Hc H0|s Hc H0|s seen j ph Hc Hj1 Hnew Hj Hdone|s seen Hc
    |s why j ph Hc Hj|s why j Hc Hlen Hall|s seen Hc Hall];
    cbn [futures coordinator set_future set_coord].
  - rewrite busy_insert_first. split; [exact IH|exact IH0].
  - rewrite (busy_insert_pool _ k Queued (Sending 0) Hk1 Hk). cbn [weight running].
    split; [lia|]. intros Hc. rewrite Hc in Hpo. destruct Hpo.
  - destruct (worker_step_running _ _ _ _ _ _ Hw) as [Hrun _].
    pose proof (busy_insert_le _ k ph ph' Hk Hrun) as Hle.
    split; [lia|]. intros Hc. specialize (IH0 Hc). lia.
  - split; [exact IH|]. destruct (0 <? thread_num); discriminate.
  - split; [exact IH|discriminate].
  - split; [exact IH|]. destruct (failed (vars s)); discriminate.
  - split; [exact IH|discriminate].
  - split; [|discriminate]. destruct ph; try exact IH.
    destruct j as [|j]; [by rewrite busy_insert_first|].
    rewrite (busy_insert_pool _ (S j) Queued Cancelled) by (lia || exact Hj).
    cbn [weight running]. lia.
  - split; [exact IH|discriminate].
  - split; [exact IH|]. destruct (data (vars s)); discriminate.
Qed.

End SessionOutcomes.

(** ** Sessions that crash, fail and succeed, step by step *)

Section SessionRuns.
Import Py Upload.

(** The first call is accepted, with a URL, and the pool is open. *)
Lemma first_accepted (chunks : Z) (rest : list phase) :
  init chunks
  = {| vars := {| current_chunk := 0; data := None; failed := false |};
       futures := Queued :: rest; coordinator := First |} ->
  reachable 4 size_300 chunks
    {| vars := {| current_chunk := 1; data := Some accepted; failed := false |};
       futures := Finished accepted :: rest; coordinator := Pool [] |}.
Proof.
  intros Hinit.
  assert (Hsize : 0 < size_300 0 <= update_tick)
    by (unfold size_300, update_tick; lia).
  set (sh := {| current_chunk := 0; data := None; failed := false |}) in *.
  assert (H0 : reachable 4 size_300 chunks
                 {| vars := sh; futures := Sending 0 :: rest; coordinator := First |}).
  { eapply reach_step; [apply reach_init|]. rewrite Hinit.
    apply (first_start 4 size_300
             {| vars := sh; futures := Queued :: rest; coordinator := First |});
      reflexivity. }
  pose proof (call_runs 4 size_300 chunks _ 0 accepted H0 eq_refl eq_refl Hsize) as H1.
  eapply reach_step; [exact H1|].
  apply (first_done 4 size_300
           {| vars := {| current_chunk := 1; data := Some accepted; failed := false |};
              futures := Finished accepted :: rest; coordinator := First |} accepted);
    reflexivity.
Qed.

(** Three chunks: the first accepted, the second crashed on its response,
    the third started and waiting for its turn. *)
Lemma trio_second_crashed :
  reachable 4 size_300 3
    (trio 1 (Some accepted) false (Finished accepted) Crashed (Sending 0) (Pool [])).
Proof.
  pose (f0 := Finished accepted).
  assert (Hsize : 0 < size_300 1 <= update_tick)
    by (unfold size_300, update_tick; lia).
  assert (H2 : reachable 4 size_300 3
                 (trio 1 (Some accepted) false f0 (Sending 0) (Sending 0) (Pool []))).
  { eapply reach_step with
      (s := trio 1 (Some accepted) false f0 (Sending 0) Queued (Pool [])).
    eapply reach_step with
      (s := trio 1 (Some accepted) false f0 Queued Queued (Pool [])).
    - exact (first_accepted 3 [Queued; Queued] eq_refl).
    - apply (pool_start 4 size_300
               (trio 1 (Some accepted) false f0 Queued Queued (Pool [])) 1%nat);
        [lia|exact I|reflexivity|reflexivity|intros j Hj; lia].
    - apply (pool_start 4 size_300
               (trio 1 (Some accepted) false f0 (Sending 0) Queued (Pool [])) 2%nat);
        [lia|exact I|reflexivity|reflexivity|].
      intros j Hj. assert (j = 1%nat) as -> by lia. discriminate. }
  exact (call_crashes 4 size_300 3 _ 1 H2 eq_refl eq_refl Hsize).
Qed.

(** Two chunks: the first accepted, the second crashed on its response,
    and the loop of [upload] has taken its future. *)
Lemma duo_last_crashed :
  reachable 4 size_300 2
    (duo 1 (Some accepted) false (Finished accepted) Crashed (Pool [1%nat])).
Proof.
  pose (f0 := Finished accepted).
  assert (Hsize : 0 < size_300 1 <= update_tick)
    by (unfold size_300, update_tick; lia).
  assert (H1 : reachable 4 size_300 2
                 (duo 1 (Some accepted) false f0 (Sending 0) (Pool []))).
  { eapply reach_step with (s := duo 1 (Some accepted) false f0 Queued (Pool [])).
    - exact (first_accepted 2 [Queued] eq_refl).
    - apply (pool_start 4 size_300 (duo 1 (Some accepted) false f0 Queued (Pool []))
               1%nat); [lia|exact I|reflexivity|reflexivity|intros j Hj; lia]. }
  pose proof (call_crashes 4 size_300 2 _ 1 H1 eq_refl eq_refl Hsize) as H2.
  eapply reach_step; [exact H2|].
  apply (observe 4 size_300 (duo 1 (Some accepted) false f0 Crashed (Pool [])) []
           1%nat Crashed); [reflexivity|lia|apply not_elem_of_nil|reflexivity..].
Qed.

Lemma crash_stops_cursor_witness :
  (current_chunk
     (vars (trio 1 (Some accepted) false (Finished accepted) Crashed (Sending 0)
              (Pool [])))
   = Z.of_nat 1
   /\ (forall j ph, (1 < j)%nat ->
         futures (trio 1 (Some accepted) false (Finished accepted) Crashed (Sending 0)
                    (Pool [])) !! j = Some ph ->
         in_gate ph = false /\ advanced ph = false /\ completed ph = false)
   /\ (forall e s',
         upload_step 4 size_300
           (trio 1 (Some accepted) false (Finished accepted) Crashed (Sending 0)
              (Pool [])) e s' ->
         futures s' !! 1%nat = Some Crashed /\ current_chunk (vars s') = Z.of_nat 1))
  /\ (exists s',
        upload_step 4 size_300
          (duo 1 (Some accepted) false (Finished accepted) Crashed (Pool [1%nat]))
          Finish s')
  /\ (forall s',
        upload_step 4 size_300
          (duo 1 (Some accepted) false (Finished accepted) Crashed (Pool [1%nat]))
          Finish s' ->
        (1 <= 1)%nat
        /\ 2%nat
           = length (futures (duo 1 (Some accepted) false (Finished accepted) Crashed
                                (Pool [1%nat])))).
Proof.
  destruct (crash_stops_cursor 4 size_300 3 _ 1 trio_second_crashed eq_refl)
    as (Hcur & Hlater & Hstay & _).
  destruct (crash_stops_cursor 4 size_300 2 _ 1 duo_last_crashed eq_refl)
    as (_ & _ & _ & Hfinish).
  split; [split; [exact Hcur|split; [exact Hlater|exact Hstay]]|].
  split; [|exact Hfinish].
  eexists.
  apply (finish 4 size_300
           (duo 1 (Some accepted) false (Finished accepted) Crashed (Pool [1%nat]))
           [1%nat]); [reflexivity|].
  intros j Hj. cbn in Hj. assert (j = 1%nat) as -> by lia. constructor.
Defined.

Lemma failure_never_missed_witness :
  exists j,
    (1 <= j < length (futures (duo 2 (Some accepted) true (Finished refusal)
                                 (Finished accepted) (Pool []))))%nat
    /\ j ∉ @nil nat.
Proof.
  apply (proj1 (failure_never_missed 4 size_300 2 _ duo_second_accepted ltac:(lia)) []);
    reflexivity.
Defined.

(** One chunk, accepted with a URL: [upload] returns [self]. *)
Lemma lone_accepted_returns :
  reachable 4 size_300 1 (lone 1 (Some accepted) false (Finished accepted) ReturnedSelf).
Proof.
  eapply reach_step with (s := lone 1 (Some accepted) false (Finished accepted) (Pool [])).
  eapply reach_step with (s := lone 1 (Some accepted) false (Finished accepted) First).
  eapply reach_step with (s := lone 1 (Some accepted) false (Recorded accepted) First).
  eapply reach_step with (s := lone 1 None false (Stored accepted) First).
  eapply reach_step with (s := lone 0 None false (Loaded accepted 0) First).
  eapply reach_step with (s := lone 0 None false (Responded accepted) First).
  eapply reach_step with (s := lone 0 None false Posting First).
  - exact lone_reaches_gate.
  - apply (worker_run 4 size_300 (lone 0 None false Posting First) 0%nat
             Posting _ (Responded accepted)); [reflexivity|].
    apply post_returns.
  - apply (worker_run 4 size_300 (lone 0 None false (Responded accepted) First) 0%nat
             (Responded accepted) _ (Loaded accepted 0)); [reflexivity|].
    apply (cursor_load size_300 0 {| current_chunk := 0; data := None; failed := false |}).
  - apply (worker_run 4 size_300 (lone 0 None false (Loaded accepted 0) First) 0%nat
             (Loaded accepted 0) _ (Stored accepted)); [reflexivity|].
    apply (cursor_store size_300 0 {| current_chunk := 0; data := None; failed := false |}).
  - apply (worker_run 4 size_300 (lone 1 None false (Stored accepted) First) 0%nat
             (Stored accepted) _ (Recorded accepted)); [reflexivity|].
    apply (record_url size_300 0 {| current_chunk := 1; data := None; failed := false |}).
  - apply (worker_run 4 size_300 (lone 1 (Some accepted) false (Recorded accepted) First)
             0%nat (Recorded accepted) _ (Finished accepted)); [reflexivity|].
    apply (record_status size_300 0
             {| current_chunk := 1; data := Some accepted; failed := false |}).
  - apply (first_done 4 size_300 (lone 1 (Some accepted) false (Finished accepted) First)
             accepted); reflexivity.
  - apply (finish 4 size_300 (lone 1 (Some accepted) false (Finished accepted) (Pool []))
             []); [reflexivity|]. intros j Hj. cbn in Hj. lia.
Qed.

Lemma upload_then_download_page_witness :
  exists d url k,
    data (vars (lone 1 (Some accepted) false (Finished accepted) ReturnedSelf)) = Some d
    /\ futures (lone 1 (Some accepted) false (Finished accepted) ReturnedSelf) !! k
       = Some (Finished d)
    /\ d !! "url"%string = Some url
    /\ get_download_page PyFloat.ideal_log
         (data (vars (lone 1 (Some accepted) false (Finished accepted) ReturnedSelf)))
         (Some 300)
       = Ok (Some url).
Proof.
  apply (upload_then_download_page 4 size_300 PyFloat.ideal_log 1 _ 300
           ideal_log_accurate lone_accepted_returns);
    [reflexivity|lia].
Defined.

(** The second of two calls is running in the pool. *)
Lemma duo_second_running :
  reachable 4 size_300 2 (duo 1 None true (Finished refusal) (Sending 0) (Pool [])).
Proof.
  eapply reach_step with (s := duo 1 None true (Finished refusal) Queued (Pool [])).
  - exact duo_first_refused.
  - apply (pool_start 4 size_300 (duo 1 None true (Finished refusal) Queued (Pool []))
             1%nat); [lia|exact I|reflexivity|reflexivity|intros j Hj; lia].
Qed.

Lemma pool_never_exceeds_threads_witness :
  0 <= busy (futures (duo 1 None true (Finished refusal) (Sending 0) (Pool [])))
    <= Z.max 0 4.
Proof.
  exact (proj1 (pool_never_exceeds_threads 4 size_300 2 _ duo_second_running)).
Defined.

End SessionRuns.

(** ** Chunk partitioning *)

Section PartitionFacts.
Import Py PyFloat ChunkSource Upload.

(** Below 2^53 bytes the float division of line 170 is harmless: the
    count is the exact ceiling. *)
Lemma chunk_count_exact (size chunk_size : Z) :
  0 <= size < 2 ^ 53 -> 0 < chunk_size < 2 ^ 1074 ->
  chunk_count size chunk_size = Ok ((size + chunk_size - 1) / chunk_size).
Proof.
  intros Hs Hc. unfold chunk_count, int_truediv.
  destruct (Z.eqb_spec chunk_size 0) as [?|_]; [lia|].
  rewrite (Z.abs_eq size), (Z.abs_eq chunk_size), (Z.sgn_pos chunk_size) by lia.
  set (t := (size + chunk_size - 1) / chunk_size).
  assert (Ht : (t - 1) * chunk_size < size <= t * chunk_size).
  { pose proof (Z.div_mod (size + chunk_size - 1) chunk_size ltac:(lia)).
    pose proof (Z.mod_pos_bound (size + chunk_size - 1) chunk_size ltac:(lia)).
    fold t in H. nia. }
  assert (Hone : 0 < one) by (apply pow2_pos; lia).
  assert (Ht0 : 0 <= t < 2 ^ 53) by nia.
  unfold round_ratio. set (u := nearest (size * one) chunk_size).
  assert (Hu : u <= t * one /\ (0 < size -> (t - 1) * one < u) /\ (size = 0 -> u = 0)).
  { split; [|split].
    - apply nearest_le; [lia|nia|apply representable_small; lia|nia].
    - intros Hpos. destruct (Z.eq_dec t 1) as [Ht1|Ht1].
      + rewrite Ht1. assert (1 <= u); [|lia].
        apply nearest_ge; [lia|exists 1, 0; lia| |nia].
        fold one in Hc. nia.
      + apply nearest_above_floor; nia.
    - intros ->. subst u. replace (0 * one) with (0 * chunk_size) by lia.
      apply nearest_exact; [lia|lia|exists 0, 0; lia]. }
  destruct Hu as (Hhi & Hlo & Hzero).
  assert (Hfin : u < huge).
  { unfold huge. change 2098 with (53 + 1074 + 971).
    rewrite !Z.pow_add_r by lia. fold one.
    pose proof (pow2_pos 971 ltac:(lia)). nia. }
  destruct (Z.ltb_spec u huge) as [_|?]; [|lia].
  cbn [bind ceil]. f_equal.
  destruct (Z.eq_dec size 0) as [Hs0|Hs0].
  - rewrite (Hzero Hs0). subst size. cbn [Z.sgn].
    replace t with 0 by (subst t; symmetry; apply Z.div_small; lia). reflexivity.
  - rewrite (Z.sgn_pos size), !Z.mul_1_l by lia.
    specialize (Hlo ltac:(lia)).
    assert (- u / one = - t); [|lia].
    symmetry. apply (Z.div_unique _ _ _ (t * one - u)); lia.
Qed.

Lemma chunk_payload_range (uri : bytes) (chunk_size chunk_copy_size chunk_no : Z) :
  0 < chunk_size -> 0 < chunk_copy_size ->
  0 <= chunk_no -> chunk_no * chunk_size <= len uri ->
  chunk_payload uri chunk_size chunk_copy_size chunk_no
  = Some (take (Z.to_nat chunk_size) (drop (Z.to_nat (chunk_no * chunk_size)) uri)).
Proof.
  intros Hc Hcopy Hk Hin. unfold chunk_payload, read_chunk, split_file, seek.
  destruct (Z.ltb_spec (chunk_no * chunk_size) 0) as [?|_]; [nia|].
  cbn [content].
  set (output_size := Z.min chunk_size (len uri - chunk_no * chunk_size)).
  destruct (copy_loop_copies chunk_copy_size output_size (S (length uri)) Hcopy
              {| content := uri; pos := chunk_no * chunk_size |} [] 0)
    as (ws & -> & Hcat & _); cbn [pos content]; try (unfold len in *; lia).
  cbn [app pos content] in *. rewrite Hcat, Z.sub_0_r. f_equal. subst output_size.
  destruct (Z.min_spec chunk_size (len uri - chunk_no * chunk_size))
    as [[_ ->]|[Hle ->]]; [reflexivity|].
  rewrite !take_ge; [reflexivity|rewrite length_drop..]; unfold len in *; lia.
Qed.

Lemma concat_slices {A : Type} (l : list A) (c m : nat) :
  concat (map (fun i => take c (drop (i * c) l)) (seq 0 m)) = take (m * c) l.
Proof.
  induction m as [|m IH]; [reflexivity|].
  rewrite seq_S, map_app, concat_app, IH. cbn [map concat plus].
  rewrite app_nil_r, take_take_drop. f_equal. lia.
Qed.

Lemma chunk_numbers_seq (chunks : Z) :
  chunk_numbers chunks = map Z.of_nat (seq 0 (Z.to_nat (Z.max 1 chunks))).
Proof.
  unfold chunk_numbers.
  replace (Z.to_nat (Z.max 1 chunks)) with (S (Z.to_nat chunks - 1)) by lia.
  reflexivity.
Qed.

(** X5. For a source file below 2^53 bytes, a positive chunk size and a
    positive copy buffer: line 170 gives the exact ceiling of size over
    chunk size, every chunk number that [upload] passes to [upload_chunk]
    is read in full from its offset, the payloads put together in the
    order of the chunk numbers are the file, and all but the last hold
    [chunk_size] bytes. *)
Lemma upload_chunks_partition (uri : bytes) (chunk_size chunk_copy_size : Z) :
  len uri < 2 ^ 53 -> 0 < chunk_size < 2 ^ 1074 -> 0 < chunk_copy_size ->
  exists chunks payloads,
    chunk_count (len uri) chunk_size = Ok chunks
    /\ chunks = (len uri + chunk_size - 1) / chunk_size
    /\ map (chunk_payload uri chunk_size chunk_copy_size) (chunk_numbers chunks)
       = map Some payloads
    /\ concat payloads = uri
    /\ (forall i p, payloads !! i = Some p -> (S i < length payloads)%nat ->
          len p = chunk_size).
Proof.
  intros Hsize Hc Hcopy.
  pose proof (len_nonneg uri) as Hlen0.
  set (chunks := (len uri + chunk_size - 1) / chunk_size).
  assert (Ht : (chunks - 1) * chunk_size < len uri <= chunks * chunk_size).
  { pose proof (Z.div_mod (len uri + chunk_size - 1) chunk_size ltac:(lia)) as H.
    pose proof (Z.mod_pos_bound (len uri + chunk_size - 1) chunk_size ltac:(lia)).
    fold chunks in H. nia. }
  assert (Hchunks0 : 0 <= chunks) by nia.
  set (c := Z.to_nat chunk_size).
  set (m := Z.to_nat (Z.max 1 chunks)).
  exists chunks, (map (fun i => take c (drop (i * c) uri)) (seq 0 m)).
  split; [apply chunk_count_exact; lia|]. split; [reflexivity|].
  split; [|split].
  - rewrite chunk_numbers_seq. fold m. rewrite !map_map.
    apply map_ext_in. intros i Hi. apply in_seq in Hi.
    rewrite chunk_payload_range; [|lia|lia|lia|].
    + do 3 f_equal. subst c. nia.
    + destruct (Z.eq_dec chunks 0) as [E|E]; [|nia].
      assert (i = 0%nat) by lia. subst i. lia.
  - rewrite concat_slices. apply take_ge. unfold len in *. subst m c. nia.
  - intros i p Hi Hlast. rewrite length_map, length_seq in Hlast.
    rewrite list_lookup_fmap in Hi.
    destruct (seq 0 m !! i) as [j|] eqn:Hj; [|discriminate].
    apply lookup_seq in Hj as [-> _]. cbn in Hi. injection Hi as <-.
    unfold len. rewrite length_take, length_drop. unfold len in *. subst m c. nia.
Qed.

Lemma chunk_numbers_bound (chunks k : Z) :
  1 <= chunks -> k ∈ chunk_numbers chunks -> 0 <= k < chunks.
Proof.
  intros Hc. rewrite chunk_numbers_seq, list_elem_of_fmap.
  intros (i & -> & Hi). apply list_elem_of_In, in_seq in Hi. lia.
Qed.

(** C1 at a file of 10 PiB and one byte with the default chunk size of
    10 MiB: the quotient is rounded to the double 2^30 before [math.ceil]
    sees it, one chunk short of the ceiling 2^30 + 1, and every chunk that
    is passed on ends before the last byte of the file. *)
Theorem chunk_count_rounds_down :
  chunk_count (10 * 2 ^ 50 + 1) (1024 * 1024 * 10) = Ok (2 ^ 30)
  /\ (10 * 2 ^ 50 + 1 + 1024 * 1024 * 10 - 1) / (1024 * 1024 * 10) = 2 ^ 30 + 1
  /\ forall k, k ∈ chunk_numbers (2 ^ 30) ->
       k * (1024 * 1024 * 10) + 1024 * 1024 * 10 <= 10 * 2 ^ 50.
Proof.
  split; [vm_compute; reflexivity|]. split; [vm_compute; reflexivity|].
  intros k Hk. apply chunk_numbers_bound in Hk; lia.
Qed.

Lemma upload_chunks_partition_witness :
  exists chunks payloads,
    chunk_count (len [Byte.x61; Byte.x62; Byte.x63; Byte.x64; Byte.x65]) 2 = Ok chunks
    /\ chunks = (len [Byte.x61; Byte.x62; Byte.x63; Byte.x64; Byte.x65] + 2 - 1) / 2
    /\ map (chunk_payload [Byte.x61; Byte.x62; Byte.x63; Byte.x64; Byte.x65] 2 1)
         (chunk_numbers chunks)
       = map Some payloads
    /\ concat payloads = [Byte.x61; Byte.x62; Byte.x63; Byte.x64; Byte.x65]
    /\ (forall i p, payloads !! i = Some p -> (S i < length payloads)%nat ->
          len p = 2).
Proof.
  apply (upload_chunks_partition [Byte.x61; Byte.x62; Byte.x63; Byte.x64; Byte.x65] 2 1).
  - unfold len. cbn. lia.
  - split; reflexivity.
  - lia.
Defined.

Lemma update_tick_pos : 0 < update_tick.
Proof. reflexivity. Qed.

(** The producer from any offset on: the fuel is enough as soon as it
    exceeds the bytes still to send. *)
Lemma gen_yields_from (form : bytes) (fuel : nat) :
  forall offset,
    0 <= offset ->
    Z.max 0 (len form - offset) < Z.of_nat fuel ->
    exists ys,
      gen_yields fuel form offset = Some ys
      /\ concat (map fst ys) = drop (Z.to_nat offset) form
      /\ Forall (fun y => 0 < len y.1 <= update_tick /\ y.2 = len y.1) ys
      /\ (forall i y, ys !! i = Some y -> (S i < length ys)%nat ->
            len y.1 = update_tick)
      /\ len ys = (Z.max 0 (len form - offset) + update_tick - 1) / update_tick.
Proof.
  pose proof update_tick_pos as Htick.
  induction fuel as [|fuel IH]; intros offset Hoff Hfuel; [lia|].
  cbn [gen_yields].
  destruct (Z.ltb_spec offset (len form)) as [Hlt|Hge].
  - destruct (IH (offset + update_tick)) as (ys & -> & Hcat & Hall & Hfull & Hcount);
      [lia|lia|].
    set (sl := slice form offset (offset + update_tick)).
    assert (Hsl : len sl = Z.min update_tick (len form - offset)).
    { subst sl. unfold slice, len in *. rewrite length_take, length_drop. lia. }
    eexists. split; [reflexivity|]. cbn [map concat fst].
    split; [|split; [|split]].
    + rewrite Hcat. subst sl. unfold slice.
      replace (offset + update_tick - offset) with update_tick by lia.
      replace (Z.to_nat (offset + update_tick))
        with (Z.to_nat offset + Z.to_nat update_tick)%nat by lia.
      rewrite <- drop_drop. apply take_drop.
    + constructor; [|exact Hall]. cbn [fst snd]. lia.
    + intros [|i] y Hy Hlast; cbn in Hy, Hlast.
      * injection Hy as <-. cbn [fst]. rewrite Hsl.
        destruct ys as [|y' ys']; [cbn in Hlast; lia|].
        assert (0 < len (y' :: ys')) by (unfold len; cbn; lia).
        destruct (Z.le_gt_cases update_tick (len form - offset)) as [?|Hshort]; [lia|].
        rewrite Z.max_l, Z.div_small in Hcount by lia. lia.
      * apply (Hfull i y Hy). lia.
    + assert (Hcons : forall y, len (y :: ys) = len ys + 1)
        by (intros; unfold len; cbn [length]; lia).
      rewrite Hcons, Hcount. rewrite (Z.max_r 0 (len form - offset)) by lia.
      destruct (Z.le_gt_cases update_tick (len form - offset)) as [Hlong|Hshort].
      * rewrite Z.max_r by lia.
        replace (len form - offset + update_tick - 1)
          with (len form - (offset + update_tick) + update_tick - 1 + 1 * update_tick)
          by lia.
        rewrite Z.div_add by lia. lia.
      * rewrite Z.max_l by lia.
        rewrite (Z.div_small (0 + update_tick - 1)) by lia.
        apply (Z.div_unique _ _ _ (len form - offset - 1)); lia.
  - exists []. split; [reflexivity|]. cbn.
    split; [|split; [constructor|split]].
    + symmetry. apply drop_ge. unfold len in *. lia.
    + intros i y Hy. by rewrite lookup_nil in Hy.
    + rewrite Z.max_l by lia. symmetry. apply Z.div_small. lia.
Qed.

(** X6. The producer [gen()] of [upload_chunk] sends the whole request
    body, once: it yields ceil(size / 131072) slices and then waits; the
    slices put together are [form_data_binary]; none is empty or longer
    than 128 KiB and all but the last are 128 KiB long; and the amount
    that line 135 reports to the progress bar with each slice is the
    length of that slice. *)
Theorem gen_yields_whole_body (form_data_binary : bytes) :
  exists ys,
    gen form_data_binary = Some ys
    /\ concat (map fst ys) = form_data_binary
    /\ Forall (fun y => 0 < len y.1 <= update_tick /\ y.2 = len y.1) ys
    /\ (forall i y, ys !! i = Some y -> (S i < length ys)%nat ->
          len y.1 = update_tick)
    /\ len ys = (len form_data_binary + update_tick - 1) / update_tick.
Proof.
  destruct (gen_yields_from form_data_binary (S (length form_data_binary)) 0)
    as (ys & Hgen & Hcat & Hall & Hfull & Hcount); [lia|unfold len; lia|].
  exists ys. split; [exact Hgen|]. split; [exact Hcat|].
  split; [exact Hall|]. split; [exact Hfull|].
  rewrite Hcount, Z.sub_0_r, Z.max_r by apply len_nonneg. reflexivity.
Qed.

Lemma chunk_count_negative_returns (size chunk_size : Z) :
  0 <= size < 2 ^ 53 -> chunk_size < 0 ->
  exists chunks, chunk_count size chunk_size = Ok chunks.
Proof.
  intros Hs Hc. unfold chunk_count, int_truediv.
  destruct (Z.eqb_spec chunk_size 0) as [?|_]; [lia|].
  rewrite (Z.abs_eq size), (Z.abs_neq chunk_size) by lia.
  assert (Hone : 0 < one) by (apply pow2_pos; lia).
  unfold round_ratio.
  assert (Hle : nearest (size * one) (- chunk_size) <= size * one).
  { apply nearest_le; [lia|nia|apply representable_small; lia|nia]. }
  assert (Hfin : size * one < huge).
  { unfold huge. change 2098 with (53 + 971 + 1074).
    rewrite !Z.pow_add_r by lia. fold one.
    pose proof (pow2_pos 971 ltac:(lia)). nia. }
  destruct (Z.ltb_spec (nearest (size * one) (- chunk_size)) huge) as [_|?]; [|lia].
  cbn [bind ceil]. eauto.
Qed.

(** X20. [upload] never goes on with a chunk size of 0 or less: lines 168
    to 171 raise before the front page is requested.  A chunk size of 0
    gives [ZeroDivisionError] at line 170; a negative one, for a source
    file below 2^53 bytes, gives the [ValueError] of [math.log] when line
    171 renders it (the size of the file is rendered first, with a
    logarithm of the platform that is accurate to a relative 2^-40). *)
Theorem upload_rejects_bad_chunk_size (math_log : Z -> float) (file_exists : bool)
  (size chunk_size : Z) :
  chunk_size <= 0 ->
  raises (upload_prelude math_log file_exists size chunk_size)
  /\ (file_exists = true -> chunk_size = 0 ->
      upload_prelude math_log file_exists size chunk_size = Raise ZeroDivisionError)
  /\ (log_accurate math_log ->
      file_exists = true -> chunk_size < 0 -> 0 <= size < 2 ^ 53 ->
      upload_prelude math_log file_exists size chunk_size = Raise ValueError).
Proof.
  intros Hc. unfold upload_prelude.
  assert (Hlog : chunk_size <> 0 ->
            SizeCodec.bytes_to_size_str math_log chunk_size = Raise ValueError).
  { intros Hne. unfold SizeCodec.bytes_to_size_str, floor_log_1024.
    destruct (Z.eqb_spec chunk_size 0) as [?|_]; [contradiction|].
    destruct (Z.leb_spec chunk_size 0) as [_|?]; [reflexivity|lia]. }
  split; [|split].
  - destruct file_exists; cbn [negb]; [|by exists AssertionError].
    destruct (chunk_count size chunk_size) as [chunks|e] eqn:Hcount;
      [cbn [bind]|by exists e].
    destruct (SizeCodec.bytes_to_size_str math_log size) as [str|e];
      [cbn [bind]|by exists e].
    destruct (Z.eq_dec chunk_size 0) as [->|Hne].
    + discriminate Hcount.
    + rewrite (Hlog Hne). by exists ValueError.
  - intros -> ->. reflexivity.
  - intros Hacc -> Hneg Hsize. cbn [negb].
    destruct (chunk_count_negative_returns size chunk_size Hsize Hneg) as [chunks ->].
    cbn [bind].
    destruct (bytes_to_size_str_returns math_log size Hacc) as [str ->].
    { assert (2 ^ 53 < 2 ^ 89) by (apply Z.pow_lt_mono_r; lia). lia. }
    cbn [bind]. rewrite Hlog by lia. reflexivity.
Qed.

Lemma upload_rejects_bad_chunk_size_witness :
  upload_prelude ideal_log true 300 (-1) = Raise ValueError.
Proof.
  apply (proj2 (proj2 (upload_rejects_bad_chunk_size ideal_log true 300 (-1)
                         ltac:(lia))));
    [exact ideal_log_accurate|reflexivity|lia|lia].
Defined.

End PartitionFacts.

(** ** Download *)

Section DownloadFacts.
Import Py Text Download.



(** The same through [download]: a page with an empty name element. *)
Example download_empty_name :
  returned (download share nameless_page [] three_bytes empty_disk None)
    = Raise OSError
  /\ printed (download share nameless_page [] three_bytes empty_disk None)
     = [Info "" "3B" "abc-123"; SizeCheck 3 3; Succeeded]
  /\ contents (files (download share nameless_page [] three_bytes empty_disk None))
       !! ".dl"%string
     = Some [Byte.x61; Byte.x62; Byte.x63]
  /\ contents (files (download share nameless_page [] three_bytes empty_disk None))
       !! ""%string
     = None.
Proof. repeat split; vm_compute; reflexivity. Qed.



(** Without a file name or without a file id the call ends at line 249 or
    251, on the unbound variable. *)
Lemma download_unbound (self : gfile) (page : landing) (cookies : list string)
  (t : transfer) (fs : machine) (filename : option string) (m1 : string) :
  match_uri (uri self) = Some m1 ->
  (if given filename then filename
   else option_map sanitize (web_name (fst (resolve (uri self) m1 page)))) = None
  \/ file_id (fst (resolve (uri self) m1 page)) = None ->
  returned (download self page cookies t fs filename) = Raise UnboundLocalError
  /\ files (download self page cookies t fs filename) = fs.
Proof.
  intros Hm. unfold download. rewrite Hm.
  destruct (resolve (uri self) m1 page) as [vars said]. cbn [fst snd].
  intros [-> | Hid]; [split; reflexivity|].
  destruct (if given filename then _ else _); [|split; reflexivity].
  rewrite Hid. split; reflexivity.
Qed.

(** C9.  A parse failure can be fatal although a name and a file id are
    at hand.  On a single-file page that has lost its size element, with
    no file name given, the id is the one of the URL and the name is on the
    page; the failure is reported, and then line 249 raises
    [UnboundLocalError], because the name is read after the size: nothing
    is downloaded.  On a bundle page with the same defect the name and the
    id are read before the size, and the download goes on. *)
Example download_loses_name :
  match_uri (uri share) = Some "abc-123"%string
  /\ dl_name page_without_size = Some "report.pdf"%string
  /\ printed (download share page_without_size [] three_bytes empty_disk None)
     = report "https://12.gigafile.nu/abc-123"
  /\ returned (download share page_without_size [] three_bytes empty_disk None)
     = Raise UnboundLocalError
  /\ files (download share page_without_size [] three_bytes empty_disk None)
     = empty_disk
  /\ returned (download share bundle_without_size [] three_bytes empty_disk None)
     = Ok (Some "report.pdf"%string)
  /\ contents (files (download share bundle_without_size [] three_bytes empty_disk None))
       !! "report.pdf"%string
     = Some [Byte.x61; Byte.x62; Byte.x63].
Proof. repeat split; vm_compute; reflexivity. Qed.

(** *** The share URL *)

Import SizeCodec.

Lemma span_class_inv (cls s xs r : string) :
  span_class cls s = (xs, r) ->
  s = xs +:+ r /\ only_class cls xs = true /\ class_ends cls r.
Proof.
  revert xs r. induction s as [|c s IH]; intros xs r; cbn [span_class].
  - intros [= <- <-]. cbn. auto.
  - destruct (mem_ascii c cls) eqn:Hc.
    + destruct (span_class cls s) as [ys r'].
      intros [= <- <-]. destruct (IH ys r' eq_refl) as (-> & Hys & Hr).
      rewrite append_cons. cbn [only_class]. rewrite Hc, Hys. auto.
    + intros [= <- <-]. rewrite append_nil. cbn [only_class class_ends]. auto.
Qed.

Lemma span_class_app (cls xs r : string) :
  only_class cls xs = true -> class_ends cls r -> span_class cls (xs +:+ r) = (xs, r).
Proof.
  intros Hxs Hr. induction xs as [|c xs IH].
  - rewrite append_nil. destruct r as [|c r]; [reflexivity|].
    cbn [span_class class_ends] in *. by rewrite Hr.
  - cbn [only_class] in Hxs. apply andb_true_iff in Hxs as [Hc Hxs].
    rewrite append_cons. cbn [span_class]. rewrite Hc, IH by exact Hxs.
    reflexivity.
Qed.

(** A point starts no digit. *)
Lemma point_ahead (r : string) :
  starts_continuation (String "." r) = false
  /\ match chars (String "." r) with
     | [] => True
     | g :: _ => is_decimal g = false
     end.
Proof.
  split; [reflexivity|].
  destruct (chars_head "." r) as (x & l & ->).
  destruct x as [|b [|c [|d [|e x]]]]; reflexivity.
Qed.

Lemma match_uri_inv (uri id : string) :
  match_uri uri = Some id ->
  exists s digits nl,
    uri = "http" +:+ s +:+ "://" +:+ digits +:+ ".gigafile.nu/" +:+ id +:+ nl
    /\ (s = EmptyString \/ s = "s"%string)
    /\ digits <> EmptyString /\ decimal_only digits = true
    /\ id <> EmptyString
    /\ only_class "abcdefghijklmnopqrstuvwxyz0123456789-" id = true
    /\ (nl = EmptyString \/ nl = String "010" EmptyString).
Proof.
  unfold match_uri.
  destruct (strip_prefix "http" uri) as [r0|] eqn:H0; [|discriminate].
  apply strip_prefix_inv in H0 as ->.
  set (r1 := match r0 with String "s" r => r | _ => r0 end).
  assert (Hs : exists s, (s = EmptyString \/ s = "s"%string) /\ r0 = s +:+ r1).
  { subst r1. destruct r0 as [|c r0]; [exists EmptyString; auto|].
    destruct c as [[] [] [] [] [] [] [] []];
      solve [exists EmptyString; auto | exists "s"%string; auto]. }
  clearbody r1. destruct Hs as (s & Hs & ->).
  destruct (strip_prefix "://" r1) as [r2|] eqn:H2; [|discriminate].
  apply strip_prefix_inv in H2 as ->.
  destruct (span_decimal (chars r2)) as [ds r3] eqn:H3.
  apply span_decimal_chars in H3 as (-> & Hdigits & Hne).
  destruct ds as [|d ds]; [discriminate|].
  specialize (Hne ltac:(discriminate)).
  destruct (strip_prefix ".gigafile.nu/" (glue r3)) as [r4|] eqn:H4; [|discriminate].
  apply strip_prefix_inv in H4 as ->.
  destruct (span_class _ r4) as [id' r5] eqn:H5.
  apply span_class_inv in H5 as (-> & Hid & _).
  destruct id' as [|i id']; [discriminate|].
  destruct (at_end r5) eqn:Hend; [|discriminate].
  intros [= <-]. apply at_end_inv in Hend.
  exists s, (glue (d :: ds)), r5. repeat split; auto; discriminate.
Qed.

Lemma match_uri_complete (s digits id nl : string) :
  (s = EmptyString \/ s = "s"%string) ->
  digits <> EmptyString -> decimal_only digits = true ->
  id <> EmptyString ->
  only_class "abcdefghijklmnopqrstuvwxyz0123456789-" id = true ->
  (nl = EmptyString \/ nl = String "010" EmptyString) ->
  match_uri ("http" +:+ s +:+ "://" +:+ digits +:+ ".gigafile.nu/" +:+ id +:+ nl)
  = Some id.
Proof.
  intros Hs Hd0 Hd Hi0 Hi Hnl. unfold match_uri.
  rewrite strip_prefix_app.
  remember (digits +:+ ".gigafile.nu/" +:+ id +:+ nl) as rest eqn:Hrest.
  match goal with
  | |- context [strip_prefix "://" ?x] =>
      replace x with ("://" +:+ rest) by (destruct Hs as [-> | ->]; reflexivity)
  end.
  rewrite strip_prefix_app. subst rest.
  change (".gigafile.nu/" +:+ id +:+ nl) with (String "." ("gigafile.nu/" +:+ id +:+ nl)).
  destruct (point_ahead ("gigafile.nu/" +:+ id +:+ nl)) as [Hstart Hahead].
  rewrite span_decimal_number by assumption.
  pose proof (chars_nonempty digits Hd0) as Hcs.
  destruct (chars digits) as [|d ds]; [congruence|].
  rewrite glue_chars.
  change (String "." ("gigafile.nu/" +:+ id +:+ nl))
    with (".gigafile.nu/" +:+ id +:+ nl).
  rewrite strip_prefix_app.
  rewrite span_class_app; [|exact Hi|destruct Hnl as [-> | ->]; reflexivity].
  destruct id as [|i id]; [congruence|].
  destruct Hnl as [-> | ->]; reflexivity.
Qed.

(** X11. [download] accepts exactly the share URLs of the form
    http://N.gigafile.nu/ID or https://N.gigafile.nu/ID, where N is one
    decimal digit or more, of any script ([\d] on a [str]), and ID is one
    character or more out of a-z, 0-9 and the hyphen, with nothing after ID
    but, possibly, one newline; group 1 of the match is ID.  Every other
    URL gets 'Invalid URL.'. *)
Theorem match_uri_spec (uri id : string) :
  match_uri uri = Some id <->
  exists s digits nl,
    uri = "http" +:+ s +:+ "://" +:+ digits +:+ ".gigafile.nu/" +:+ id +:+ nl
    /\ (s = EmptyString \/ s = "s"%string)
    /\ digits <> EmptyString /\ decimal_only digits = true
    /\ id <> EmptyString
    /\ only_class "abcdefghijklmnopqrstuvwxyz0123456789-" id = true
    /\ (nl = EmptyString \/ nl = String "010" EmptyString).
Proof.
  split; [apply match_uri_inv|].
  intros (s & digits & nl & -> & Hs & Hd0 & Hd & Hi0 & Hi & Hnl).
  by apply match_uri_complete.
Qed.

(** A share whose number is written in Arabic-Indic digits (U+0661,
    U+0662) is accepted; one with a letter in the number is not. *)
Example match_uri_other_digits :
  match_uri ("https://" +:+ String "217" (String "161" (String "217" (String "162"
               ".gigafile.nu/abc-123"))))
  = Some "abc-123"%string
  /\ match_uri "https://1x.gigafile.nu/abc-123" = None.
Proof. split; vm_compute; reflexivity. Qed.

Lemma mem_ascii_app (c : ascii) (s t : string) :
  mem_ascii c (s +:+ t) = mem_ascii c s || mem_ascii c t.
Proof.
  induction s as [|d s IH]; [reflexivity|].
  rewrite append_cons. cbn [mem_ascii]. rewrite IH. by rewrite orb_assoc.
Qed.

(** [rsplit('/', 1)[0]] gives what stands before the last slash. *)
Lemma before_last_slash_app (a b : string) :
  mem_ascii "/" b = false -> before_last_slash (a +:+ "/" +:+ b) = a.
Proof.
  intros Hb. induction a as [|c a IH].
  - rewrite append_nil. change ("/" +:+ b) with (String "/" b).
    cbn [before_last_slash]. by rewrite Hb.
  - rewrite append_cons. cbn [before_last_slash]. rewrite IH, mem_ascii_app.
    change ("/" +:+ b) with (String "/" b).
    cbn [mem_ascii]. by rewrite Ascii.eqb_refl, orb_true_r.
Qed.

Lemma only_class_no_slash (cls s : string) :
  mem_ascii "/" cls = false -> only_class cls s = true -> mem_ascii "/" s = false.
Proof.
  intros Hcls. induction s as [|c s IH]; [reflexivity|].
  cbn [only_class mem_ascii]. intros H. apply andb_true_iff in H as [Hc Hs].
  rewrite (IH Hs), orb_false_r.
  destruct (Ascii.eqb_spec "/" c) as [<-|_]; [congruence|reflexivity].
Qed.

(** X12. The download request goes to the host of the share: for a URL
    that line 223 accepts, [self.uri.rsplit('/', 1)[0]] is the URL without
    its last part, scheme and host, and the download URL of lines 251 to
    253 is that, followed by /download.php?file= and the file id (whether
    the id is taken from the URL or from a bundle page), and by &dlkey= and
    the password when there is a non-empty one. *)
Theorem download_url_same_host (self : gfile) (m1 : string) :
  match_uri (uri self) = Some m1 ->
  exists s digits nl,
    uri self = "http" +:+ s +:+ "://" +:+ digits +:+ ".gigafile.nu/" +:+ m1 +:+ nl
    /\ before_last_slash (uri self) = "http" +:+ s +:+ "://" +:+ digits +:+ ".gigafile.nu"
    /\ forall id,
         download_url self id
         = "http" +:+ s +:+ "://" +:+ digits +:+ ".gigafile.nu"
           +:+ "/download.php?file=" +:+ id
           +:+ match password self with
               | Some (String c pw) => "&dlkey=" +:+ String c pw
               | _ => EmptyString
               end.
Proof.
  intros Hm. apply match_uri_inv in Hm
    as (s & digits & nl & Huri & Hs & _ & Hd & _ & Hi & Hnl).
  exists s, digits, nl. split; [exact Huri|].
  assert (Hhost : before_last_slash (uri self)
                  = "http" +:+ s +:+ "://" +:+ digits +:+ ".gigafile.nu").
  { rewrite Huri.
    replace ("http" +:+ s +:+ "://" +:+ digits +:+ ".gigafile.nu/" +:+ m1 +:+ nl)
      with (("http" +:+ s +:+ "://" +:+ digits +:+ ".gigafile.nu") +:+ "/" +:+ m1 +:+ nl).
    - apply before_last_slash_app. rewrite mem_ascii_app.
      rewrite (only_class_no_slash "abcdefghijklmnopqrstuvwxyz0123456789-" m1 eq_refl Hi).
      destruct Hnl as [-> | ->]; reflexivity.
    - rewrite !append_assoc. reflexivity. }
  split; [exact Hhost|].
  intros id. unfold download_url. rewrite Hhost.
  destruct (password self) as [[|c pw]|].
  - rewrite !append_assoc. do 6 f_equal.
    induction id; [reflexivity|]. rewrite append_cons. by f_equal.
  - rewrite !append_assoc. reflexivity.
  - rewrite !append_assoc. do 6 f_equal.
    induction id; [reflexivity|]. rewrite append_cons. by f_equal.
Qed.

Lemma download_url_same_host_witness :
  exists s digits nl,
    uri share = "http" +:+ s +:+ "://" +:+ digits +:+ ".gigafile.nu/" +:+ "abc-123" +:+ nl
    /\ before_last_slash (uri share) = "http" +:+ s +:+ "://" +:+ digits +:+ ".gigafile.nu"
    /\ forall id,
         download_url share id
         = "http" +:+ s +:+ "://" +:+ digits +:+ ".gigafile.nu"
           +:+ "/download.php?file=" +:+ id
           +:+ match password share with
               | Some (String c pw) => "&dlkey=" +:+ String c pw
               | _ => EmptyString
               end.
Proof.
  apply (download_url_same_host share "abc-123"). reflexivity.
Defined.

(** *** File names, options and the progress bar *)

Lemma sanitize_clean (s : string) (c : ascii) :
  mem_ascii c unsafe_chars = true -> mem_ascii c (sanitize s) = false.
Proof.
  intros Hc. induction s as [|d s IH]; [reflexivity|].
  cbn [sanitize mem_ascii]. rewrite IH, orb_false_r.
  destruct (mem_ascii d unsafe_chars) eqn:Hd.
  - destruct (Ascii.eqb_spec c "_") as [->|_]; [discriminate Hc|reflexivity].
  - destruct (Ascii.eqb_spec c d) as [->|_]; [congruence|reflexivity].
Qed.

Lemma sanitize_continuation (c : ascii) :
  is_continuation (if mem_ascii c unsafe_chars then "_"%char else c)
  = is_continuation c.
Proof.
  destruct (mem_ascii c unsafe_chars) eqn:Hc; [|reflexivity].
  destruct c as [[] [] [] [] [] [] [] []]; try discriminate Hc; reflexivity.
Qed.

(** Cleaning the name works character by character. *)
Lemma sanitize_chars (s : string) : chars (sanitize s) = map sanitize (chars s).
Proof.
  induction s as [|c s IH]; [reflexivity|].
  cbn [sanitize]. rewrite !chars_cons, IH.
  assert (Hstart : starts_continuation (sanitize s) = starts_continuation s).
  { destruct s as [|d s]; [reflexivity|]. cbn [sanitize starts_continuation].
    apply sanitize_continuation. }
  rewrite Hstart. destruct (starts_continuation s); [|reflexivity].
  destruct (chars s); reflexivity.
Qed.

(** X13. The file name that line 249 makes out of the name on the page
    holds none of the characters backslash, slash, colon, star, question
    mark, double quote, angle brackets and bar; it is as long as the name on
    the page, in bytes and in characters; cleaning it again changes
    nothing; and a name without these characters is kept as it is. *)
Theorem sanitize_safe (s : string) :
  (forall c, mem_ascii c unsafe_chars = true -> mem_ascii c (sanitize s) = false)
  /\ String.length (sanitize s) = String.length s
  /\ sanitize (sanitize s) = sanitize s
  /\ ((forall c, mem_ascii c unsafe_chars = true -> mem_ascii c s = false) ->
      sanitize s = s)
  /\ str_len (sanitize s) = str_len s.
Proof.
  split; [intros c; apply sanitize_clean|].
  assert (Hchars : str_len (sanitize s) = str_len s).
  { unfold str_len. by rewrite sanitize_chars, length_map. }
  induction s as [|d s IH]; [by repeat split|].
  destruct (IH ltac:(unfold str_len; by rewrite sanitize_chars, length_map))
    as (IHlen & IHidem & IHid & _).
  cbn [sanitize String.length].
  split; [|split; [|split; [|exact Hchars]]].
  - by rewrite IHlen.
  - rewrite IHidem. f_equal.
    destruct (mem_ascii d unsafe_chars) eqn:Hd; [reflexivity|by rewrite Hd].
  - intros Hclean.
    assert (Hd : mem_ascii d unsafe_chars = false).
    { destruct (mem_ascii d unsafe_chars) eqn:Hd; [|reflexivity].
      specialize (Hclean d Hd). cbn [mem_ascii] in Hclean.
      by rewrite Ascii.eqb_refl in Hclean. }
    rewrite Hd. f_equal. apply IHid. intros c Hc.
    specialize (Hclean c Hc). cbn [mem_ascii] in Hclean.
    by apply orb_false_iff in Hclean as [_ ?].
Qed.

Lemma split_spaces_cons (s : string) : exists w ws, split_spaces s = w :: ws.
Proof.
  destruct s as [|c s]; [by exists EmptyString, []|]. cbn [split_spaces].
  destruct (split_spaces s); [eauto|]. destruct (Ascii.eqb c " "); eauto.
Qed.

(** X14. The aria2 options are cut at every single space (line 258):
    the parts, joined again with one space between them, are the option
    string; no part holds a space; there is always one part at least, so
    that an empty option between two spaces, or at either end, is passed on
    as an empty argument; and the parts of two option strings with a space
    between them are the parts of the first followed by those of the
    second. *)
Theorem split_spaces_join (s : string) :
  String.concat " " (split_spaces s) = s
  /\ Forall (fun w => mem_ascii " " w = false) (split_spaces s)
  /\ (1 <= length (split_spaces s))%nat
  /\ forall t, split_spaces (s +:+ " " +:+ t) = split_spaces s ++ split_spaces t.
Proof.
  split; [|split; [|split]].
  - induction s as [|c s IH]; [reflexivity|].
    cbn [split_spaces]. destruct (split_spaces_cons s) as (w & ws & Hs).
    rewrite Hs in IH |- *.
    destruct (Ascii.eqb_spec c " ") as [->|Hc].
    + change (String.concat " " ("" :: w :: ws))
        with (String " " (String.concat " " (w :: ws))).
      by rewrite IH.
    + rewrite <- IH. destruct ws; reflexivity.
  - induction s as [|c s IH]; [by repeat constructor|].
    cbn [split_spaces]. destruct (split_spaces_cons s) as (w & ws & Hs).
    rewrite Hs in IH |- *. apply Forall_cons in IH as [Hw Hws].
    destruct (Ascii.eqb_spec c " ") as [->|Hc]; [by repeat constructor|].
    constructor; [|exact Hws].
    cbn [mem_ascii]. rewrite Hw, orb_false_r. apply Ascii.eqb_neq. congruence.
  - destruct (split_spaces_cons s) as (w & ws & ->). cbn. lia.
  - intros t. induction s as [|c s IH].
    + rewrite append_nil. change (" " +:+ t) with (String " " t).
      cbn [split_spaces]. by destruct (split_spaces_cons t) as (w & ws & ->).
    + rewrite append_cons. cbn [split_spaces]. rewrite IH.
      destruct (split_spaces_cons s) as (w & ws & ->). cbn [app].
      by destruct (Ascii.eqb c " ").
Qed.

(** X17. The description of the progress bar (line 268) is never longer
    than 20 characters: a file name of up to 20 characters is shown as it
    is, a longer one as exactly 20 characters that start with its first 11,
    go on with two points and end with its last 7. *)
Theorem progress_desc_width (filename : string) :
  str_len (progress_desc filename) <= 20
  /\ (str_len filename <= 20 -> progress_desc filename = filename)
  /\ (20 < str_len filename ->
      str_len (progress_desc filename) = 20
      /\ (forall i, (i < 11)%nat ->
            chars (progress_desc filename) !! i = chars filename !! i)
      /\ chars (progress_desc filename) !! 11%nat = Some "."%string
      /\ chars (progress_desc filename) !! 12%nat = Some "."%string
      /\ (forall i, (i < 7)%nat ->
            chars (progress_desc filename) !! (13 + i)%nat
            = chars filename !! (length (chars filename) - 7 + i)%nat)).
Proof.
  unfold progress_desc, str_slice, str_len.
  set (cs := chars filename). set (n := length cs).
  destruct (Z.leb_spec (Z.of_nat n) 20) as [Hle|Hgt].
  { fold cs. fold n. split; [exact Hle|]. split; [reflexivity|lia]. }
  destruct (chars_shape filename) as [Hone Hlead]. fold cs in Hone, Hlead.
  replace (Z.to_nat (11 - 0)) with 11%nat by lia.
  replace (Z.to_nat 0) with 0%nat by lia.
  replace (Z.to_nat (Z.of_nat n - (Z.of_nat n - 7))) with 7%nat by lia.
  replace (Z.to_nat (Z.of_nat n - 7)) with (n - 7)%nat by lia.
  rewrite drop_0.
  assert (Hlast : take 7 (drop (n - 7) cs) = drop (n - 7) cs).
  { apply take_ge. rewrite length_drop. lia. }
  rewrite Hlast.
  assert (Htail_lead : Forall (fun g => starts_continuation g = false) (drop (n - 7) cs)).
  { replace (n - 7)%nat with (S (n - 8)) by lia.
    destruct cs as [|g cs']; [constructor|]. cbn [drop tail] in *.
    by apply Forall_drop. }
  assert (Htail_one : Forall (fun g => one_char g = true) (drop (n - 7) cs))
    by (by apply Forall_drop).
  assert (Hhead : chars (glue (take 11 cs)) = take 11 cs).
  { apply chars_glue; [by apply Forall_take|].
    destruct cs as [|g cs']; [constructor|]. cbn [take tail] in *.
    by apply Forall_take. }
  assert (Htail : chars (glue (drop (n - 7) cs)) = drop (n - 7) cs).
  { apply chars_glue; [exact Htail_one|].
    destruct (drop (n - 7) cs); [constructor|]. by apply Forall_cons in Htail_lead as [_ ?]. }
  assert (Hstart : starts_continuation (glue (drop (n - 7) cs)) = false).
  { destruct (drop (n - 7) cs) as [|g l]; [reflexivity|].
    apply Forall_cons in Htail_lead as [Hg _]. apply Forall_cons in Htail_one as [Hg1 _].
    cbn [glue]. rewrite starts_continuation_app; [exact Hg|]. by destruct g. }
  assert (Hdesc : chars (glue (take 11 cs) +:+ ".." +:+ glue (drop (n - 7) cs))
                  = take 11 cs ++ ["."; "."]%string ++ drop (n - 7) cs).
  { rewrite chars_app by reflexivity. rewrite Hhead. f_equal.
    change (".." +:+ ?x) with (String "." (String "." x)).
    rewrite chars_lead by reflexivity. rewrite chars_lead by exact Hstart.
    by rewrite Htail. }
  rewrite Hdesc.
  assert (Hlen11 : length (take 11 cs) = 11%nat) by (rewrite length_take; lia).
  assert (Hlen7 : length (drop (n - 7) cs) = 7%nat) by (rewrite length_drop; lia).
  assert (Hlen : length (take 11 cs ++ ["."; "."]%string ++ drop (n - 7) cs) = 20%nat).
  { rewrite !length_app, Hlen11, Hlen7. reflexivity. }
  split; [lia|]. split; [lia|]. intros _. split; [lia|].
  split; [|split; [|split]].
  - intros i Hi. rewrite lookup_app_l by lia. apply lookup_take_lt. exact Hi.
  - rewrite lookup_app_r by lia. rewrite Hlen11. reflexivity.
  - rewrite lookup_app_r by lia. rewrite Hlen11. reflexivity.
  - intros i Hi. rewrite lookup_app_r by lia. rewrite Hlen11.
    replace (13 + i - 11)%nat with (S (S i)) by lia.
    change ((["."; "."]%string ++ drop (n - 7) cs) !! S (S i))
      with (drop (n - 7) cs !! i).
    apply lookup_drop.
Qed.

(** A name of 21 characters, the second of two bytes (e with an acute
    accent): the description keeps whole characters. *)
Example progress_desc_accent :
  progress_desc ("r" +:+ String "195" (String "169" "sume-of-the-year.pdf"))
  = ("r" +:+ String "195" (String "169" "sume-of-t..ear.pdf"))%string.
Proof. vm_compute. reflexivity. Qed.

(** *** What [download] does to the files *)






(** X16. A landing page that lacks what the [try] block reads first is
    fatal: on a bundle page without the name or without the download
    button, and, when the caller gives no file name, on a single-file page
    without the size or without the name, [download] prints the report of
    the handler and then raises [UnboundLocalError] (line 249 or 251); no
    file is written and no command is run. *)
Theorem incomplete_page_is_fatal (self : gfile) (page : landing)
  (cookies : list string) (t : transfer) (fs : machine)
  (filename : option string) (m1 : string) :
  match_uri (uri self) = Some m1 ->
  (is_matomete page = true
   /\ (matomete_name page = None \/ matomete_id page = None))
  \/ (is_matomete page = false /\ given filename = false
      /\ (dl_size page = None \/ dl_name page = None)) ->
  returned (download self page cookies t fs filename) = Raise UnboundLocalError
  /\ printed (download self page cookies t fs filename)
     = (if is_matomete page then [MatometeMode] else []) ++ report (uri self)
  /\ files (download self page cookies t fs filename) = fs
  /\ spawned (download self page cookies t fs filename) = None.
Proof.
  intros Hm Hpage. unfold download, resolve. rewrite Hm.
  destruct Hpage as [[-> Hmiss]|(-> & Hgiven & Hmiss)].
  - destruct (matomete_name page) as [name|].
    + destruct Hmiss as [?|Hid]; [discriminate|]. rewrite Hid.
      cbn [web_name file_id option_map].
      destruct (if given filename then filename else Some (sanitize name));
        repeat split; reflexivity.
    + cbn [web_name file_id option_map].
      destruct (given filename); [|repeat split; reflexivity].
      destruct filename; repeat split; reflexivity.
  - rewrite Hgiven.
    destruct (dl_size page) as [size|]; [|repeat split; reflexivity].
    destruct Hmiss as [?|Hname]; [discriminate|]. rewrite Hname.
    repeat split; reflexivity.
Qed.

Lemma incomplete_page_is_fatal_witness :
  returned (download share page_without_size [] three_bytes empty_disk None)
    = Raise UnboundLocalError
  /\ printed (download share page_without_size [] three_bytes empty_disk None)
     = (if is_matomete page_without_size then [MatometeMode] else [])
       ++ report (uri share)
  /\ files (download share page_without_size [] three_bytes empty_disk None) = empty_disk
  /\ spawned (download share page_without_size [] three_bytes empty_disk None) = None.
Proof.
  apply (incomplete_page_is_fatal share page_without_size [] three_bytes empty_disk None
           "abc-123"); [reflexivity|].
  right. split; [reflexivity|]. split; [reflexivity|]. left. reflexivity.
Defined.

End DownloadFacts.

(** ** The upload server *)

Section ServerFacts.
Import Py Text SizeCodec Download Server.

Lemma until_quote_inv (s g : string) :
  until_quote s = Some g ->
  mem_ascii "034" g = false /\ mem_ascii "010" g = false
  /\ exists post, s = g +:+ String "034" post.
Proof.
  revert g. induction s as [|c s IH]; intros g; cbn [until_quote]; [discriminate|].
  destruct (Ascii.eqb_spec c "034") as [->|Hq].
  { intros [= <-]. repeat split. by exists s. }
  destruct (Ascii.eqb_spec c "010") as [->|Hn]; [discriminate|].
  destruct (until_quote s) as [g'|]; [|discriminate].
  intros [= <-]. destruct (IH g' eq_refl) as (Hq' & Hn' & post & ->).
  cbn [mem_ascii]. rewrite Hq', Hn', !orb_false_r.
  split; [apply Ascii.eqb_neq; congruence|].
  split; [apply Ascii.eqb_neq; congruence|]. by exists post.
Qed.

Lemma until_quote_finds (g post : string) :
  mem_ascii "010" g = false -> exists g', until_quote (g +:+ String "034" post) = Some g'.
Proof.
  induction g as [|c g IH]; [by exists EmptyString|].
  cbn [mem_ascii]. intros H. apply orb_false_iff in H as [Hc Hg].
  rewrite append_cons. cbn [until_quote].
  destruct (Ascii.eqb c "034"); [eauto|].
  rewrite Ascii.eqb_sym, Hc. destruct (IH Hg) as [g' ->]. cbn. eauto.
Qed.

Lemma server_here_inv (s g : string) :
  server_here s = Some g ->
  exists c g' post,
    g = String c g' /\ c <> "010"%char
    /\ mem_ascii "034" g' = false /\ mem_ascii "010" g' = false
    /\ s = server_prefix +:+ g +:+ String "034" post.
Proof.
  unfold server_here.
  destruct (strip_prefix server_prefix s) as [[|c r]|] eqn:Hp; try discriminate.
  apply strip_prefix_inv in Hp as ->.
  destruct (Ascii.eqb_spec c "010") as [->|Hn]; [discriminate|].
  destruct (until_quote r) as [g'|] eqn:Hr; [|discriminate].
  intros [= <-]. apply until_quote_inv in Hr as (Hq' & Hn' & post & ->).
  exists c, g', post. by rewrite append_cons.
Qed.

Lemma search_server_inv (text g : string) :
  search_server text = Some g ->
  exists pre, exists c g' post,
    g = String c g' /\ c <> "010"%char
    /\ mem_ascii "034" g' = false /\ mem_ascii "010" g' = false
    /\ text = pre +:+ server_prefix +:+ g +:+ String "034" post.
Proof.
  induction text as [|a text IH]; cbn [search_server].
  - destruct (server_here EmptyString) as [g0|] eqn:H0; [|discriminate].
    intros [= <-]. exists EmptyString. by apply server_here_inv.
  - destruct (server_here (String a text)) as [g0|] eqn:H0.
    + intros [= <-]. exists EmptyString. by apply server_here_inv.
    + intros H. destruct (IH H) as (pre & c & g' & post & Hg & Hc & Hq & Hn & ->).
      exists (String a pre), c, g', post. by rewrite append_cons.
Qed.

Lemma search_server_finds (pre g post : string) :
  g <> EmptyString -> mem_ascii "010" g = false ->
  exists g', search_server (pre +:+ server_prefix +:+ g +:+ String "034" post) = Some g'.
Proof.
  intros Hg Hn.
  assert (Hhere : exists g',
            server_here (server_prefix +:+ g +:+ String "034" post) = Some g').
  { unfold server_here. rewrite strip_prefix_app.
    destruct g as [|c g]; [congruence|].
    cbn [mem_ascii] in Hn. apply orb_false_iff in Hn as [Hc Hn].
    rewrite append_cons, Ascii.eqb_sym, Hc.
    destruct (until_quote_finds g post Hn) as [g' ->]. cbn. eauto. }
  induction pre as [|a pre IH].
  - rewrite append_nil. destruct Hhere as [g' Hg'].
    destruct (server_prefix +:+ g +:+ String "034" post); cbn [search_server];
      rewrite Hg'; eauto.
  - rewrite append_cons. cbn [search_server].
    destruct (server_here (String a _)); [eauto|exact IH].
Qed.

(** X19. The server name of line 178.  When [upload] finds one in the
    front page, the page holds, somewhere, the text var server = , a double
    quote, the name and a double quote; the name is not empty, holds no
    newline, and no double quote after its first character (the match stops
    at the first quote that can close it).  A page that holds such a text,
    with a name that is not empty and has no newline, always gives a name;
    and the only failure is the [TypeError] of subscripting [None]. *)
Theorem find_server_spec (text : string) :
  (forall g, find_server text = Ok g ->
     exists pre c g' post,
       g = String c g' /\ c <> "010"%char
       /\ mem_ascii "034" g' = false /\ mem_ascii "010" g' = false
       /\ text = pre +:+ server_prefix +:+ g +:+ String "034" post)
  /\ (forall pre g post,
        g <> EmptyString -> mem_ascii "010" g = false ->
        text = pre +:+ server_prefix +:+ g +:+ String "034" post ->
        exists g', find_server text = Ok g')
  /\ (forall e, find_server text = Raise e -> e = TypeError).
Proof.
  unfold find_server. split; [|split].
  - intros g. destruct (search_server text) as [g0|] eqn:Hs; [|discriminate].
    intros [= <-]. by apply search_server_inv.
  - intros pre g post Hg Hn ->.
    destruct (search_server_finds pre g post Hg Hn) as [g' ->]. eauto.
  - intros e. destruct (search_server text); [discriminate|]. by intros [= <-].
Qed.

End ServerFacts.
